(** * Teeny Tiny compiler: lexer, parser/emitter and their properties

    A shallow embedding of [lex.py], [emit.py], [parse.py] and
    [teenytiny.py].  Python objects whose fields are mutated in place
    ([Lexer], [Parser], [Emitter]) become records threaded through a
    state-and-error monad; [sys.exit] becomes the [Abort] outcome, which
    keeps the state the object had when the exit was raised; [while]
    loops take fuel, and running out of it is a third outcome that the
    termination theorems rule out.

    Characters are the code points 0..255 (type [ascii]); the character
    classes [isdigit], [isalpha] and [isalnum] are the ones Python's
    [str] methods compute on that range.  The debugging [print] calls of
    [parse.py] write to standard output only and are left out; the
    interpreter's recursion limit is not modelled. *)

From Stdlib Require Import Ascii.
From stdpp Require Import base gmap sets list strings pretty.

Open Scope Z_scope.

#[local] Set Warnings "-clear-no-such-hyp".

(** ** Characters and strings *)

Module Chars.

Definition NUL : ascii := "000"%char.
Definition TAB : ascii := "009"%char.
Definition LF : ascii := "010"%char.
Definition CR : ascii := "013"%char.
Definition SPACE : ascii := "032"%char.
Definition BANG : ascii := "033"%char.
Definition QUOTE : ascii := "034"%char.
Definition HASH : ascii := "035"%char.
Definition PERCENT : ascii := "037"%char.
Definition STAR : ascii := "042"%char.
Definition PLUS_SIGN : ascii := "043"%char.
Definition MINUS_SIGN : ascii := "045"%char.
Definition DOT : ascii := "046"%char.
Definition SLASH_SIGN : ascii := "047"%char.
Definition LESS : ascii := "060"%char.
Definition EQUALS : ascii := "061"%char.
Definition GREATER : ascii := "062"%char.

End Chars.
Import Chars.

(** A Python [str] of length one. *)
Definition str1 (c : ascii) : string := String c EmptyString.

(** [ord(c)] *)
Definition ord (c : ascii) : Z := Z.of_N (N_of_ascii c).

Definition between (lo hi : Z) (c : ascii) : bool :=
  (lo <=? ord c) && (ord c <=? hi).

(** [str.isdigit]: the decimal digits and the superscripts two, three, one. *)
Definition isdigit (c : ascii) : bool :=
  between 48 57 c || between 178 179 c || between 185 185 c.

(** [str.isalpha]: the letter categories of the Unicode database. *)
Definition isalpha (c : ascii) : bool :=
  between 65 90 c || between 97 122 c
  || between 170 170 c || between 181 181 c || between 186 186 c
  || between 192 214 c || between 216 246 c || between 248 255 c.

(** [str.isalnum]: alphabetic, decimal, digit or numeric (the vulgar
    fractions 188..190 are numeric). *)
Definition isalnum (c : ascii) : bool :=
  isalpha c || isdigit c || between 188 190 c.

(** [s[i]] for [0 <= i < len(s)]. *)
Definition index (s : string) (i : Z) : ascii :=
  default NUL (String.get (Z.to_nat i) s).

(** [s[a:b]] for [0 <= a]. *)
Definition slice (s : string) (a b : Z) : string :=
  String.substring (Z.to_nat a) (Z.to_nat (b - a)) s.

Definition len (s : string) : Z := Z.of_nat (String.length s).

(** ** Tokens ([lex.py]) *)

Inductive TokenType : Set :=
  | EOF | NEWLINE | NUMBER | IDENT | STRING
  | LABEL | GOTO | PRINT | INPUT | LET | IF | THEN | ENDIF
  | WHILE | REPEAT | ENDWHILE
  | EQ | PLUS | MINUS | ASTERISK | SLASH | EQEQ | NOTEQ
  | LT | LTEQ | GT | GTEQ.

Global Instance TokenType_eq_dec : EqDecision TokenType.
Proof. solve_decision. Defined.

Module TokenType.

(** The members in definition order, as iterating over the enum yields them. *)
Definition members : list TokenType :=
  [EOF; NEWLINE; NUMBER; IDENT; STRING;
   LABEL; GOTO; PRINT; INPUT; LET; IF; THEN; ENDIF; WHILE; REPEAT; ENDWHILE;
   EQ; PLUS; MINUS; ASTERISK; SLASH; EQEQ; NOTEQ; LT; LTEQ; GT; GTEQ].

Definition name (k : TokenType) : string :=
  match k with
  | EOF => "EOF" | NEWLINE => "NEWLINE" | NUMBER => "NUMBER"
  | IDENT => "IDENT" | STRING => "STRING"
  | LABEL => "LABEL" | GOTO => "GOTO" | PRINT => "PRINT" | INPUT => "INPUT"
  | LET => "LET" | IF => "IF" | THEN => "THEN" | ENDIF => "ENDIF"
  | WHILE => "WHILE" | REPEAT => "REPEAT" | ENDWHILE => "ENDWHILE"
  | EQ => "EQ" | PLUS => "PLUS" | MINUS => "MINUS"
  | ASTERISK => "ASTERISK" | SLASH => "SLASH" | EQEQ => "EQEQ"
  | NOTEQ => "NOTEQ" | LT => "LT" | LTEQ => "LTEQ" | GT => "GT"
  | GTEQ => "GTEQ"
  end.

Definition value (k : TokenType) : Z :=
  match k with
  | EOF => -1 | NEWLINE => 0 | NUMBER => 1 | IDENT => 2 | STRING => 3
  | LABEL => 101 | GOTO => 102 | PRINT => 103 | INPUT => 104 | LET => 105
  | IF => 106 | THEN => 107 | ENDIF => 108 | WHILE => 109 | REPEAT => 110
  | ENDWHILE => 111
  | EQ => 201 | PLUS => 202 | MINUS => 203 | ASTERISK => 204 | SLASH => 205
  | EQEQ => 206 | NOTEQ => 207 | LT => 208 | LTEQ => 209 | GT => 210
  | GTEQ => 211
  end.

End TokenType.

Record Token : Set := mkToken { text : string; kind : TokenType }.

Global Instance Token_eq_dec : EqDecision Token.
Proof. solve_decision. Defined.

(** [Token.is_keyword]: the first member whose name is [text] and whose
    value lies in 100..200, or [None]. *)
Definition is_keyword (text : string) : option TokenType :=
  find (λ k, bool_decide (TokenType.name k = text)
             && (100 <=? TokenType.value k) && (TokenType.value k <=? 200))
       TokenType.members.

(** ** Errors

    Every [abort] call site of the two classes, with the data its message
    is built from. *)

Inductive Error : Set :=
  | LexExpectedNotEq (peeked : ascii)
  | LexIllegalString
  | LexIllegalNumber (at_pos : Z)
  | LexUnknownToken (c : ascii)
  | ParseExpected (expected got : TokenType)
  | ParseInvalidStatement (t : Token)
  | ParseExpectedComparison (txt : string)
  | ParseUnexpectedToken (txt : string)
  | SemLabelExists (label : string)
  | SemUndeclaredLabel (label : string)
  | SemUndeclaredVariable (txt : string).

(** The argument handed to [sys.exit]. *)
Definition message (e : Error) : string :=
  match e with
  | LexExpectedNotEq c => "Lexing error. Expected !=, got !" +:+ str1 c
  | LexIllegalString => "Lexing error. Illegal character in string."
  | LexIllegalNumber p =>
      "Lexing error. illegal character in number at " +:+ pretty p
  | LexUnknownToken c => "Lexing error. Unknown token: " +:+ str1 c
  | ParseExpected k g =>
      "Error Expected " +:+ TokenType.name k +:+ ", got " +:+ TokenType.name g
  | ParseInvalidStatement t =>
      "Error Invalid statement at " +:+ text t +:+ " ("
        +:+ TokenType.name (kind t) +:+ ")"
  | ParseExpectedComparison t =>
      "Error Expected comparison operator at " +:+ t
  | ParseUnexpectedToken t => "Error Unexpected token at " +:+ t
  | SemLabelExists l => "Error Label already exists: " +:+ l
  | SemUndeclaredLabel l =>
      "Error Attempting to GOTO an undeclared label: " +:+ l
  | SemUndeclaredVariable t =>
      "Error Refrencing variable before assignment: " +:+ t
  end.

Inductive ErrorClass : Set := LexError | ParseError | SemanticError.

Definition error_class (e : Error) : ErrorClass :=
  match e with
  | LexExpectedNotEq _ | LexIllegalString | LexIllegalNumber _
  | LexUnknownToken _ => LexError
  | ParseExpected _ _ | ParseInvalidStatement _ | ParseExpectedComparison _
  | ParseUnexpectedToken _ => ParseError
  | SemLabelExists _ | SemUndeclaredLabel _ | SemUndeclaredVariable _ =>
      SemanticError
  end.

(** ** The state-and-error monad *)

Inductive Outcome (S A : Type) : Type :=
  | Ok (a : A) (s : S)
  | Abort (e : Error) (s : S)
  | OutOfFuel.
Arguments Ok {S A} a s.
Arguments Abort {S A} e s.
Arguments OutOfFuel {S A}.

Definition M (S A : Type) : Type := S → Outcome S A.

Global Instance M_ret {S} : MRet (M S) := λ A a s, Ok a s.

Global Instance M_bind {S} : MBind (M S) := λ A B f m s,
  match m s with
  | Ok a s' => f a s'
  | Abort e s' => Abort e s'
  | OutOfFuel => OutOfFuel
  end.

Definition get {S} : M S S := λ s, Ok s s.
Definition gets {S A} (f : S → A) : M S A := λ s, Ok (f s) s.
Definition modify {S} (f : S → S) : M S () := λ s, Ok () (f s).
Definition abort {S A} (e : Error) : M S A := λ s, Abort e s.
Definition when {S} (b : bool) (m : M S ()) : M S () :=
  if b then m else mret ().

(** [while cond: body], with one unit of fuel per iteration. *)
Fixpoint while {S} (fuel : nat) (cond : S → bool) (body : M S ()) : M S () :=
  λ s,
    if cond s then
      match fuel with
      | O => OutOfFuel
      | S fuel' =>
          match body s with
          | Ok _ s' => while fuel' cond body s'
          | Abort e s' => Abort e s'
          | OutOfFuel => OutOfFuel
          end
      end
    else Ok () s.

(** ** The lexer ([lex.py]) *)

Record Lexer : Set := mkLexer {
  source : string;
  source_len : Z;
  char : ascii;
  pos : Z;
  (** ghost: every value [next_char] has given to [pos], newest first *)
  pos_history : list Z
}.

Definition next_char_state (l : Lexer) : Lexer :=
  let pos' := pos l + 1 in
  {| source := source l;
     source_len := source_len l;
     char := if bool_decide (pos' >= source_len l) then NUL
             else index (source l) pos';
     pos := pos';
     pos_history := pos' :: pos_history l |}.

Definition next_char : M Lexer () := modify next_char_state.

(** [Lexer.__init__]: the empty placeholder held by [char] before the
    first [next_char] is never read. *)
Definition Lexer_init (input : string) : Lexer :=
  let source := input +:+ str1 LF in
  next_char_state
    {| source := source; source_len := len source; char := NUL;
       pos := -1; pos_history := [] |}.

Definition peek (l : Lexer) : ascii :=
  if bool_decide (pos l + 1 >= source_len l) then NUL
  else index (source l) (pos l + 1).

Definition skip_whitespace (fuel : nat) : M Lexer () :=
  while fuel (λ l, bool_decide (char l ∈ [SPACE; TAB; CR])) next_char.

Definition skip_comment (fuel : nat) : M Lexer () :=
  c ← gets char;
  when (bool_decide (c = HASH))
    (while fuel (λ l, bool_decide (char l ≠ LF)) next_char).

(** The tuple a string character is tested against. *)
Definition illegal_in_string : list string :=
  [str1 CR; str1 TAB; str1 LF; "//"%string; str1 PERCENT].

Definition two_char_operator (k : TokenType) : M Lexer Token :=
  last_char ← gets char;
  next_char;;
  c ← gets char;
  mret (mkToken (str1 last_char +:+ str1 c) k).

Definition get_token (fuel : nat) : M Lexer Token :=
  skip_whitespace fuel;;
  skip_comment fuel;;
  c ← gets char;
  token ←
    (if bool_decide (c = PLUS_SIGN) then mret (mkToken (str1 c) PLUS)
     else if bool_decide (c = MINUS_SIGN) then mret (mkToken (str1 c) MINUS)
     else if bool_decide (c = STAR) then mret (mkToken (str1 c) ASTERISK)
     else if bool_decide (c = SLASH_SIGN) then mret (mkToken (str1 c) SLASH)
     else if bool_decide (c = EQUALS) then
       p ← gets peek;
       if bool_decide (p = EQUALS) then
         last_char ← gets char;
         next_char;;
         mret (mkToken (str1 last_char) EQEQ)
       else mret (mkToken (str1 c) EQ)
     else if bool_decide (c = GREATER) then
       p ← gets peek;
       if bool_decide (p = EQUALS) then two_char_operator GTEQ
       else mret (mkToken (str1 c) GT)
     else if bool_decide (c = LESS) then
       p ← gets peek;
       if bool_decide (p = EQUALS) then two_char_operator LTEQ
       else mret (mkToken (str1 c) LT)
     else if bool_decide (c = BANG) then
       p ← gets peek;
       if bool_decide (p = EQUALS) then two_char_operator NOTEQ
       else abort (LexExpectedNotEq p)
     else if bool_decide (c = QUOTE) then
       next_char;;
       start ← gets pos;
       while fuel (λ l, bool_decide (char l ≠ QUOTE))
         (ch ← gets char;
          when (bool_decide (str1 ch ∈ illegal_in_string))
            (abort LexIllegalString);;
          next_char);;
       l ← get;
       mret (mkToken (slice (source l) start (pos l)) STRING)
     else if isdigit c then
       start ← gets pos;
       while fuel (λ l, isdigit (peek l)) next_char;;
       p ← gets peek;
       when (bool_decide (p = DOT))
         (next_char;;
          l ← get;
          when (negb (isdigit (peek l))) (abort (LexIllegalNumber (pos l)));;
          while fuel (λ l, isdigit (peek l)) next_char);;
       l ← get;
       mret (mkToken (slice (source l) start (pos l + 1)) NUMBER)
     else if isalpha c then
       start ← gets pos;
       while fuel (λ l, isalnum (peek l)) next_char;;
       l ← get;
       let text := slice (source l) start (pos l + 1) in
       match is_keyword text with
       | None => mret (mkToken text IDENT)
       | Some keyword => mret (mkToken text keyword)
       end
     else if bool_decide (c = LF) then mret (mkToken (str1 c) NEWLINE)
     else if bool_decide (c = NUL) then mret (mkToken (str1 c) EOF)
     else abort (LexUnknownToken c));
  next_char;;
  mret token.

(** [n] successive calls of [get_token], as the [main] loop of [lex.py]
    makes them. *)
Fixpoint get_tokens (fuel : nat) (n : nat) : M Lexer (list Token) :=
  match n with
  | O => mret []
  | S n' =>
      t ← get_token fuel;
      ts ← get_tokens fuel n';
      mret (t :: ts)
  end.

Definition kinds_of (o : Outcome Lexer (list Token)) : list TokenType :=
  match o with Ok ts _ => kind <$> ts | _ => [] end.

(** ** The emitter ([emit.py]) *)

Record Emitter : Set := mkEmitter {
  outfile : string;
  header : string;
  code : string
}.

Definition Emitter_init (outfile : string) : Emitter :=
  {| outfile := outfile; header := EmptyString; code := EmptyString |}.

Module Emitter.

Definition emit (c : string) (e : Emitter) : Emitter :=
  {| outfile := outfile e; header := header e; code := code e +:+ c |}.

Definition emit_line (c : string) (e : Emitter) : Emitter :=
  {| outfile := outfile e; header := header e;
     code := code e +:+ (c +:+ str1 LF) |}.

Definition header_line (c : string) (e : Emitter) : Emitter :=
  {| outfile := outfile e; header := header e +:+ (c +:+ str1 LF);
     code := code e |}.

(** What [write_file] writes to [outfile]. *)
Definition write_file (e : Emitter) : string := header e +:+ code e.

End Emitter.

(** ** The parser ([parse.py]) *)

Record Parser : Type := mkParser {
  lex : Lexer;
  emitter : Emitter;
  current_token : Token;
  peek_token : Token;
  symbols : gset string;
  labels_declared : gset string;
  labels_gotoed : gset string
}.

Definition set_lex (l : Lexer) (p : Parser) : Parser :=
  mkParser l (emitter p) (current_token p) (peek_token p)
           (symbols p) (labels_declared p) (labels_gotoed p).
Definition set_emitter (e : Emitter) (p : Parser) : Parser :=
  mkParser (lex p) e (current_token p) (peek_token p)
           (symbols p) (labels_declared p) (labels_gotoed p).
Definition set_current_token (t : Token) (p : Parser) : Parser :=
  mkParser (lex p) (emitter p) t (peek_token p)
           (symbols p) (labels_declared p) (labels_gotoed p).
Definition set_peek_token (t : Token) (p : Parser) : Parser :=
  mkParser (lex p) (emitter p) (current_token p) t
           (symbols p) (labels_declared p) (labels_gotoed p).
Definition set_symbols (s : gset string) (p : Parser) : Parser :=
  mkParser (lex p) (emitter p) (current_token p) (peek_token p)
           s (labels_declared p) (labels_gotoed p).
Definition set_labels_declared (s : gset string) (p : Parser) : Parser :=
  mkParser (lex p) (emitter p) (current_token p) (peek_token p)
           (symbols p) s (labels_gotoed p).
Definition set_labels_gotoed (s : gset string) (p : Parser) : Parser :=
  mkParser (lex p) (emitter p) (current_token p) (peek_token p)
           (symbols p) (labels_declared p) s.

(** Run a lexer method on the parser's [lex] field. *)
Definition on_lex {A} (m : M Lexer A) : M Parser A := λ p,
  match m (lex p) with
  | Ok a l => Ok a (set_lex l p)
  | Abort e l => Abort e (set_lex l p)
  | OutOfFuel => OutOfFuel
  end.

Definition emit (c : string) : M Parser () :=
  modify (λ p, set_emitter (Emitter.emit c (emitter p)) p).
Definition emit_line (c : string) : M Parser () :=
  modify (λ p, set_emitter (Emitter.emit_line c (emitter p)) p).
Definition header_line (c : string) : M Parser () :=
  modify (λ p, set_emitter (Emitter.header_line c (emitter p)) p).

Definition check_token (k : TokenType) (p : Parser) : bool :=
  bool_decide (k = kind (current_token p)).

Definition check_peek (k : TokenType) (p : Parser) : bool :=
  bool_decide (k = kind (peek_token p)).

Definition next_token (fuel : nat) : M Parser () :=
  modify (λ p, set_current_token (peek_token p) p);;
  t ← on_lex (get_token fuel);
  modify (set_peek_token t).

(** [Parser.match] *)
Definition match_ (fuel : nat) (k : TokenType) : M Parser () :=
  p ← get;
  when (negb (check_token k p))
    (abort (ParseExpected k (kind (current_token p))));;
  next_token fuel.

(** [Parser.__init__]: the two [next_token] calls replace the [None]
    held by [current_token] and [peek_token] before any rule reads them;
    an abort of the lexer in these calls leaves no parser behind. *)
Definition Parser_init (fuel : nat) (emitter : Emitter) : M Lexer Parser :=
  t1 ← get_token fuel;
  t2 ← get_token fuel;
  lexer ← get;
  mret {| lex := lexer; emitter := emitter;
          current_token := t1; peek_token := t2;
          symbols := ∅; labels_declared := ∅; labels_gotoed := ∅ |}.

Definition primary (fuel : nat) : M Parser () :=
  p ← get;
  if check_token NUMBER p then
    emit (text (current_token p));;
    next_token fuel
  else if check_token IDENT p then
    when (bool_decide (text (current_token p) ∉ symbols p))
      (abort (SemUndeclaredVariable (text (current_token p))));;
    emit (text (current_token p));;
    next_token fuel
  else abort (ParseUnexpectedToken (text (current_token p))).

(** [emit(self.current_token.text); next_token()], the shared start of
    every operator branch. *)
Definition emit_current (fuel : nat) : M Parser () :=
  t ← gets current_token;
  emit (text t);;
  next_token fuel.

Definition unary (fuel : nat) : M Parser () :=
  p ← get;
  when (check_token PLUS p || check_token MINUS p) (emit_current fuel);;
  primary fuel.

Definition term (fuel : nat) : M Parser () :=
  unary fuel;;
  while fuel (λ p, check_token ASTERISK p || check_token SLASH p)
    (emit_current fuel;; unary fuel).

Definition expression (fuel : nat) : M Parser () :=
  term fuel;;
  while fuel (λ p, check_token PLUS p || check_token MINUS p)
    (emit_current fuel;; term fuel).

Definition is_comparison_op (p : Parser) : bool :=
  existsb (λ k, check_token k p) [GT; LT; GTEQ; LTEQ; EQEQ; NOTEQ].

Definition comparison (fuel : nat) : M Parser () :=
  expression fuel;;
  p ← get;
  (if is_comparison_op p then emit_current fuel;; expression fuel
   else abort (ParseExpectedComparison (text (current_token p))));;
  while fuel is_comparison_op (emit_current fuel;; expression fuel).

Definition nl (fuel : nat) : M Parser () :=
  match_ fuel NEWLINE;;
  while fuel (check_token NEWLINE) (next_token fuel).

Definition q : string := str1 QUOTE.

(** [if text not in symbols: symbols.add(text); header_line(...)] *)
Definition declare (name : string) : M Parser () :=
  p ← get;
  when (bool_decide (name ∉ symbols p))
    (modify (λ p, set_symbols ({[name]} ∪ symbols p) p);;
     header_line ("float " +:+ name +:+ ";")).

(** The body of [statement]; [statement] stands for the recursive calls
    made from the IF and WHILE blocks. *)
Definition statement_body (fuel : nat) (statement : M Parser ())
  : M Parser () :=
  p ← get;
  (if check_token PRINT p then
     next_token fuel;;
     p ← get;
     if check_token STRING p then
       emit_line ("printf(" +:+ q +:+ text (current_token p) +:+ "\n"
                  +:+ q +:+ ");");;
       next_token fuel
     else
       emit ("printf(" +:+ q +:+ "%.2f\n" +:+ q +:+ ", (float)(");;
       expression fuel;;
       emit_line "));"
   else if check_token IF p then
     next_token fuel;;
     emit "if(";;
     comparison fuel;;
     match_ fuel THEN;;
     nl fuel;;
     emit_line "){";;
     while fuel (λ p, negb (check_token ENDIF p)) statement;;
     match_ fuel ENDIF;;
     emit_line "}"
   else if check_token WHILE p then
     next_token fuel;;
     emit "while(";;
     comparison fuel;;
     match_ fuel REPEAT;;
     nl fuel;;
     emit_line "){";;
     while fuel (λ p, negb (check_token ENDWHILE p)) statement;;
     match_ fuel ENDWHILE;;
     emit_line "}"
   else if check_token LABEL p then
     next_token fuel;;
     p ← get;
     when (bool_decide (text (current_token p) ∈ labels_declared p))
       (abort (SemLabelExists (text (current_token p))));;
     modify (λ p, set_labels_declared
                    ({[text (current_token p)]} ∪ labels_declared p) p);;
     emit_line (text (current_token p) +:+ ":");;
     match_ fuel IDENT
   else if check_token GOTO p then
     next_token fuel;;
     p ← get;
     modify (λ p, set_labels_gotoed
                    ({[text (current_token p)]} ∪ labels_gotoed p) p);;
     emit_line ("goto " +:+ text (current_token p) +:+ ";");;
     match_ fuel IDENT
   else if check_token LET p then
     next_token fuel;;
     p ← get;
     declare (text (current_token p));;
     emit (text (current_token p) +:+ " = ");;
     match_ fuel IDENT;;
     match_ fuel EQ;;
     expression fuel;;
     emit_line ";"
   else if check_token INPUT p then
     next_token fuel;;
     p ← get;
     declare (text (current_token p));;
     emit_line ("if(0 == scanf(" +:+ q +:+ "%f" +:+ q +:+ ", &"
                +:+ text (current_token p) +:+ ")) {");;
     emit_line (text (current_token p) +:+ " = 0;");;
     emit ("scanf(" +:+ q +:+ "%");;
     emit_line ("*s" +:+ q +:+ ");");;
     emit_line "}";;
     match_ fuel IDENT
   else abort (ParseInvalidStatement (current_token p)));;
  nl fuel.

Fixpoint statement (fuel : nat) : M Parser () :=
  match fuel with
  | O => λ _, OutOfFuel
  | S fuel' => statement_body fuel' (statement fuel')
  end.

(** [for x in xs: body(x)] *)
Fixpoint for_each {S A} (xs : list A) (body : A → M S ()) : M S () :=
  match xs with
  | [] => mret ()
  | x :: xs' => body x;; for_each xs' body
  end.

(** The order in which a run iterates over a set of strings depends on
    the hash seed of the process: a run is given by a function that
    lists the elements of a set in the order of that run. *)
Definition SetOrder : Type := gset string → list string.

Definition set_order_ok (order : SetOrder) : Prop :=
  ∀ s : gset string, order s ≡ₚ elements s.

(** Everything [program] does before the label loop. *)
Definition program_parse (fuel : nat) : M Parser () :=
  header_line "#include <stdio.h>";;
  header_line "int main(void){";;
  while fuel (check_token NEWLINE) (next_token fuel);;
  while fuel (λ p, negb (check_token EOF p)) (statement fuel);;
  emit_line "return 0;";;
  emit_line "}".

Definition program_check_labels (order : SetOrder) : M Parser () :=
  p ← get;
  for_each (order (labels_gotoed p))
    (λ label,
       p ← get;
       when (bool_decide (label ∉ labels_declared p))
         (abort (SemUndeclaredLabel label))).

Definition program (order : SetOrder) (fuel : nat) : M Parser () :=
  program_parse fuel;;
  program_check_labels order.

(** ** The driver ([teenytiny.py]) *)

Inductive Result (A : Type) : Type :=
  | Success (a : A)
  | Failure (e : Error)
  | Timeout.
Arguments Success {A} a.
Arguments Failure {A} e.
Arguments Timeout {A}.

(** [main] up to the return of [parser.program()]: the parser as it is
    when compilation ends. *)
Definition compile (order : SetOrder) (fuel : nat) (input : string)
  : Result Parser :=
  match Parser_init fuel (Emitter_init "out.c") (Lexer_init input) with
  | Ok parser _ =>
      match program order fuel parser with
      | Ok _ parser' => Success parser'
      | Abort e _ => Failure e
      | OutOfFuel => Timeout
      end
  | Abort e _ => Failure e
  | OutOfFuel => Timeout
  end.

(** The contents of [out.c], written only when [program] returns. *)
Definition main (order : SetOrder) (fuel : nat) (input : string)
  : Result string :=
  match compile order fuel input with
  | Success parser => Success (Emitter.write_file (emitter parser))
  | Failure e => Failure e
  | Timeout => Timeout
  end.

Definition lines (ls : list string) : string :=
  foldr (λ l acc, l +:+ str1 LF +:+ acc) EmptyString ls.

(** * Specification vocabulary *)

(** [twp m Q E s]: run from [s], [m] does not run out of fuel; it returns
    in a state satisfying [Q] or aborts in a state satisfying [E]. *)
Definition twp {S A} (m : M S A) (Q : A → S → Prop) (E : Error → S → Prop)
    (s : S) : Prop :=
  match m s with
  | Ok a s' => Q a s'
  | Abort e s' => E e s'
  | OutOfFuel => False
  end.

(** [m2] agrees with [m1] wherever [m1] does not run out of fuel. *)
Definition refines {S A} (m1 m2 : M S A) : Prop :=
  ∀ s, m1 s ≠ OutOfFuel → m2 s = m1 s.

Definition char_at (l : Lexer) (i : Z) : ascii :=
  if bool_decide (i >= source_len l) then NUL else index (source l) i.

(** A lexer whose fields agree with each other and whose source ends in
    the newline [__init__] appends. *)
Record WF (l : Lexer) : Prop := {
  wf_len : source_len l = len (source l);
  wf_pos : 0 ≤ pos l;
  wf_char : char l = char_at l (pos l);
  wf_last : index (source l) (source_len l - 1) = LF;
  wf_nonempty : 1 ≤ source_len l
}.

(** The offset, and every offset [next_char] has produced so far, is a
    valid index or the source length. *)
Definition InRange (l : Lexer) : Prop :=
  pos l ≤ source_len l
  ∧ Forall (λ z, 0 ≤ z ≤ source_len l) (pos_history l).

(** [l1] is reached from [l] by [next_char] calls that stay in range. *)
Definition scanned (l l1 : Lexer) : Prop :=
  WF l1 ∧ source l1 = source l ∧ source_len l1 = source_len l
  ∧ pos l ≤ pos l1
  ∧ (pos l ≤ source_len l → pos l1 ≤ source_len l1)
  ∧ (InRange l → InRange l1).

Definition remaining (l : Lexer) : nat := Z.to_nat (source_len l - pos l).

(** What holds of the state in which [get_token] has chosen its token,
    before the final [next_char]. *)
Definition selected (l : Lexer) (t : Token) (l1 : Lexer) : Prop :=
  scanned l l1 ∧ (kind t ≠ EOF → pos l1 < source_len l1).

Definition lex_failed (l : Lexer) (e : Error) (l1 : Lexer) : Prop :=
  scanned l l1 ∧ error_class e = LexError.

(** [ts] are the tokens successive [get_token] calls return from [l],
    leaving the lexer in [l']. *)
Definition lexes (l : Lexer) (ts : list Token) (l' : Lexer) : Prop :=
  ∃ fuel, get_tokens fuel (length ts) l = Ok ts l'.

Definition declares (t : Token) : Prop := kind t = LET ∨ kind t = INPUT.

Global Instance declares_dec t : Decision (declares t).
Proof. unfold declares. apply _. Defined.

(** The texts of the tokens that follow a LET or INPUT keyword. *)
Fixpoint let_input_targets (ts : list Token) : list string :=
  match ts with
  | [] => []
  | t :: rest =>
      match rest with
      | t' :: _ =>
          if bool_decide (declares t) then text t' :: let_input_targets rest
          else let_input_targets rest
      | [] => []
      end
  end.

(** [xs] without the repetitions of names seen before. *)
Fixpoint unseen (seen : gset string) (xs : list string) : list string :=
  match xs with
  | [] => []
  | x :: xs' =>
      if bool_decide (x ∈ seen) then unseen seen xs'
      else x :: unseen ({[x]} ∪ seen) xs'
  end.

Definition first_occurrences (xs : list string) : list string := unseen ∅ xs.

Definition declaration_line (name : string) : string :=
  ("float " +:+ name +:+ ";") +:+ str1 LF.

Definition declaration_lines (names : list string) : string :=
  foldr (λ name acc, declaration_line name +:+ acc) EmptyString names.

Definition prologue : string :=
  ("#include <stdio.h>" +:+ str1 LF) +:+ ("int main(void){" +:+ str1 LF).

(** The last token of [cs], if any, is not a LET or INPUT keyword. *)
Definition settled (cs : list Token) : Prop :=
  ∀ t, last cs = Some t → ¬ declares t.

(** The distance of the lexer from the point past which the parser never
    reads. *)
Definition measure (p : Parser) : nat :=
  Z.to_nat (source_len (lex p) + 2 - pos (lex p)).

(** The lexer is at most one token past [peek_token], and two past
    [current_token]. *)
Record cursor_ok (p : Parser) : Prop := {
  co_wf : WF (lex p);
  co_peek : kind (peek_token p) ≠ EOF → pos (lex p) ≤ source_len (lex p);
  co_current :
    kind (current_token p) ≠ EOF → pos (lex p) ≤ source_len (lex p) + 1
}.

(** The error of the label loop is raised nowhere else. *)
Definition no_label_error (e : Error) (p : Parser) : Prop :=
  ∀ l, e ≠ SemUndeclaredLabel l.

(** [p'] is [p] after [next_token]. *)
Definition shifted (fuel : nat) (p p' : Parser) : Prop :=
  ∃ t l', get_token fuel (lex p) = Ok t l'
          ∧ p' = mkParser l' (emitter p) (peek_token p) t (symbols p)
                          (labels_declared p) (labels_gotoed p).

(** Two parser states with the same tokens, lexer, symbols and header. *)
Definition same_view (p p' : Parser) : Prop :=
  lex p' = lex p ∧ current_token p' = current_token p
  ∧ peek_token p' = peek_token p ∧ symbols p' = symbols p
  ∧ header (emitter p') = header (emitter p).

(** [cs] are the tokens consumed so far: with the two lookahead tokens
    they are what the lexer has returned since [L0]. *)
Definition window (L0 : Lexer) (cs : list Token) (p : Parser) : Prop :=
  lexes L0 (cs ++ [current_token p; peek_token p]) (lex p)
  ∧ Forall (λ t, kind t ≠ EOF) cs.

(** The symbol table and the header hold the targets among [cs]. *)
Definition declared (cs : list Token) (p : Parser) : Prop :=
  symbols p = list_to_set (let_input_targets cs)
  ∧ header (emitter p)
    = prologue
      +:+ declaration_lines (first_occurrences (let_input_targets cs)).

(** Between statements, and wherever the last consumed token is not a
    LET or INPUT keyword. *)
Definition Good (L0 : Lexer) (p : Parser) : Prop :=
  cursor_ok p ∧ ∃ cs, window L0 cs p ∧ settled cs ∧ declared cs p.

(** After the LET or INPUT keyword, before its target is declared. *)
Definition AtTarget (L0 : Lexer) (p : Parser) : Prop :=
  cursor_ok p
  ∧ ∃ cs kw, window L0 (cs ++ [kw]) p ∧ declares kw ∧ settled cs
             ∧ declared cs p.

(** After the target is declared, before it is consumed. *)
Definition Declared (L0 : Lexer) (p : Parser) : Prop :=
  cursor_ok p
  ∧ ∃ cs kw, window L0 (cs ++ [kw]) p ∧ declares kw ∧ settled cs
             ∧ declared (cs ++ [kw; current_token p]) p.

(** The rule run from [p] returned in [p']: the invariant holds again
    and the lexer has moved on. *)
Definition advanced (L0 : Lexer) (p : Parser) : () → Parser → Prop :=
  λ _ p', Good L0 p' ∧ (measure p' < measure p)%nat.

(** The token consumed last is a newline. *)
Definition after_newline (L0 : Lexer) (p : Parser) : Prop :=
  ∃ cs t, window L0 (cs ++ [t]) p ∧ kind t = NEWLINE.

(** A statement run from [p] returned in [p']. *)
Definition finished (L0 : Lexer) (p : Parser) : () → Parser → Prop :=
  λ u p', advanced L0 p u p' ∧ after_newline L0 p'.

(** Fuel that suffices for every loop of a compilation of [input]. *)
Definition enough_fuel (input : string) : nat := S (S (String.length input)).

(** [main] up to the point where [program] enters its label loop. *)
Definition parse_phase (fuel : nat) (input : string) : Result Parser :=
  match Parser_init fuel (Emitter_init "out.c") (Lexer_init input) with
  | Ok parser _ =>
      match program_parse fuel parser with
      | Ok _ parser' => Success parser'
      | Abort e _ => Failure e
      | OutOfFuel => Timeout
      end
  | Abort e _ => Failure e
  | OutOfFuel => Timeout
  end.

(** The tokens of [input] before its end-of-input token. *)
Definition program_tokens (input : string) (toks : list Token) : Prop :=
  ∃ eof l, lexes (Lexer_init input) (toks ++ [eof]) l
           ∧ kind eof = EOF ∧ Forall (λ t, kind t ≠ EOF) toks.

(** What a run returned, if it returned. *)
Definition returned {S A} (o : Outcome S A) : option A :=
  match o with Ok a _ => Some a | _ => None end.

(** The state a run aborted in, and with what. *)
Definition aborted {S A} (o : Outcome S A) : option (Error * S) :=
  match o with Abort e s => Some (e, s) | _ => None end.

(** ** Vocabulary of the further properties *)

(** [wp m Q E s]: if [m] run from [s] returns, it does so in a state
    satisfying [Q]; if it aborts, it does so in a state satisfying [E]. *)
Definition wp {S A} (m : M S A) (Q : A → S → Prop) (E : Error → S → Prop)
    (s : S) : Prop :=
  match m s with
  | Ok a s' => Q a s'
  | Abort e s' => E e s'
  | OutOfFuel => True
  end.

(** The keywords of the language. *)
Definition keyword_kinds : list TokenType :=
  [LABEL; GOTO; PRINT; INPUT; LET; IF; THEN; ENDIF; WHILE; REPEAT; ENDWHILE].

(** The characters [skip_whitespace] passes over. *)
Definition blank (c : ascii) : bool := bool_decide (c ∈ [SPACE; TAB; CR]).

(** The characters that end a string scan. *)
Definition string_stop : list ascii := [QUOTE; CR; TAB; LF; PERCENT].

(** The text of a token of kind [k] that occupies the offsets [a] to
    [b - 1] of [src]. *)
Definition lexeme (src : string) (k : TokenType) (a b : Z) : string :=
  match k with
  | STRING => slice src (a + 1) (b - 1)
  | EQEQ => slice src a (b - 1)
  | EOF => str1 NUL
  | _ => slice src a b
  end.

(** The text of the tokens whose kind fixes it. *)
Definition spelling (k : TokenType) : option string :=
  match k with
  | EOF => Some (str1 NUL)
  | NEWLINE => Some (str1 LF)
  | NUMBER | IDENT | STRING => None
  | EQ => Some "="
  | PLUS => Some "+"
  | MINUS => Some "-"
  | ASTERISK => Some "*"
  | SLASH => Some "/"
  | EQEQ => Some "="
  | NOTEQ => Some "!="
  | LT => Some "<"
  | LTEQ => Some "<="
  | GT => Some ">"
  | GTEQ => Some ">="
  | k => Some (TokenType.name k)
  end.

(** The number of characters a token of kind [k] takes from the source,
    where the kind fixes it. *)
Definition width (k : TokenType) : option Z :=
  match k with
  | EOF | NEWLINE | EQ | PLUS | MINUS | ASTERISK | SLASH | LT | GT => Some 1
  | EQEQ | NOTEQ | LTEQ | GTEQ => Some 2
  | _ => None
  end.

(** Decimal digits fill the offsets [a] to [b - 1]. *)
Definition digits (l : Lexer) (a b : Z) : Prop :=
  ∀ i, a ≤ i < b → isdigit (char_at l i) = true.

(** A letter at [a], letters and digits up to [b - 1], neither at [b]. *)
Definition word (l : Lexer) (a b : Z) : Prop :=
  isalpha (char_at l a) = true
  ∧ (∀ i, a < i < b → isalnum (char_at l i) = true)
  ∧ isalnum (char_at l b) = false.

(** Digits, then possibly a dot and more digits, no digit at [b]. *)
Definition numeral (l : Lexer) (a b : Z) : Prop :=
  ∃ m, a < m ≤ b ∧ digits l a m
       ∧ (m = b ∨ (char_at l m = DOT ∧ m + 1 < b ∧ digits l (m + 1) b))
       ∧ isdigit (char_at l b) = false.

(** A quote at [a], the next quote at [b - 1], and between them no
    character that stops a string scan. *)
Definition quoted (l : Lexer) (a b : Z) : Prop :=
  char_at l a = QUOTE ∧ a + 1 < b ∧ char_at l (b - 1) = QUOTE
  ∧ ∀ i, a < i < b - 1 → char_at l i ∉ string_stop.

(** [get_token] called at offset [pos l] finds its token at offset [a]:
    it passes over blanks, and over a comment up to the newline that
    ends it. *)
Definition skipped (l : Lexer) (a : Z) : Prop :=
  ∃ a0, pos l ≤ a0 ≤ a
        ∧ (∀ i, pos l ≤ i < a0 → blank (char_at l i) = true)
        ∧ blank (char_at l a0) = false
        ∧ (if bool_decide (char_at l a0 = HASH)
           then char_at l a = LF ∧ ∀ i, a0 ≤ i < a → char_at l i ≠ LF
           else a = a0).

(** The shape of the source text under a token at the offsets [a] to
    [b - 1]. *)
Definition token_shape (l : Lexer) (a b : Z) (t : Token) : Prop :=
  match kind t with
  | NUMBER => numeral l a b
  | STRING => quoted l a b
  | IDENT => word l a b ∧ is_keyword (text t) = None
  | k =>
      if bool_decide (k ∈ keyword_kinds)
      then word l a b ∧ is_keyword (text t) = Some k
      else width k = Some (b - a)
  end.

(** The characters a token of kind [k] can start with. *)
Definition starts (k : TokenType) (c : ascii) : Prop :=
  match k with
  | EOF => c = NUL
  | NEWLINE => c = LF
  | NUMBER => isdigit c = true
  | STRING => c = QUOTE
  | EQ | EQEQ => c = EQUALS
  | PLUS => c = PLUS_SIGN
  | MINUS => c = MINUS_SIGN
  | ASTERISK => c = STAR
  | SLASH => c = SLASH_SIGN
  | NOTEQ => c = BANG
  | LT | LTEQ => c = LESS
  | GT | GTEQ => c = GREATER
  | _ => isalpha c = true
  end.

(** The characters no token starts with. *)
Definition unknown (c : ascii) : Prop :=
  (c ∉ [PLUS_SIGN; MINUS_SIGN; STAR; SLASH_SIGN; EQUALS; GREATER; LESS;
        BANG; QUOTE; LF; NUL; SPACE; TAB; CR; HASH])
  ∧ isdigit c = false ∧ isalpha c = false.

(** [get_token] called in [l] returned [t] and left the lexer in [l']. *)
Definition token_ok (l : Lexer) (t : Token) (l' : Lexer) : Prop :=
  WF l' ∧ source l' = source l ∧ source_len l' = source_len l
  ∧ ∃ a, skipped l a ∧ a < pos l'
         ∧ starts (kind t) (char_at l a)
         ∧ text t = lexeme (source l) (kind t) a (pos l')
         ∧ (∀ s, spelling (kind t) = Some s → text t = s)
         ∧ token_shape l a (pos l') t.

(** [get_token] has chosen [t] for the text at offset [a] and is about
    to make its last advance from [l3]. *)
Definition token_found (l : Lexer) (a : Z) (t : Token) (l3 : Lexer) : Prop :=
  WF l3 ∧ source l3 = source l ∧ source_len l3 = source_len l
  ∧ a ≤ pos l3
  ∧ starts (kind t) (char_at l a)
  ∧ text t = lexeme (source l) (kind t) a (pos l3 + 1)
  ∧ (∀ s, spelling (kind t) = Some s → text t = s)
  ∧ token_shape l a (pos l3 + 1) t.

(** [get_token] aborts in [l3] on the text at offset [a]. *)
Definition token_refused (l : Lexer) (a : Z) (e : Error) (l3 : Lexer) : Prop :=
  WF l3 ∧ source l3 = source l ∧ source_len l3 = source_len l
  ∧ a ≤ pos l3
  ∧ match e with
    | LexUnknownToken c => pos l3 = a ∧ char l3 = c ∧ unknown c
    | LexExpectedNotEq c =>
        pos l3 = a ∧ char l3 = BANG ∧ peek l3 = c ∧ c ≠ EQUALS
    | LexIllegalNumber n =>
        n = pos l3 ∧ a < n ∧ digits l a n ∧ char l3 = DOT
        ∧ isdigit (peek l3) = false
    | LexIllegalString =>
        char_at l a = QUOTE ∧ a < pos l3
        ∧ char l3 ∈ [CR; TAB; LF; PERCENT]
        ∧ ∀ i, a < i < pos l3 → char_at l i ∉ string_stop
    | _ => False
    end.

(** [get_token] called in [l] aborted with [e] in [l']. *)
Definition error_ok (l : Lexer) (e : Error) (l' : Lexer) : Prop :=
  ∃ a, skipped l a ∧ token_refused l a e l'.


(** No condition on the state a run aborts in. *)
Definition any_error {S} : Error → S → Prop := λ _ _, True.

(** [p'] is reached from [p] by consuming the tokens [ts]: the two
    lookahead tokens of [p] and what the lexer returns from there on are
    [ts] and the two lookahead tokens of [p']. *)
Definition consumed (p : Parser) (ts : list Token) (p' : Parser) : Prop :=
  ∃ more, lexes (lex p) more (lex p')
          ∧ [current_token p; peek_token p] ++ more
            = ts ++ [current_token p'; peek_token p'].

(** Nothing but the lexer and the two lookahead tokens differs. *)
Definition same_tables (p p' : Parser) : Prop :=
  emitter p' = emitter p ∧ symbols p' = symbols p
  ∧ labels_declared p' = labels_declared p
  ∧ labels_gotoed p' = labels_gotoed p.

(** The texts of [ts], one after the other. *)
Definition texts (ts : list Token) : string :=
  foldr (λ t acc, text t +:+ acc) EmptyString ts.

(** [code] with the newline [emit_line] adds. *)
Definition line (code : string) : string := code +:+ str1 LF.

(** One or more newline tokens. *)
Definition newlines (ts : list Token) : Prop :=
  ts ≠ [] ∧ Forall (λ t, kind t = NEWLINE) ts.

(** The kinds [is_comparison_op] tests for. *)
Definition comparison_kinds : list TokenType :=
  [GT; LT; GTEQ; LTEQ; EQEQ; NOTEQ].

(** The token sequences the expression rules accept. *)
Inductive primary_of : list Token → Prop :=
  | primary_number t : kind t = NUMBER → primary_of [t]
  | primary_ident t : kind t = IDENT → primary_of [t].

Inductive unary_of : list Token → Prop :=
  | unary_plain ts : primary_of ts → unary_of ts
  | unary_signed op ts :
      kind op ∈ [PLUS; MINUS] → primary_of ts → unary_of (op :: ts).

Inductive term_of : list Token → Prop :=
  | term_first ts : unary_of ts → term_of ts
  | term_more ts op us :
      term_of ts → kind op ∈ [ASTERISK; SLASH] → unary_of us →
      term_of (ts ++ op :: us).

Inductive expression_of : list Token → Prop :=
  | expression_first ts : term_of ts → expression_of ts
  | expression_more ts op us :
      expression_of ts → kind op ∈ [PLUS; MINUS] → term_of us →
      expression_of (ts ++ op :: us).

Inductive comparison_of : list Token → Prop :=
  | comparison_first ts op us :
      expression_of ts → kind op ∈ comparison_kinds → expression_of us →
      comparison_of (ts ++ op :: us)
  | comparison_more ts op us :
      comparison_of ts → kind op ∈ comparison_kinds → expression_of us →
      comparison_of (ts ++ op :: us).

(** An expression rule run from [p] ended in [p']: the texts of the
    tokens [ts] went to the code, every identifier among them was in the
    symbol table, and nothing else changed. *)
Definition emitted_verbatim (p : Parser) (ts : list Token) (p' : Parser)
  : Prop :=
  code (emitter p') = code (emitter p) +:+ texts ts
  ∧ header (emitter p') = header (emitter p)
  ∧ outfile (emitter p') = outfile (emitter p)
  ∧ symbols p' = symbols p
  ∧ labels_declared p' = labels_declared p
  ∧ labels_gotoed p' = labels_gotoed p
  ∧ ∀ t, t ∈ ts → kind t = IDENT → text t ∈ symbols p.

(** The rule consumed a token sequence of the grammar [G] and copied it
    to the code. *)
Definition copied (G : list Token → Prop) (p p' : Parser) : Prop :=
  ∃ ts, consumed p ts p' ∧ G ts ∧ emitted_verbatim p ts p'.

(** The statements the parser accepts: their tokens, the code emitted
    for them, the labels they declare and the labels they jump to. *)
Inductive statement_of
  : list Token → string → list string → list string → Prop :=
  | print_string kw s nls :
      kind kw = PRINT → kind s = STRING → newlines nls →
      statement_of (kw :: s :: nls)
        (line ("printf(" +:+ q +:+ text s +:+ "\n" +:+ q +:+ ");")) [] []
  | print_expression kw es nls :
      kind kw = PRINT → expression_of es → newlines nls →
      statement_of (kw :: es ++ nls)
        (("printf(" +:+ q +:+ "%.2f\n" +:+ q +:+ ", (float)(")
         +:+ texts es +:+ line "));") [] []
  | if_block kw cs th nls1 body c ls gs en nls2 :
      kind kw = IF → comparison_of cs → kind th = THEN → newlines nls1 →
      block_of body c ls gs → kind en = ENDIF → newlines nls2 →
      statement_of (kw :: cs ++ th :: nls1 ++ body ++ en :: nls2)
        ("if(" +:+ texts cs +:+ line "){" +:+ c +:+ line "}") ls gs
  | while_block kw cs rp nls1 body c ls gs en nls2 :
      kind kw = WHILE → comparison_of cs → kind rp = REPEAT →
      newlines nls1 → block_of body c ls gs → kind en = ENDWHILE →
      newlines nls2 →
      statement_of (kw :: cs ++ rp :: nls1 ++ body ++ en :: nls2)
        ("while(" +:+ texts cs +:+ line "){" +:+ c +:+ line "}") ls gs
  | label_statement kw x nls :
      kind kw = LABEL → kind x = IDENT → newlines nls →
      statement_of (kw :: x :: nls) (line (text x +:+ ":")) [text x] []
  | goto_statement kw x nls :
      kind kw = GOTO → kind x = IDENT → newlines nls →
      statement_of (kw :: x :: nls)
        (line ("goto " +:+ text x +:+ ";")) [] [text x]
  | let_statement kw x eq es nls :
      kind kw = LET → kind x = IDENT → kind eq = EQ → expression_of es →
      newlines nls →
      statement_of (kw :: x :: eq :: es ++ nls)
        ((text x +:+ " = ") +:+ texts es +:+ line ";") [] []
  | input_statement kw x nls :
      kind kw = INPUT → kind x = IDENT → newlines nls →
      statement_of (kw :: x :: nls)
        (line ("if(0 == scanf(" +:+ q +:+ "%f" +:+ q +:+ ", &"
               +:+ text x +:+ ")) {")
         +:+ line (text x +:+ " = 0;")
         +:+ ("scanf(" +:+ q +:+ "%") +:+ line ("*s" +:+ q +:+ ");")
         +:+ line "}") [] []
with block_of : list Token → string → list string → list string → Prop :=
  | block_nil : block_of [] EmptyString [] []
  | block_snoc ts c ls gs ts' c' ls' gs' :
      block_of ts c ls gs → statement_of ts' c' ls' gs' →
      block_of (ts ++ ts') (c +:+ c') (ls ++ ls') (gs ++ gs').

(** What a run from [p] to [p'] did beside consuming tokens: it
    appended [c] to the code, the header and the symbol table only grew,
    the labels [ls] were new and were declared, the labels [gs] were
    recorded as jumped to. *)
Definition effects (p p' : Parser) (c : string) (ls gs : list string)
  : Prop :=
  code (emitter p') = code (emitter p) +:+ c
  ∧ (∃ h, header (emitter p') = header (emitter p) +:+ h)
  ∧ outfile (emitter p') = outfile (emitter p)
  ∧ symbols p ⊆ symbols p'
  ∧ labels_declared p' = labels_declared p ∪ list_to_set ls
  ∧ labels_gotoed p' = labels_gotoed p ∪ list_to_set gs
  ∧ NoDup ls ∧ (∀ x, x ∈ ls → x ∉ labels_declared p).

Definition reached (p : Parser) (ts : list Token) (c : string)
    (ls gs : list string) (p' : Parser) : Prop :=
  consumed p ts p' ∧ effects p p' c ls gs.

(** A rule run from [p] ended in [p'] after a token sequence of the
    grammar [G], with the effects the grammar gives for it. *)
Definition parsed
    (G : list Token → string → list string → list string → Prop)
    (p p' : Parser) : Prop :=
  ∃ ts c ls gs, G ts c ls gs ∧ reached p ts c ls gs p'.

(** The token sequences of a whole program: newlines, then
    statements. *)
Definition program_of (ts : list Token) (c : string) (ls gs : list string)
  : Prop :=
  ∃ nls body, ts = nls ++ body ∧ Forall (λ t, kind t = NEWLINE) nls
              ∧ block_of body c ls gs.

(** The kinds a statement starts with. *)
Definition statement_kinds : list TokenType :=
  [PRINT; IF; WHILE; LABEL; GOTO; LET; INPUT].

(** The branches of [statement], up to the newline that ends them. *)
Definition branch_done (p : Parser) : () → Parser → Prop :=
  λ _ s, ∃ ts c ls gs,
    reached p ts c ls gs s
    ∧ ∀ nls, newlines nls → statement_of (ts ++ nls) c ls gs.

(** * Reasoning about monadic code *)

Example lex_main_sample :
  kinds_of (get_tokens 100 17 (Lexer_init
     ("+- */ != == > # this is a comment" +:+ str1 LF +:+
      " <= >= > " +:+ str1 QUOTE +:+ "foobar" +:+ str1 QUOTE +:+
      " 32313 3.13 foobar LET PRINT")))
  = [PLUS; MINUS; ASTERISK; SLASH; NOTEQ; EQEQ; GT; NEWLINE; LTEQ; GTEQ; GT;
     STRING; NUMBER; NUMBER; IDENT; LET; PRINT].
Proof. vm_compute. reflexivity. Qed.

Example compile_let_print :
  main elements 100 ("LET a = 3" +:+ str1 LF +:+ "PRINT a")
  = Success (lines
      ["#include <stdio.h>"; "int main(void){"; "float a;"; "a = 3;";
       "printf(" +:+ q +:+ "%.2f\n" +:+ q +:+ ", (float)(a));";
       "return 0;"; "}"]).
Proof. vm_compute. reflexivity. Qed.

(** ** Total weakest preconditions *)

Section twp_rules.
Context {S : Type}.
Implicit Types (s : S) (E : Error → S → Prop).

Lemma twp_ret {A} (a : A) (Q : A → S → Prop) E s :
  Q a s → twp (mret a) Q E s.
Proof. done. Qed.

Lemma twp_bind {A B} (m : M S A) (f : A → M S B) (Q : B → S → Prop) E s :
  twp m (λ a s', twp (f a) Q E s') E s → twp (m ≫= f) Q E s.
Proof. unfold twp, mbind, M_bind. by destruct (m s). Qed.

Lemma twp_conseq {A} (m : M S A) (Q Q' : A → S → Prop) E E' s :
  twp m Q E s →
  (∀ a s', Q a s' → Q' a s') → (∀ e s', E e s' → E' e s') →
  twp m Q' E' s.
Proof. unfold twp. destruct (m s); auto. Qed.

Lemma twp_get (Q : S → S → Prop) E s : Q s s → twp get Q E s.
Proof. done. Qed.

Lemma twp_gets {A} (f : S → A) (Q : A → S → Prop) E s :
  Q (f s) s → twp (gets f) Q E s.
Proof. done. Qed.

Lemma twp_modify (f : S → S) (Q : () → S → Prop) E s :
  Q () (f s) → twp (modify f) Q E s.
Proof. done. Qed.

Lemma twp_abort {A} e (Q : A → S → Prop) E s : E e s → twp (abort e) Q E s.
Proof. done. Qed.

Lemma twp_when (b : bool) (m : M S ()) (Q : () → S → Prop) E s :
  (b = true → twp m Q E s) → (b = false → Q () s) → twp (when b m) Q E s.
Proof. intros H1 H2. destruct b; [by apply H1 | by apply H2]. Qed.

(** A loop whose body keeps [I] and lowers the measure [μ] ends within
    [μ s] iterations. *)
Lemma twp_while (I : S → Prop) (μ : S → nat) fuel cond body E s :
  I s → (μ s < fuel)%nat →
  (∀ s0, I s0 → cond s0 = true →
         twp body (λ _ s', I s' ∧ (μ s' < μ s0)%nat) E s0) →
  twp (while fuel cond body) (λ _ s', I s' ∧ cond s' = false) E s.
Proof.
  intros HI Hfuel Hbody. revert s HI Hfuel.
  induction fuel as [|fuel IH]; intros s HI Hfuel; [lia|].
  unfold twp. simpl. destruct (cond s) eqn:Hc; [|done].
  specialize (Hbody s HI Hc). unfold twp in Hbody.
  destruct (body s) as [[] s'| |]; [|done..].
  destruct Hbody as [HI' Hlt]. apply IH; [done|lia].
Qed.
End twp_rules.

Lemma twp_on_lex {A} (m : M Lexer A) (Q : A → Parser → Prop) E p :
  twp m (λ a l, Q a (set_lex l p)) (λ e l, E e (set_lex l p)) (lex p) →
  twp (on_lex m) Q E p.
Proof. unfold twp, on_lex. by destruct (m (lex p)). Qed.

(** ** Fuel monotonicity *)

Section refines_rules.
Context {S : Type}.

Lemma refines_refl {A} (m : M S A) : refines m m.
Proof. by intros s _. Qed.

Lemma refines_bind {A B} (m1 m2 : M S A) (f1 f2 : A → M S B) :
  refines m1 m2 → (∀ a, refines (f1 a) (f2 a)) →
  refines (m1 ≫= f1) (m2 ≫= f2).
Proof.
  intros Hm Hf s. unfold mbind, M_bind. specialize (Hm s).
  destruct (m1 s) as [a s'| |]; [| |done].
  - intros H. rewrite Hm by done. by apply Hf.
  - intros _. by rewrite Hm.
Qed.

Lemma refines_when (b : bool) (m1 m2 : M S ()) :
  refines m1 m2 → refines (when b m1) (when b m2).
Proof. destruct b; [done|]. intros _. apply refines_refl. Qed.

Lemma refines_if {A} (b : bool) (m1 m2 n1 n2 : M S A) :
  refines m1 m2 → refines n1 n2 →
  refines (if b then m1 else n1) (if b then m2 else n2).
Proof. by destruct b. Qed.

Lemma refines_while fuel1 fuel2 cond (b1 b2 : M S ()) :
  (fuel1 ≤ fuel2)%nat → refines b1 b2 →
  refines (while fuel1 cond b1) (while fuel2 cond b2).
Proof.
  intros Hle Hb. revert fuel2 Hle.
  induction fuel1 as [|fuel1 IH]; intros fuel2 Hle s; simpl.
  - destruct fuel2; simpl; by destruct (cond s).
  - destruct fuel2 as [|fuel2]; [lia|]. simpl.
    destruct (cond s); [|done].
    specialize (Hb s). destruct (b1 s) as [[] s'| |]; [| |done].
    + intros H. rewrite Hb by done. apply IH; [lia|done].
    + intros _. by rewrite Hb.
Qed.
End refines_rules.

Lemma refines_on_lex {A} (m1 m2 : M Lexer A) :
  refines m1 m2 → refines (on_lex m1) (on_lex m2).
Proof.
  intros Hm p. unfold on_lex. specialize (Hm (lex p)).
  destruct (m1 (lex p)); intros H; by rewrite ?Hm.
Qed.

Create HintDb refines discriminated.
#[export] Hint Resolve refines_refl refines_bind refines_when refines_if
  refines_while refines_on_lex : refines.

Ltac refines_with tac :=
  repeat first
    [ tac
    | apply refines_refl
    | apply refines_bind; [|intros ?]
    | apply refines_when
    | apply refines_if
    | apply refines_while; [lia|]
    | apply refines_on_lex
    | match goal with
      | |- refines (match ?x with _ => _ end) _ => destruct x
      end ].

Ltac refines_solve := refines_with fail.

Lemma get_token_refines fuel1 fuel2 :
  (fuel1 ≤ fuel2)%nat → refines (get_token fuel1) (get_token fuel2).
Proof.
  intros Hle. unfold get_token, skip_whitespace, skip_comment,
    two_char_operator.
  refines_solve.
Qed.

Lemma twp_while_then {S} (I : S → Prop) (μ : S → nat) fuel cond body
    (Q : () → S → Prop) E s :
  I s → (μ s < fuel)%nat →
  (∀ s0, I s0 → cond s0 = true →
         twp body (λ _ s', I s' ∧ (μ s' < μ s0)%nat) E s0) →
  (∀ s', I s' → cond s' = false → Q () s') →
  twp (while fuel cond body) Q E s.
Proof.
  intros HI Hfuel Hbody HQ.
  eapply twp_conseq; [by apply (twp_while I μ)| |done].
  intros [] s' [??]. by apply HQ.
Qed.

Ltac twp_step :=
  lazymatch goal with
  | |- twp (mbind _ _) _ _ _ => apply twp_bind
  | |- twp (mret _) _ _ _ => apply twp_ret
  | |- twp get _ _ _ => apply twp_get
  | |- twp (gets _) _ _ _ => apply twp_gets
  | |- twp (modify _) _ _ _ => apply twp_modify
  | |- twp next_char _ _ _ => apply twp_modify
  | |- twp (abort _) _ _ _ => apply twp_abort
  | |- twp (when _ _) _ _ _ => apply twp_when; intros ?
  | |- twp (on_lex _) _ _ _ => apply twp_on_lex
  | |- twp (if ?b then _ else _) _ _ _ => destruct b eqn:?
  end; cbv beta.

(** * The lexer's cursor *)

Lemma get_append_LF (s : string) :
  String.get (String.length s) (s +:+ str1 LF) = Some LF.
Proof. induction s as [|c s IH]; [done|]. simpl. done. Qed.

Lemma length_append_LF (s : string) :
  String.length (s +:+ str1 LF) = S (String.length s).
Proof. induction s as [|c s IH]; [done|]. simpl. by rewrite IH. Qed.

Lemma Lexer_init_WF input : WF (Lexer_init input).
Proof.
  unfold Lexer_init, next_char_state. simpl.
  split; simpl; unfold len, char_at; simpl; rewrite ?length_append_LF;
    try done; try lia.
  unfold index.
  replace (Z.to_nat (Z.of_nat (S (String.length input)) - 1))
    with (String.length input) by lia.
  by rewrite get_append_LF.
Qed.

Lemma Lexer_init_InRange input : InRange (Lexer_init input).
Proof.
  unfold InRange, Lexer_init, next_char_state, len. simpl.
  rewrite length_append_LF. split; [lia|].
  repeat constructor; lia.
Qed.

Lemma next_char_WF l : WF l → WF (next_char_state l).
Proof.
  intros [Hlen Hpos Hchar Hlast Hne].
  split; simpl; [done|lia|done|done|done].
Qed.

Lemma next_char_InRange l :
  WF l → pos l < source_len l → InRange l → InRange (next_char_state l).
Proof.
  intros Hwf Hlt [Hle Hh]. pose proof (wf_pos _ Hwf).
  split; simpl; [lia|]. constructor; [lia|done].
Qed.

Lemma WF_char_not_NUL l : WF l → char l ≠ NUL → pos l < source_len l.
Proof.
  intros Hwf Hc. rewrite (wf_char _ Hwf) in Hc. unfold char_at in Hc.
  case_bool_decide; [done|lia].
Qed.

Lemma WF_peek_not_NUL l : WF l → peek l ≠ NUL → pos l + 1 < source_len l.
Proof. intros Hwf Hc. unfold peek in Hc. case_bool_decide; [done|lia]. Qed.

(** Before the final newline there is always a character that is not NUL
    ahead. *)
Lemma WF_char_not_LF l :
  WF l → pos l < source_len l → char l ≠ LF → pos l + 1 < source_len l.
Proof.
  intros Hwf Hlt Hc. rewrite (wf_char _ Hwf) in Hc. unfold char_at in Hc.
  case_bool_decide; [lia|].
  destruct (decide (pos l = source_len l - 1)) as [Heq|]; [|lia].
  rewrite Heq in Hc. by rewrite (wf_last _ Hwf) in Hc.
Qed.

Lemma scanned_refl l : WF l → scanned l l.
Proof.
  intros Hwf. unfold scanned. split_and!; [done|done|done|lia|done|done].
Qed.

Lemma scanned_next l l1 :
  scanned l l1 → pos l1 < source_len l1 → scanned l (next_char_state l1).
Proof.
  intros (Hwf & Hs & Hl & Hp & Hle & Hr) Hlt.
  split_and!; simpl; [by apply next_char_WF|done|done|lia|lia|].
  intros H. apply next_char_InRange; auto.
Qed.

Lemma is_keyword_not_EOF txt k : is_keyword txt = Some k → k ≠ EOF.
Proof.
  unfold is_keyword. intros H%find_some. destruct H as [_ H].
  intros ->. rewrite !andb_true_iff in H. by destruct H as [[_ H] _].
Qed.

Lemma remaining_next l :
  pos l < source_len l → (remaining (next_char_state l) < remaining l)%nat.
Proof. unfold remaining. simpl. lia. Qed.

Lemma scanned_remaining l l1 :
  scanned l l1 → (remaining l1 ≤ remaining l)%nat.
Proof. intros (_ & _ & Hl & Hp & _). unfold remaining. lia. Qed.

Lemma scanned_trans l l1 l2 : scanned l l1 → scanned l1 l2 → scanned l l2.
Proof.
  intros (?&?&?&?&?&?) (?&?&?&?&?&?). unfold scanned.
  split_and!; [done|congruence|congruence|lia|auto|auto].
Qed.

(** A loop that only advances the cursor, always from a position before
    the end of the source. *)
Lemma twp_scan_loop (J : Lexer → Prop) fuel cond l0 l
    (Q : () → Lexer → Prop) E :
  scanned l0 l → J l → (remaining l < fuel)%nat →
  (∀ s, scanned l0 s → J s → cond s = true →
        pos s < source_len s ∧ J (next_char_state s)) →
  (∀ s, scanned l0 s → J s → cond s = false → Q () s) →
  twp (while fuel cond next_char) Q E l.
Proof.
  intros Hs HJ Hfuel Hstep HQ.
  apply (twp_while_then (λ s, scanned l0 s ∧ J s) remaining);
    [done|done| |].
  - intros s [Hs0 HJ0] Hc. apply twp_modify.
    destruct (Hstep s Hs0 HJ0 Hc) as [Hlt HJ'].
    split_and!; [by apply scanned_next|done|by apply remaining_next].
  - intros s [??] ?. by apply HQ.
Qed.

Lemma isdigit_NUL c : isdigit c = true → c ≠ NUL.
Proof. by intros H ->. Qed.
Lemma isalpha_NUL c : isalpha c = true → c ≠ NUL.
Proof. by intros H ->. Qed.
Lemma isalnum_NUL c : isalnum c = true → c ≠ NUL.
Proof. by intros H ->. Qed.

Lemma two_char_operator_twp l0 l k :
  scanned l0 l → peek l ≠ NUL →
  twp (two_char_operator k) (selected l0) (lex_failed l0) l.
Proof.
  intros Hs Hp. unfold two_char_operator, next_char.
  repeat twp_step. pose proof Hs as (Hwf & _).
  pose proof (WF_peek_not_NUL _ Hwf Hp).
  split; [apply scanned_next; [done|lia]|]. simpl. intros _. lia.
Qed.

Lemma skip_whitespace_twp fuel l0 l :
  scanned l0 l → (remaining l < fuel)%nat →
  twp (skip_whitespace fuel) (λ _, scanned l0) (lex_failed l0) l.
Proof.
  intros Hs Hfuel. unfold skip_whitespace.
  apply (twp_scan_loop (λ _, True) _ _ l0); [done..| |done].
  intros s (Hwfs&_) _ Hc. split; [|done].
  apply WF_char_not_NUL; [done|]. intros Heq. rewrite Heq in Hc.
  by vm_compute in Hc.
Qed.

Lemma skip_comment_twp fuel l0 l :
  scanned l0 l → (remaining l < fuel)%nat →
  twp (skip_comment fuel) (λ _, scanned l0) (lex_failed l0) l.
Proof.
  intros Hs Hfuel. unfold skip_comment. repeat twp_step; [|done].
  apply (twp_scan_loop (λ s, pos s < source_len s) _ _ l0); [done| |done| |done].
  - apply WF_char_not_NUL; [apply Hs|].
    match goal with H : bool_decide _ = true |- _ =>
      apply bool_decide_eq_true in H; by rewrite H end.
  - intros s (Hwfs&_) Hlt Hc. split; [done|]. simpl.
    apply WF_char_not_LF; [done..|]. by apply bool_decide_eq_true in Hc.
Qed.

Lemma not_illegal_not_LF c :
  bool_decide (str1 c ∈ illegal_in_string) = false → c ≠ LF.
Proof. intros H ->. by vm_compute in H. Qed.

(** The loops over [peek]: the cursor stays before the end. *)
Lemma twp_peek_loop fuel (test : ascii → bool) l0 l
    (Q : () → Lexer → Prop) E :
  test NUL = false →
  scanned l0 l → pos l < source_len l → (remaining l < fuel)%nat →
  (∀ s, scanned l0 s → pos s < source_len s → test (peek s) = false →
        Q () s) →
  twp (while fuel (λ s, test (peek s)) next_char) Q E l.
Proof.
  intros Hnul Hs Hlt Hfuel HQ.
  apply (twp_scan_loop (λ s, pos s < source_len s) _ _ l0); [done..| |done].
  intros s (Hwfs&_) Hlts Hc. split; [done|]. simpl.
  apply WF_peek_not_NUL; [done|]. intros Heq. congruence.
Qed.

Ltac twp_use H :=
  eapply twp_conseq; [eapply H| |].

Lemma get_token_twp fuel l :
  WF l → (remaining l < fuel)%nat →
  twp (get_token fuel)
    (λ t l', ∃ l1, l' = next_char_state l1 ∧ selected l t l1)
    (lex_failed l) l.
Proof.
  intros Hwf Hfuel. unfold get_token.
  twp_step. twp_use skip_whitespace_twp; [by apply scanned_refl|done| |done].
  intros [] l1 Hs1. simpl.
  pose proof (scanned_remaining _ _ Hs1) as Hr1.
  twp_step. twp_use skip_comment_twp; [done|lia| |done].
  intros [] l2 Hs2. simpl.
  pose proof (scanned_remaining _ _ Hs2) as Hr2.
  twp_step. twp_step. twp_step.
  eapply (twp_conseq _ (selected l)); [| |done].
  2:{ intros t l3 Hsel. unfold next_char. repeat twp_step. eauto. }
  pose proof Hs2 as (Hwf2 & Hsrc2 & Hlen2 & Hpos2 & Hle2 & Hin2).
  assert (∀ c, char l2 = c → c ≠ NUL → pos l2 < source_len l2) as Hreal.
  { intros c <- ?. by apply WF_char_not_NUL. }
  repeat (twp_step; [case_bool_decide; [|done]; split; [done|intros _; by eapply Hreal]|]).
  assert (∀ c, peek l2 = c → c ≠ NUL → pos l2 + 1 < source_len l2) as Hpeek.
  { intros c <- ?. by apply WF_peek_not_NUL. }
  assert (∀ c, peek l2 = c → c ≠ NUL →
            selected l (mkToken (str1 (char l2)) EQEQ) (next_char_state l2))
    as Hnext.
  { intros c Hc Hn. pose proof (Hpeek c Hc Hn).
    split; [apply scanned_next; [done|lia]|simpl; lia]. }
  (* = and == *)
  twp_step.
  { case_bool_decide; [|done]. repeat twp_step.
    - unfold next_char. repeat twp_step. case_bool_decide; [|done].
      by eapply Hnext.
    - split; [done|intros _; by eapply Hreal]. }
  (* > >= < <= ! != *)
  do 3 (twp_step;
    [ case_bool_decide; [|done]; repeat twp_step;
      [ case_bool_decide; [|done];
        eapply two_char_operator_twp; [done|];
        match goal with H : peek _ = _ |- _ => by rewrite H end
      | first [ split; [done|intros _; by eapply Hreal]
              | by split ] ]
    | ]).
  (* string literal *)
  twp_step.
  { case_bool_decide as Hq; [|done]. repeat twp_step.
    assert (pos l2 + 1 < source_len l2) as Hlt.
    { apply WF_char_not_LF; [done|by apply (Hreal QUOTE)|by rewrite Hq]. }
    assert (scanned l (next_char_state l2)) as Hs3
      by (apply scanned_next; [done|lia]).
    apply (twp_while_then (λ s, scanned l s ∧ pos s < source_len s) remaining).
    - done.
    - pose proof (scanned_remaining _ _ Hs3). lia.
    - intros s [Hs Hlts] _. pose proof Hs as (Hwfs&_).
      repeat twp_step; [done|].
      assert (pos s + 1 < source_len s)
        by (apply WF_char_not_LF; [done..|by apply not_illegal_not_LF]).
      split_and!; [apply scanned_next; [done|lia]|simpl; lia|
                   apply remaining_next; lia].
    - intros s [Hs Hlts] _. repeat twp_step. by split. }
  (* number *)
  twp_step.
  { repeat twp_step.
    assert (pos l2 < source_len l2) as Hlt
      by (apply (Hreal (char l2)); [done|by apply isdigit_NUL]).
    apply (twp_peek_loop _ isdigit l); [done..|lia|].
    intros s Hs Hlts _.
    assert (bool_decide (peek s = DOT) = true →
            scanned l (next_char_state s)
            ∧ pos (next_char_state s) < source_len (next_char_state s))
      as Hdot.
    { intros Hd%bool_decide_eq_true.
      assert (pos s + 1 < source_len s)
        by (apply WF_peek_not_NUL; [apply Hs|by rewrite Hd]).
      split; [apply scanned_next; [done|lia]|simpl; lia]. }
    repeat twp_step.
    - split; [by apply Hdot|done].
    - destruct Hdot as [Hs' Hlt']; [done|].
      apply (twp_peek_loop _ isdigit l); [done..| |].
      + pose proof (scanned_remaining _ _ Hs'). lia.
      + intros s' Hss Hlts' _. repeat twp_step. by split.
    - by split. }
  (* identifier or keyword *)
  twp_step.
  { repeat twp_step.
    assert (pos l2 < source_len l2) as Hlt
      by (apply (Hreal (char l2)); [done|by apply isalpha_NUL]).
    apply (twp_peek_loop _ isalnum l); [done..|lia|].
    intros s Hs Hlts _. repeat twp_step.
    destruct (is_keyword _); repeat twp_step; by split. }
  (* newline, end of input, anything else *)
  twp_step.
  { case_bool_decide; [|done]. twp_step. split; [done|intros _; by eapply Hreal]. }
  twp_step.
  { twp_step. by split. }
  twp_step. by split.
Qed.

(** * Fuel monotonicity of the parser *)

Section parser_refines.
Context (fuel1 fuel2 : nat) (Hle : (fuel1 ≤ fuel2)%nat).

Lemma next_token_refines : refines (next_token fuel1) (next_token fuel2).
Proof using Hle.
  unfold next_token. refines_with ltac:(by apply get_token_refines).
Qed.

Lemma match_refines k : refines (match_ fuel1 k) (match_ fuel2 k).
Proof using Hle.
  unfold match_. refines_with ltac:(apply next_token_refines).
Qed.

Lemma emit_current_refines :
  refines (emit_current fuel1) (emit_current fuel2).
Proof using Hle.
  unfold emit_current. refines_with ltac:(apply next_token_refines).
Qed.

Lemma primary_refines : refines (primary fuel1) (primary fuel2).
Proof using Hle.
  unfold primary. refines_with ltac:(apply next_token_refines).
Qed.

Lemma unary_refines : refines (unary fuel1) (unary fuel2).
Proof using Hle.
  unfold unary.
  refines_with ltac:(first [apply emit_current_refines
                           |apply primary_refines]).
Qed.

Lemma term_refines : refines (term fuel1) (term fuel2).
Proof using Hle.
  unfold term.
  refines_with ltac:(first [apply emit_current_refines
                           |apply unary_refines]).
Qed.

Lemma expression_refines : refines (expression fuel1) (expression fuel2).
Proof using Hle.
  unfold expression.
  refines_with ltac:(first [apply emit_current_refines
                           |apply term_refines]).
Qed.

Lemma comparison_refines : refines (comparison fuel1) (comparison fuel2).
Proof using Hle.
  unfold comparison.
  refines_with ltac:(first [apply emit_current_refines
                           |apply expression_refines]).
Qed.

Lemma nl_refines : refines (nl fuel1) (nl fuel2).
Proof using Hle.
  unfold nl.
  refines_with ltac:(first [apply match_refines|apply next_token_refines]).
Qed.

Lemma statement_body_refines rec1 rec2 :
  refines rec1 rec2 →
  refines (statement_body fuel1 rec1) (statement_body fuel2 rec2).
Proof using Hle.
  intros Hrec. unfold statement_body.
  refines_with ltac:(first
    [ apply next_token_refines | apply match_refines
    | apply expression_refines | apply comparison_refines
    | apply nl_refines | exact Hrec ]).
Qed.
End parser_refines.

Lemma statement_refines fuel1 fuel2 :
  (fuel1 ≤ fuel2)%nat → refines (statement fuel1) (statement fuel2).
Proof.
  revert fuel2. induction fuel1 as [|fuel1 IH]; intros fuel2 Hle.
  - by intros p H.
  - destruct fuel2 as [|fuel2]; [lia|]. simpl.
    apply statement_body_refines; [lia|]. apply IH. lia.
Qed.

Lemma program_parse_refines fuel1 fuel2 :
  (fuel1 ≤ fuel2)%nat → refines (program_parse fuel1) (program_parse fuel2).
Proof.
  intros Hle. unfold program_parse.
  refines_with ltac:(first [by apply next_token_refines
                           |by apply statement_refines]).
Qed.

Lemma program_refines order fuel1 fuel2 :
  (fuel1 ≤ fuel2)%nat →
  refines (program order fuel1) (program order fuel2).
Proof.
  intros Hle. unfold program.
  refines_with ltac:(by apply program_parse_refines).
Qed.

Lemma Parser_init_refines fuel1 fuel2 e :
  (fuel1 ≤ fuel2)%nat →
  refines (Parser_init fuel1 e) (Parser_init fuel2 e).
Proof.
  intros Hle. unfold Parser_init.
  refines_with ltac:(by apply get_token_refines).
Qed.

Lemma compile_refines order fuel1 fuel2 input :
  (fuel1 ≤ fuel2)%nat → compile order fuel1 input ≠ Timeout →
  compile order fuel2 input = compile order fuel1 input.
Proof.
  intros Hle. unfold compile.
  pose proof (Parser_init_refines fuel1 fuel2 (Emitter_init "out.c") Hle
                (Lexer_init input)) as Hinit.
  destruct (Parser_init fuel1 _ _) as [p l| |]; [| |done].
  - rewrite Hinit by done.
    pose proof (program_refines order fuel1 fuel2 Hle p) as Hprog.
    destruct (program order fuel1 p); [| |done].
    + by rewrite Hprog.
    + by rewrite Hprog.
  - by rewrite Hinit.
Qed.

Lemma main_refines order fuel1 fuel2 input :
  (fuel1 ≤ fuel2)%nat → main order fuel1 input ≠ Timeout →
  main order fuel2 input = main order fuel1 input.
Proof.
  intros Hle. unfold main. intros H.
  rewrite (compile_refines order fuel1 fuel2); [done|done|].
  intros Heq. by rewrite Heq in H.
Qed.

(** * The token sequence of a source text *)

Lemma get_tokens_refines fuel1 fuel2 n :
  (fuel1 ≤ fuel2)%nat → refines (get_tokens fuel1 n) (get_tokens fuel2 n).
Proof.
  intros Hle. induction n as [|n IH]; simpl.
  - apply refines_refl.
  - refines_with ltac:(first [by apply get_token_refines|exact IH]).
Qed.

Lemma get_tokens_length fuel n l ts l' :
  get_tokens fuel n l = Ok ts l' → length ts = n.
Proof.
  revert l ts l'. induction n as [|n IH]; intros l ts l'; simpl.
  - unfold mret, M_ret. by intros [= <- _].
  - unfold mbind, M_bind. destruct (get_token fuel l) as [t l1| |]; [|done..].
    destruct (get_tokens fuel n l1) as [ts1 l2| |] eqn:Hts; [|done..].
    unfold mret, M_ret. intros [= <- _]. simpl. f_equal. by eapply IH.
Qed.

Lemma get_tokens_snoc fuel n l ts l' t l'' :
  get_tokens fuel n l = Ok ts l' → get_token fuel l' = Ok t l'' →
  get_tokens fuel (S n) l = Ok (ts ++ [t]) l''.
Proof.
  revert l ts. induction n as [|n IH]; intros l ts.
  - simpl. unfold mret, M_ret. intros [= <- <-] Ht.
    unfold mbind, M_bind. by rewrite Ht.
  - intros Hts Ht. change (get_tokens fuel (S (S n)) l) with
      ((t0 ← get_token fuel; ts0 ← get_tokens fuel (S n); mret (t0 :: ts0)) l).
    simpl in Hts. unfold mbind, M_bind in *.
    destruct (get_token fuel l) as [t1 l1| |]; [|done..].
    destruct (get_tokens fuel n l1) as [ts1 l2| |] eqn:Hts1; [|done..].
    unfold mret, M_ret in Hts. injection Hts as <- <-.
    by rewrite (IH _ _ Hts1 Ht).
Qed.

Lemma get_tokens_unsnoc fuel n l ts l'' :
  get_tokens fuel (S n) l = Ok ts l'' →
  ∃ ts' t l', ts = ts' ++ [t] ∧ get_tokens fuel n l = Ok ts' l'
              ∧ get_token fuel l' = Ok t l''.
Proof.
  revert l ts. induction n as [|n IH]; intros l ts.
  - simpl. unfold mbind, M_bind.
    destruct (get_token fuel l) as [t1 l1| |] eqn:Ht; [|done..].
    unfold mret, M_ret. intros [= <- <-]. by exists [], t1, l.
  - intros Hts. change (get_tokens fuel (S (S n)) l) with
      ((t0 ← get_token fuel; ts0 ← get_tokens fuel (S n); mret (t0 :: ts0)) l)
      in Hts.
    unfold mbind, M_bind in Hts.
    destruct (get_token fuel l) as [t1 l1| |] eqn:Ht1; [|done..].
    destruct (get_tokens fuel (S n) l1) as [ts1 l2| |] eqn:Hts1; [|done..].
    unfold mret, M_ret in Hts. injection Hts as <- <-.
    destruct (IH _ _ Hts1) as (ts' & t & l' & -> & Hts' & Ht).
    exists (t1 :: ts'), t, l'. split; [done|]. split; [|done].
    simpl. unfold mbind, M_bind. by rewrite Ht1, Hts'.
Qed.

Lemma lexes_nil l : lexes l [] l.
Proof. by exists O. Qed.

Lemma lexes_snoc l ts l' fuel t l'' :
  lexes l ts l' → get_token fuel l' = Ok t l'' → lexes l (ts ++ [t]) l''.
Proof.
  intros [fuel0 Hts] Ht. exists (fuel0 `max` fuel)%nat.
  rewrite length_app. simpl. rewrite Nat.add_1_r.
  apply get_tokens_snoc with l'.
  - rewrite (get_tokens_refines fuel0); [done|lia|by rewrite Hts].
  - rewrite (get_token_refines fuel); [done|lia|by rewrite Ht].
Qed.

Lemma lexes_unsnoc l ts t l'' :
  lexes l (ts ++ [t]) l'' →
  ∃ l', lexes l ts l' ∧ ∃ fuel, get_token fuel l' = Ok t l''.
Proof.
  intros [fuel Hts]. rewrite length_app in Hts. simpl in Hts.
  rewrite Nat.add_1_r in Hts.
  destruct (get_tokens_unsnoc _ _ _ _ _ Hts) as (ts' & t' & l' & Heq & H1 & H2).
  apply app_inj_tail in Heq as [<- <-].
  exists l'. split; [by exists fuel|by exists fuel].
Qed.

(** Two runs of the lexer over the same state return the same tokens. *)
Lemma lexes_agree l ts1 ts2 l1 l2 :
  lexes l ts1 l1 → lexes l ts2 l2 → length ts1 = length ts2 →
  ts1 = ts2 ∧ l1 = l2.
Proof.
  intros [f1 H1] [f2 H2] Hlen. rewrite <-Hlen in H2.
  pose proof (get_tokens_refines f1 (f1 `max` f2)%nat (length ts1)
                ltac:(lia) l) as R1.
  pose proof (get_tokens_refines f2 (f1 `max` f2)%nat (length ts1)
                ltac:(lia) l) as R2.
  rewrite H1 in R1. rewrite H2 in R2.
  rewrite R1 in R2 by done. specialize (R2 ltac:(done)). by simplify_eq.
Qed.

Lemma lexes_app_inv l a b l' :
  lexes l (a ++ b) l' → ∃ l1, lexes l a l1 ∧ lexes l1 b l'.
Proof.
  revert l'. induction b as [|t b IH] using rev_ind; intros l'.
  - rewrite app_nil_r. intros H. exists l'. split; [done|apply lexes_nil].
  - rewrite app_assoc. intros (l2 & Hab & fuel & Ht)%lexes_unsnoc.
    destruct (IH _ Hab) as (l1 & Ha & Hb). exists l1. split; [done|].
    by eapply lexes_snoc.
Qed.

(** * What a program declares *)

Lemma append_assoc (s1 s2 s3 : string) :
  (s1 +:+ s2) +:+ s3 = s1 +:+ (s2 +:+ s3).
Proof.
  induction s1 as [|c s1 IH]; [done|].
  change (String c ((s1 +:+ s2) +:+ s3) = String c (s1 +:+ (s2 +:+ s3))).
  by rewrite IH.
Qed.

Lemma append_nil_r (s : string) : s +:+ EmptyString = s.
Proof.
  induction s as [|c s IH]; [done|].
  change (String c (s +:+ EmptyString) = String c s). by rewrite IH.
Qed.

Lemma declaration_lines_app xs ys :
  declaration_lines (xs ++ ys)
  = declaration_lines xs +:+ declaration_lines ys.
Proof.
  induction xs as [|x xs IH]; [done|].
  unfold declaration_lines in *. cbn [app foldr].
  by rewrite IH, append_assoc.
Qed.

Lemma let_input_targets_app cs ts :
  settled cs →
  let_input_targets (cs ++ ts) = let_input_targets cs ++ let_input_targets ts.
Proof.
  intros Hs. induction cs as [|c cs IH]; [done|].
  destruct cs as [|c' cs].
  - simpl. destruct ts as [|t ts]; [done|].
    rewrite bool_decide_eq_false_2; [done|]. by apply Hs.
  - change ((c :: c' :: cs) ++ ts) with (c :: (c' :: cs) ++ ts).
    assert (settled (c' :: cs)) as Hs' by (intros t Ht; by apply Hs).
    specialize (IH Hs'). simpl in *.
    destruct (bool_decide (declares c)); by rewrite IH.
Qed.

Lemma settled_nil : settled [].
Proof. by intros t. Qed.

Lemma settled_snoc cs t : ¬ declares t → settled (cs ++ [t]).
Proof. intros Ht t'. rewrite last_snoc. by intros [= <-]. Qed.

Lemma let_input_targets_neutral cs t :
  settled cs → let_input_targets (cs ++ [t]) = let_input_targets cs.
Proof.
  intros Hs. rewrite let_input_targets_app by done. simpl.
  by rewrite app_nil_r.
Qed.

Lemma let_input_targets_declared cs kw t :
  settled cs → declares kw →
  let_input_targets (cs ++ [kw; t]) = let_input_targets cs ++ [text t].
Proof.
  intros Hs Hkw. rewrite let_input_targets_app by done. simpl.
  by rewrite bool_decide_eq_true_2.
Qed.

Lemma unseen_snoc seen xs x :
  unseen seen (xs ++ [x])
  = unseen seen xs
    ++ (if bool_decide (x ∈ seen ∪ list_to_set xs) then [] else [x]).
Proof.
  revert seen. induction xs as [|y xs IH]; intros seen; simpl.
  - rewrite (right_id_L ∅ (∪)). case_bool_decide; done.
  - case_bool_decide as Hy; rewrite IH; simpl; do 2 f_equal.
    + assert (seen ∪ ({[y]} ∪ list_to_set xs) = seen ∪ list_to_set xs) as ->
        by set_solver.
      done.
    + assert ({[y]} ∪ seen ∪ list_to_set xs
              = seen ∪ ({[y]} ∪ list_to_set xs)) as -> by set_solver.
      done.
Qed.

Lemma first_occurrences_snoc xs x :
  first_occurrences (xs ++ [x])
  = first_occurrences xs
    ++ (if bool_decide (x ∈ (list_to_set xs : gset string)) then []
        else [x]).
Proof.
  unfold first_occurrences. rewrite unseen_snoc.
  by rewrite (left_id_L ∅ (∪)).
Qed.

(** * Invariants of the parser *)

Lemma cursor_ok_remaining p :
  cursor_ok p → kind (current_token p) ≠ EOF →
  (remaining (lex p) < measure p)%nat.
Proof.
  intros [Hwf _ Hc] Hk. specialize (Hc Hk).
  unfold remaining, measure. lia.
Qed.

Lemma next_token_twp fuel p :
  cursor_ok p → kind (current_token p) ≠ EOF → (measure p ≤ fuel)%nat →
  twp (next_token fuel)
    (λ _ p', shifted fuel p p' ∧ cursor_ok p' ∧ (measure p' < measure p)%nat)
    no_label_error p.
Proof.
  intros Hok Hk Hfuel.
  pose proof (cursor_ok_remaining p Hok Hk) as Hrem.
  destruct Hok as [Hwf Hpk Hcur].
  pose proof (get_token_twp fuel (lex p) Hwf ltac:(lia)) as H.
  unfold twp, next_token, mbind, M_bind, modify, on_lex in *. simpl.
  destruct (get_token fuel (lex p)) as [t l'|e l'|] eqn:Ht; [| |done].
  - simpl. destruct H as (l1 & -> & (Hwf1 & Hsrc & Hlen & Hpos & Hle & _) & Hlt).
    split_and!.
    + by eexists _, _.
    + split; simpl.
      * by apply next_char_WF.
      * intros Hne. specialize (Hlt Hne). lia.
      * intros Hne. specialize (Hpk Hne). lia.
    + specialize (Hcur Hk). unfold measure. simpl. lia.
  - destruct H as [_ He]. intros l ->. done.
Qed.

Lemma twp_emit c (Q : () → Parser → Prop) E p :
  (∀ p', same_view p p' → Q () p') → twp (emit c) Q E p.
Proof. intros H. apply twp_modify, H. by repeat split. Qed.

Lemma twp_emit_line c (Q : () → Parser → Prop) E p :
  (∀ p', same_view p p' → Q () p') → twp (emit_line c) Q E p.
Proof. intros H. apply twp_modify, H. by repeat split. Qed.

Lemma same_view_measure p p' : same_view p p' → measure p' = measure p.
Proof. intros (Hl & _). unfold measure. by rewrite Hl. Qed.

Lemma same_view_cursor_ok p p' : same_view p p' → cursor_ok p → cursor_ok p'.
Proof.
  intros (Hl & Hc & Hk & _) [H1 H2 H3].
  split; rewrite ?Hl, ?Hc, ?Hk; done.
Qed.

Lemma check_token_true k p :
  check_token k p = true → kind (current_token p) = k.
Proof. unfold check_token. by intros ->%bool_decide_eq_true. Qed.

Lemma check_token_false k p :
  check_token k p = false → kind (current_token p) ≠ k.
Proof. unfold check_token. intros H%bool_decide_eq_false. congruence. Qed.

Section seen.
Context (L0 : Lexer).

Lemma same_view_window cs p p' : same_view p p' → window L0 cs p → window L0 cs p'.
Proof. intros (Hl & Hc & Hk & _). unfold window. by rewrite Hl, Hc, Hk. Qed.

Lemma same_view_declared cs p p' :
  same_view p p' → declared cs p → declared cs p'.
Proof. intros (_ & _ & _ & Hs & Hh). unfold declared. by rewrite Hs, Hh. Qed.

Lemma same_view_Good p p' : same_view p p' → Good L0 p → Good L0 p'.
Proof.
  intros Hv [Hok (cs & Hw & Hs & Hd)].
  split; [by eapply same_view_cursor_ok|].
  exists cs. split_and!;
    [by eapply same_view_window|done|by eapply same_view_declared].
Qed.

Lemma same_view_Declared p p' : same_view p p' → Declared L0 p → Declared L0 p'.
Proof.
  intros Hv [Hok (cs & kw & Hw & Hkw & Hs & Hd)].
  split; [by eapply same_view_cursor_ok|].
  exists cs, kw. split_and!; [by eapply same_view_window|done|done|].
  pose proof Hv as (_ & Hc & _). rewrite Hc.
  by eapply same_view_declared.
Qed.

Lemma shifted_window fuel cs p p' :
  window L0 cs p → kind (current_token p) ≠ EOF → shifted fuel p p' →
  window L0 (cs ++ [current_token p]) p'.
Proof.
  intros [Hlex Hall] Hk (t & l' & Ht & ->). split; simpl.
  - replace ((cs ++ [current_token p]) ++ [peek_token p; t])
      with ((cs ++ [current_token p; peek_token p]) ++ [t])
      by (by rewrite <-!app_assoc).
    by eapply lexes_snoc.
  - apply Forall_app. split; [done|]. by constructor.
Qed.

Lemma Good_shifted fuel p p' :
  Good L0 p → kind (current_token p) ≠ EOF → ¬ declares (current_token p) →
  shifted fuel p p' → cursor_ok p' → Good L0 p'.
Proof.
  intros [_ (cs & Hw & Hs & Hsym & Hhdr)] Hk Hn Hsh Hok'.
  split; [done|]. exists (cs ++ [current_token p]).
  split_and!.
  - by eapply shifted_window.
  - by apply settled_snoc.
  - destruct Hsh as (t & l' & _ & ->). unfold declared. simpl.
    by rewrite let_input_targets_neutral.
Qed.

Lemma AtTarget_shifted fuel p p' :
  Good L0 p → declares (current_token p) →
  shifted fuel p p' → cursor_ok p' → AtTarget L0 p'.
Proof.
  intros [_ (cs & Hw & Hs & Hsym & Hhdr)] Hkw Hsh Hok'.
  split; [done|]. exists cs, (current_token p).
  split_and!; [|done|done|].
  - eapply shifted_window; [done| |done]. by destruct Hkw as [-> | ->].
  - destruct Hsh as (t & l' & _ & ->). by split.
Qed.

Lemma Good_shifted_target fuel p p' :
  Declared L0 p → kind (current_token p) = IDENT →
  shifted fuel p p' → cursor_ok p' → Good L0 p'.
Proof.
  intros [_ (cs & kw & Hw & Hkw & Hs & Hsym & Hhdr)] Hk Hsh Hok'.
  split; [done|]. exists ((cs ++ [kw]) ++ [current_token p]).
  split_and!.
  - eapply shifted_window; [done| |done]. by rewrite Hk.
  - apply settled_snoc. unfold declares. rewrite Hk. by intros [|].
  - destruct Hsh as (t & l' & _ & ->). unfold declared. simpl.
    by rewrite <-!app_assoc.
Qed.

(** [declare] on the token that follows the keyword. *)
Lemma declare_twp (Q : () → Parser → Prop) E p :
  AtTarget L0 p →
  (∀ p', Declared L0 p' → lex p' = lex p →
         current_token p' = current_token p → Q () p') →
  twp (declare (text (current_token p))) Q E p.
Proof.
  intros [Hok (cs & kw & Hw & Hkw & Hs & Hsym & Hhdr)] HQ.
  unfold declare. repeat twp_step; unfold header_line.
  - twp_step. apply HQ; [|done..].
    split; [by destruct Hok|]. exists cs, kw. simpl.
    split_and!; [done..|]. unfold declared. simpl.
    rewrite let_input_targets_declared by done.
    match goal with H : bool_decide _ = true |- _ =>
      apply bool_decide_eq_true in H; rename H into Hnew end.
    split.
    + rewrite list_to_set_app_L. simpl. rewrite Hsym. set_solver.
    + rewrite first_occurrences_snoc, declaration_lines_app.
      rewrite bool_decide_eq_false_2 by (by rewrite <-Hsym).
      rewrite Hhdr, append_assoc. do 2 f_equal.
      unfold declaration_lines. simpl. by rewrite append_nil_r.
  - apply HQ; [|done..].
    split; [done|]. exists cs, kw.
    split_and!; [done..|]. unfold declared.
    rewrite let_input_targets_declared by done.
    match goal with H : bool_decide _ = false |- _ =>
      apply bool_decide_eq_false in H; rename H into Hold end.
    apply dec_stable in Hold.
    split.
    + rewrite list_to_set_app_L. simpl. rewrite Hsym in *. set_solver.
    + rewrite first_occurrences_snoc.
      rewrite bool_decide_eq_true_2 by (by rewrite <-Hsym).
      by rewrite app_nil_r.
Qed.
End seen.

(** * Every grammar rule keeps the invariant and consumes a token *)

Section rules.
Context (L0 : Lexer).

Lemma consume_twp fuel p :
  Good L0 p → kind (current_token p) ≠ EOF →
  ¬ declares (current_token p) → (measure p ≤ fuel)%nat →
  twp (next_token fuel) (advanced L0 p) no_label_error p.
Proof.
  intros HG Hk Hn Hfuel.
  twp_use next_token_twp; [apply HG|done|done| |done].
  intros [] p' (Hsh & Hok & Hlt). split; [|done].
  by eapply Good_shifted.
Qed.

Lemma twp_consume_loop fuel cond body p (Q : () → Parser → Prop) :
  Good L0 p → (measure p < fuel)%nat →
  (∀ s, Good L0 s → (measure s ≤ measure p)%nat → cond s = true →
        twp body (advanced L0 s) no_label_error s) →
  (∀ s, Good L0 s → (measure s ≤ measure p)%nat → cond s = false →
        Q () s) →
  twp (while fuel cond body) Q no_label_error p.
Proof.
  intros HG Hfuel Hbody HQ.
  apply (twp_while_then
           (λ s, Good L0 s ∧ (measure s ≤ measure p)%nat) measure);
    [done|done| |].
  - intros s [HGs Hms] Hc. twp_use Hbody; [done..| |done].
    intros [] s' [HG' Hlt]. split_and!; [done|lia|done].
  - intros s [HGs Hms] Hc. by apply HQ.
Qed.

Lemma match_twp fuel k p :
  Good L0 p → k ≠ EOF → k ≠ LET → k ≠ INPUT → (measure p ≤ fuel)%nat →
  twp (match_ fuel k) (advanced L0 p) no_label_error p.
Proof.
  intros HG H1 H2 H3 Hfuel. unfold match_. repeat twp_step.
  - by intros l.
  - match goal with H : negb _ = false |- _ =>
      apply negb_false_iff, check_token_true in H; rename H into Hk end.
    apply consume_twp; [done|by rewrite Hk| |done].
    unfold declares. rewrite Hk. by intros [|].
Qed.

Lemma emit_current_twp fuel p :
  Good L0 p → kind (current_token p) ≠ EOF →
  ¬ declares (current_token p) → (measure p ≤ fuel)%nat →
  twp (emit_current fuel) (advanced L0 p) no_label_error p.
Proof.
  intros HG Hk Hn Hfuel. unfold emit_current. repeat twp_step.
  apply twp_emit. intros p' Hv.
  pose proof (same_view_measure _ _ Hv) as Hm.
  pose proof Hv as (_ & Hc & _).
  twp_use consume_twp;
    [by eapply same_view_Good|by rewrite Hc|by rewrite Hc|lia| |done].
  intros [] p'' [HG' Hlt]. split; [done|lia].
Qed.

Lemma primary_twp fuel p :
  Good L0 p → (measure p ≤ fuel)%nat →
  twp (primary fuel) (advanced L0 p) no_label_error p.
Proof.
  intros HG Hfuel. unfold primary. twp_step. twp_step. twp_step.
  { match goal with H : check_token _ _ = true |- _ =>
      apply check_token_true in H; rename H into Hk end.
    twp_step. apply twp_emit. intros p' Hv.
    pose proof (same_view_measure _ _ Hv) as Hm.
    pose proof Hv as (_ & Hc & _).
    twp_use consume_twp; [by eapply same_view_Good|..|done].
    - by rewrite Hc, Hk.
    - unfold declares. rewrite Hc, Hk. by intros [|].
    - lia.
    - intros [] p'' [HG' Hlt]. split; [done|lia]. }
  twp_step; [|by intros l].
  match goal with H : check_token _ _ = true |- _ =>
    apply check_token_true in H; rename H into Hk end.
  repeat twp_step; [by intros l|].
  apply twp_emit. intros p' Hv.
  pose proof (same_view_measure _ _ Hv) as Hm.
  pose proof Hv as (_ & Hc & _).
  twp_use consume_twp; [by eapply same_view_Good|..|done].
  - by rewrite Hc, Hk.
  - unfold declares. rewrite Hc, Hk. by intros [|].
  - lia.
  - intros [] p'' [HG' Hlt]. split; [done|lia].
Qed.

Lemma sign_neutral p :
  check_token PLUS p || check_token MINUS p = true →
  kind (current_token p) ≠ EOF ∧ ¬ declares (current_token p).
Proof.
  intros [H|H]%orb_true_iff; apply check_token_true in H;
    unfold declares; rewrite H; split; (done || by intros [|]).
Qed.

Lemma factor_neutral p :
  check_token ASTERISK p || check_token SLASH p = true →
  kind (current_token p) ≠ EOF ∧ ¬ declares (current_token p).
Proof.
  intros [H|H]%orb_true_iff; apply check_token_true in H;
    unfold declares; rewrite H; split; (done || by intros [|]).
Qed.

Lemma comparison_neutral p :
  is_comparison_op p = true →
  kind (current_token p) ≠ EOF ∧ ¬ declares (current_token p).
Proof.
  unfold is_comparison_op. intros (k & Hin & H)%existsb_exists.
  apply check_token_true in H. unfold declares. rewrite H.
  simpl in Hin.
  repeat (destruct Hin as [<-|Hin]; [split; (done || by intros [|])|]).
  done.
Qed.

Lemma unary_twp fuel p :
  Good L0 p → (measure p < fuel)%nat →
  twp (unary fuel) (advanced L0 p) no_label_error p.
Proof.
  intros HG Hfuel. unfold unary. repeat twp_step.
  - match goal with H : _ || _ = true |- _ =>
      apply sign_neutral in H as [Hk Hn] end.
    twp_use emit_current_twp; [done|done|done|lia| |done].
    intros [] p1 [HG1 Hlt1].
    twp_use primary_twp; [done|lia| |done].
    intros [] p2 [HG2 Hlt2]. split; [done|lia].
  - apply primary_twp; [done|lia].
Qed.

(** [emit_current;; rule], the body of the operator loops. *)
Lemma operator_twp fuel (rule : M Parser ()) p :
  (∀ s, Good L0 s → (measure s < fuel)%nat →
        twp rule (advanced L0 s) no_label_error s) →
  Good L0 p → kind (current_token p) ≠ EOF →
  ¬ declares (current_token p) → (measure p < fuel)%nat →
  twp (emit_current fuel;; rule) (advanced L0 p) no_label_error p.
Proof.
  intros Hrule HG Hk Hn Hfuel. twp_step.
  twp_use emit_current_twp; [done|done|done|lia| |done].
  intros [] p1 [HG1 Hlt1].
  twp_use Hrule; [done|lia| |done].
  intros [] p2 [HG2 Hlt2]. split; [done|lia].
Qed.

Lemma term_twp fuel p :
  Good L0 p → (measure p < fuel)%nat →
  twp (term fuel) (advanced L0 p) no_label_error p.
Proof.
  intros HG Hfuel. unfold term. twp_step.
  twp_use unary_twp; [done|done| |done].
  intros [] p1 [HG1 Hlt1].
  apply twp_consume_loop; [done|lia| |].
  - intros s HGs Hms [Hk Hn]%factor_neutral.
    apply operator_twp; [apply unary_twp|done|done|done|lia].
  - intros s HGs Hms _. split; [done|lia].
Qed.

Lemma expression_twp fuel p :
  Good L0 p → (measure p < fuel)%nat →
  twp (expression fuel) (advanced L0 p) no_label_error p.
Proof.
  intros HG Hfuel. unfold expression. twp_step.
  twp_use term_twp; [done|done| |done].
  intros [] p1 [HG1 Hlt1].
  apply twp_consume_loop; [done|lia| |].
  - intros s HGs Hms [Hk Hn]%sign_neutral.
    apply operator_twp; [apply term_twp|done|done|done|lia].
  - intros s HGs Hms _. split; [done|lia].
Qed.

Lemma comparison_twp fuel p :
  Good L0 p → (measure p < fuel)%nat →
  twp (comparison fuel) (advanced L0 p) no_label_error p.
Proof.
  intros HG Hfuel. unfold comparison. twp_step.
  twp_use expression_twp; [done|done| |done].
  intros [] p1 [HG1 Hlt1]. do 4 twp_step; [|twp_step; by intros l].
  match goal with H : is_comparison_op _ = true |- _ =>
    apply comparison_neutral in H as [Hk Hn] end.
  twp_use operator_twp; [apply expression_twp|done|done|done|lia| |done].
  intros [] p2 [HG2 Hlt2].
  apply twp_consume_loop; [done|lia| |].
  - intros s HGs Hms [Hk' Hn']%comparison_neutral.
    apply operator_twp; [apply expression_twp|done|done|done|lia].
  - intros s HGs Hms _. split; [done|lia].
Qed.

Lemma nl_twp fuel p :
  Good L0 p → (measure p < fuel)%nat →
  twp (nl fuel) (advanced L0 p) no_label_error p.
Proof.
  intros HG Hfuel. unfold nl. twp_step.
  twp_use match_twp; [done|done|done|done|lia| |done].
  intros [] p1 [HG1 Hlt1].
  apply twp_consume_loop; [done|lia| |].
  - intros s HGs Hms Hk%check_token_true.
    apply consume_twp; [done|by rewrite Hk| |lia].
    unfold declares. rewrite Hk. by intros [|].
  - intros s HGs Hms _. split; [done|lia].
Qed.

(** [nl] consumes newlines only, and at least one. *)
Lemma nl_newline_twp fuel p :
  Good L0 p → (measure p < fuel)%nat →
  twp (nl fuel) (finished L0 p) no_label_error p.
Proof.
  intros HG Hfuel. unfold nl, match_. repeat twp_step; [by intros l|].
  match goal with H : negb _ = false |- _ =>
    apply negb_false_iff, check_token_true in H; rename H into Hk end.
  assert (¬ declares (current_token p)) as Hn
    by (unfold declares; rewrite Hk; by intros [|]).
  twp_use next_token_twp; [apply HG|by rewrite Hk|lia| |done].
  intros [] p1 (Hsh1 & Hok1 & Hlt1).
  assert (Good L0 p1) as HG1 by (eapply Good_shifted; [done|by rewrite Hk|done..]).
  assert (after_newline L0 p1) as Hnl1.
  { destruct HG as [_ (cs & Hw & _)]. exists cs, (current_token p).
    split; [|done]. eapply shifted_window; [done|by rewrite Hk|done]. }
  apply (twp_while_then
           (λ s, Good L0 s ∧ (measure s ≤ measure p1)%nat
                 ∧ after_newline L0 s) measure);
    [done|lia| |].
  - intros s (HGs & Hms & _) Hks%check_token_true.
    assert (¬ declares (current_token s)) as Hns
      by (unfold declares; rewrite Hks; by intros [|]).
    twp_use next_token_twp; [apply HGs|by rewrite Hks|lia| |done].
    intros [] s' (Hsh & Hok & Hlt).
    split_and!; [|lia| |done].
    + eapply Good_shifted; [done|by rewrite Hks|done..].
    + destruct HGs as [_ (cs & Hw & _)]. exists cs, (current_token s).
      split; [|done]. eapply shifted_window; [done|by rewrite Hks|done].
  - intros s (HGs & Hms & Hnls) _. split; [split; [done|lia]|done].
Qed.

Lemma twp_modify_view (f : Parser → Parser) (Q : () → Parser → Prop) E p :
  same_view p (f p) → (∀ p', same_view p p' → Q () p') →
  twp (modify f) Q E p.
Proof. intros Hv H. by apply twp_modify, H. Qed.

(** [match(IDENT)] on the target of a LET or INPUT. *)
Lemma match_target_twp fuel p :
  Declared L0 p → (measure p ≤ fuel)%nat →
  twp (match_ fuel IDENT) (advanced L0 p) no_label_error p.
Proof.
  intros HD Hfuel. unfold match_. repeat twp_step.
  - by intros l.
  - match goal with H : negb _ = false |- _ =>
      apply negb_false_iff, check_token_true in H; rename H into Hk end.
    twp_use next_token_twp; [apply HD|by rewrite Hk|done| |done].
    intros [] p' (Hsh & Hok & Hlt). split; [|done].
    by eapply Good_shifted_target.
Qed.

(** [next_token] on a LET or INPUT keyword. *)
Lemma keyword_twp fuel p :
  Good L0 p → declares (current_token p) → (measure p ≤ fuel)%nat →
  twp (next_token fuel)
    (λ _ p', AtTarget L0 p' ∧ (measure p' < measure p)%nat)
    no_label_error p.
Proof.
  intros HG Hkw Hfuel.
  twp_use next_token_twp; [apply HG| |done| |done].
  { by destruct Hkw as [-> | ->]. }
  intros [] p1 (Hsh & Hok & Hlt). split; [|done].
  by eapply AtTarget_shifted.
Qed.

Ltac twp_seq H :=
  twp_step; eapply twp_conseq;
    [ eapply H; try done; try lia
    | let p' := fresh "p" in
      let HG := fresh "HG" in
      let Hlt := fresh "Hlt" in
      intros [] p' [HG Hlt]
    | done ].

Ltac twp_out :=
  lazymatch goal with
  | |- twp (mbind _ _) _ _ _ => apply twp_bind
  | |- _ => idtac
  end;
  first [apply twp_emit | apply twp_emit_line | apply twp_modify_view];
  [ .. |
    let p' := fresh "p" in
    let Hv := fresh "Hv" in
    intros p' Hv;
    let Hm := fresh "Hm" in
    pose proof (same_view_measure _ _ Hv) as Hm;
    try match type of Hv with
        | same_view ?p _ =>
            match goal with
            | HG : Good _ p |- _ =>
                let HG' := fresh "HG" in
                pose proof (same_view_Good _ _ _ Hv HG) as HG'
            | HD : Declared _ p |- _ =>
                let HD' := fresh "HD" in
                pose proof (same_view_Declared _ _ _ Hv HD) as HD'
            end
        end ].

(** A block: [while not check_token(closer): statement()]. *)
Lemma block_twp fuel closer rec p0 p (Q : () → Parser → Prop) :
  (∀ s, Good L0 s → (measure s < measure p0)%nat →
        twp rec (advanced L0 s) no_label_error s) →
  Good L0 p → (measure p < measure p0)%nat → (measure p < fuel)%nat →
  (∀ s, Good L0 s → (measure s ≤ measure p)%nat → Q () s) →
  twp (while fuel (λ p, negb (check_token closer p)) rec)
    Q no_label_error p.
Proof.
  intros Hrec HG Hlt Hfuel HQ.
  apply twp_consume_loop; [done|done| |].
  - intros s HGs Hms _. apply Hrec; [done|lia].
  - intros s HGs Hms _. by apply HQ.
Qed.

Lemma statement_body_twp fuel rec p :
  (∀ s, Good L0 s → (measure s < measure p)%nat →
        twp rec (advanced L0 s) no_label_error s) →
  Good L0 p → (measure p ≤ fuel)%nat →
  twp (statement_body fuel rec) (finished L0 p) no_label_error p.
Proof.
  intros Hrec HG Hfuel. unfold statement_body. do 3 twp_step.
  eapply (twp_conseq _ (advanced L0 p)); [| |done].
  2:{ intros [] s [HGs Hlts]. twp_use nl_newline_twp; [done|lia| |done].
      intros [] s' [[HG' Hlt'] Hnl]. split; [split; [done|lia]|done]. }
  (* PRINT *)
  twp_step.
  { match goal with H : check_token _ _ = true |- _ =>
      apply check_token_true in H; rename H into Hk end.
    twp_seq consume_twp; [by rewrite Hk|unfold declares; rewrite Hk; by intros [|]|].
    do 3 twp_step.
    - match goal with H : check_token _ _ = true |- _ =>
        apply check_token_true in H; rename H into Hk1 end.
      twp_out. pose proof Hv as (_ & Hc & _).
      twp_use consume_twp; [done|by rewrite Hc, Hk1| |lia| |done].
      { unfold declares. rewrite Hc, Hk1. by intros [|]. }
      intros [] s [HGs Hlts]. split; [done|lia].
    - twp_out. twp_seq expression_twp.
      twp_out. split; [done|lia]. }
  (* IF *)
  twp_step.
  { match goal with H : check_token _ _ = true |- _ =>
      apply check_token_true in H; rename H into Hk end.
    twp_seq consume_twp;
      [by rewrite Hk|unfold declares; rewrite Hk; by intros [|]|].
    twp_out. twp_seq comparison_twp. twp_seq match_twp. twp_seq nl_twp.
    twp_out. twp_step.
    eapply (block_twp _ _ _ p); [exact Hrec|done|lia|lia|].
    intros s HGs Hms. twp_seq match_twp. twp_out. split; [done|lia]. }
  (* WHILE *)
  twp_step.
  { match goal with H : check_token _ _ = true |- _ =>
      apply check_token_true in H; rename H into Hk end.
    twp_seq consume_twp;
      [by rewrite Hk|unfold declares; rewrite Hk; by intros [|]|].
    twp_out. twp_seq comparison_twp. twp_seq match_twp. twp_seq nl_twp.
    twp_out. twp_step.
    eapply (block_twp _ _ _ p); [exact Hrec|done|lia|lia|].
    intros s HGs Hms. twp_seq match_twp. twp_out. split; [done|lia]. }
  (* LABEL *)
  twp_step.
  { match goal with H : check_token _ _ = true |- _ =>
      apply check_token_true in H; rename H into Hk end.
    twp_seq consume_twp;
      [by rewrite Hk|unfold declares; rewrite Hk; by intros [|]|].
    do 4 twp_step; [twp_step; by intros l|].
    twp_out; [by repeat split|]. twp_out.
    twp_use match_twp; [done..|lia| |done].
    intros [] s [HGs Hlts]. split; [done|lia]. }
  (* GOTO *)
  twp_step.
  { match goal with H : check_token _ _ = true |- _ =>
      apply check_token_true in H; rename H into Hk end.
    twp_seq consume_twp;
      [by rewrite Hk|unfold declares; rewrite Hk; by intros [|]|].
    do 2 twp_step.
    twp_out; [by repeat split|]. twp_out.
    twp_use match_twp; [done..|lia| |done].
    intros [] s [HGs Hlts]. split; [done|lia]. }
  (* LET *)
  twp_step.
  { match goal with H : check_token _ _ = true |- _ =>
      apply check_token_true in H; rename H into Hk end.
    twp_step. twp_use keyword_twp; [done|by left|done| |done].
    intros [] p1 [HA Hlt1]. do 3 twp_step.
    apply (declare_twp L0); [done|]. intros p2 HD Hlex _.
    assert (measure p2 = measure p1) as Hm2
      by (unfold measure; by rewrite Hlex).
    twp_out. twp_seq match_target_twp. twp_seq match_twp.
    twp_seq expression_twp. twp_out. split; [done|lia]. }
  (* INPUT *)
  twp_step.
  { match goal with H : check_token _ _ = true |- _ =>
      apply check_token_true in H; rename H into Hk end.
    twp_step. twp_use keyword_twp; [done|by right|done| |done].
    intros [] p1 [HA Hlt1]. do 3 twp_step.
    apply (declare_twp L0); [done|]. intros p2 HD Hlex _.
    assert (measure p2 = measure p1) as Hm2
      by (unfold measure; by rewrite Hlex).
    do 5 twp_out.
    twp_use match_target_twp; [done|lia| |done].
    intros [] s [HGs Hlts]. split; [done|lia]. }
  twp_step. by intros l.
Qed.

Lemma statement_finished_twp fuel p :
  Good L0 p → (measure p < fuel)%nat →
  twp (statement fuel) (finished L0 p) no_label_error p.
Proof.
  revert p. induction fuel as [|fuel IH]; intros p HG Hfuel; [lia|].
  simpl. apply statement_body_twp; [|done|lia].
  intros s HGs Hlt. eapply twp_conseq; [apply IH; [done|lia]| |done].
  by intros [] s' [Ha _].
Qed.

Lemma statement_twp fuel p :
  Good L0 p → (measure p < fuel)%nat →
  twp (statement fuel) (advanced L0 p) no_label_error p.
Proof.
  intros HG Hfuel.
  eapply twp_conseq; [by apply statement_finished_twp| |done].
  by intros [] s' [Ha _].
Qed.
End rules.

(** * The whole compilation *)

Lemma Parser_init_twp fuel e l :
  WF l → (remaining l < fuel)%nat →
  twp (Parser_init fuel e)
    (λ p l', lex p = l' ∧ cursor_ok p ∧ window l [] p
             ∧ pos l + 2 ≤ pos l' ∧ source_len l' = source_len l
             ∧ emitter p = e ∧ symbols p = ∅
             ∧ labels_declared p = ∅ ∧ labels_gotoed p = ∅)
    (λ e _, error_class e = LexError) l.
Proof.
  intros Hwf Hfuel.
  pose proof (get_token_twp fuel l Hwf Hfuel) as H1.
  unfold twp, Parser_init, mbind, M_bind, get, mret, M_ret in *.
  destruct (get_token fuel l) as [t1 l1|e1 l1|] eqn:Ht1; [| |done].
  2:{ by destruct H1. }
  destruct H1 as (l1' & -> & (Hwf1 & Hsrc1 & Hlen1 & Hpos1 & Hle1 & _) & Hlt1).
  pose proof (next_char_WF _ Hwf1) as Hwf1'.
  assert (remaining (next_char_state l1') < fuel)%nat as Hfuel1
    by (unfold remaining in *; simpl; lia).
  pose proof (get_token_twp fuel _ Hwf1' Hfuel1) as H2.
  unfold twp in H2.
  destruct (get_token fuel (next_char_state l1')) as [t2 l2|e2 l2|] eqn:Ht2;
    [| |done].
  2:{ by destruct H2. }
  destruct H2 as (l2' & -> & (Hwf2 & Hsrc2 & Hlen2 & Hpos2 & Hle2 & _) & Hlt2).
  simpl in *. split_and!; try done; try lia.
  - split; simpl.
    + by apply next_char_WF.
    + intros Hne. specialize (Hlt2 Hne). lia.
    + intros Hne. specialize (Hlt1 Hne). lia.
  - split; [|by constructor]. simpl.
    apply (lexes_snoc _ [t1] (next_char_state l1') fuel); [|done].
    by apply (lexes_snoc _ [] l fuel); [apply lexes_nil|].
Qed.

Section program.
Context (L0 : Lexer).

Lemma program_parse_twp fuel p :
  cursor_ok p → window L0 [] p → symbols p = ∅ →
  header (emitter p) = EmptyString → (measure p < fuel)%nat →
  twp (program_parse fuel)
    (λ _ p', Good L0 p' ∧ kind (current_token p') = EOF)
    no_label_error p.
Proof.
  intros Hok Hw Hsym Hhdr Hfuel. unfold program_parse, header_line.
  do 4 twp_step.
  set (p1 := set_emitter _ _).
  assert (Good L0 p1) as HG1.
  { split; [by destruct Hok|]. exists []. split_and!.
    - done.
    - apply settled_nil.
    - split; [done|]. simpl. by rewrite Hhdr. }
  assert (measure p1 = measure p) as Hm1 by done.
  clearbody p1. twp_step.
  apply (twp_consume_loop L0); [done|lia| |].
  { intros s HGs Hms Hk%check_token_true.
    apply consume_twp; [done|by rewrite Hk| |lia].
    unfold declares. rewrite Hk. by intros [|]. }
  intros s HGs Hms _. twp_step.
  apply (twp_consume_loop L0); [done|lia| |].
  { intros s' HGs' Hms' _. apply statement_twp; [done|lia]. }
  intros s' HGs' Hms' Hk. apply negb_false_iff, check_token_true in Hk.
  twp_step. apply twp_emit_line. intros s1 Hv1.
  apply twp_emit_line. intros s2 Hv2.
  split; [by eapply same_view_Good, same_view_Good|].
  destruct Hv1 as (_ & Hc1 & _), Hv2 as (_ & Hc2 & _). congruence.
Qed.

(** The label loop neither changes the parser nor depends on more than
    the membership of the jumped-to names. *)
Lemma for_each_labels xs p :
  for_each xs (λ label,
      p ← get;
      when (bool_decide (label ∉ labels_declared p))
        (abort (SemUndeclaredLabel label))) p
  = match list_find (λ label, label ∉ labels_declared p) xs with
    | Some (_, label) => Abort (SemUndeclaredLabel label) p
    | None => Ok () p
    end.
Proof.
  set (body := λ label : string, _).
  induction xs as [|x xs IH]; [reflexivity|].
  change (for_each (x :: xs) body p)
    with (match body x p with
          | Ok _ s' => for_each xs body s'
          | Abort e s' => Abort e s'
          | OutOfFuel => OutOfFuel
          end).
  assert (body x p = if bool_decide (x ∉ labels_declared p)
                     then Abort (SemUndeclaredLabel x) p else Ok () p)
    as -> by (unfold body, mbind, M_bind, get, when;
              by destruct (bool_decide _)).
  cbn [list_find]. case_bool_decide as Hx.
  - by rewrite decide_True.
  - rewrite decide_False by (intros H; by apply H).
    rewrite IH. by destruct (list_find _ xs) as [[]|].
Qed.

Lemma program_check_labels_Ok order p :
  set_order_ok order → labels_gotoed p ⊆ labels_declared p →
  program_check_labels order p = Ok () p.
Proof.
  intros Hord Hsub. unfold program_check_labels.
  unfold mbind at 1. unfold M_bind, get.
  rewrite for_each_labels.
  destruct (list_find _ _) as [[i l]|] eqn:Hfind; [|done].
  apply list_find_Some in Hfind as (Hl%list_elem_of_lookup_2 & Hn & _).
  rewrite (Hord _) in Hl. apply elem_of_elements in Hl. set_solver.
Qed.

Lemma program_check_labels_Abort order p :
  set_order_ok order → ¬ (labels_gotoed p ⊆ labels_declared p) →
  ∃ l, l ∈ labels_gotoed p ∧ (l ∉ labels_declared p)
       ∧ program_check_labels order p = Abort (SemUndeclaredLabel l) p.
Proof.
  intros Hord Hsub. unfold program_check_labels.
  unfold mbind at 1. unfold M_bind, get.
  rewrite for_each_labels.
  destruct (list_find _ _) as [[i l]|] eqn:Hfind.
  - apply list_find_Some in Hfind as (Hl%list_elem_of_lookup_2 & Hn & _).
    rewrite (Hord _) in Hl. apply elem_of_elements in Hl.
    by exists l.
  - exfalso. apply Hsub. intros l Hl.
    apply list_find_None in Hfind.
    apply elem_of_elements in Hl. rewrite <-(Hord _) in Hl.
    rewrite Forall_forall in Hfind. specialize (Hfind l Hl).
    by apply dec_stable in Hfind.
Qed.
End program.

Lemma twp_Ok {S A} (m : M S A) Q E s a s' :
  twp m Q E s → m s = Ok a s' → Q a s'.
Proof. unfold twp. intros H Heq. by rewrite Heq in H. Qed.

Lemma twp_Abort {S A} (m : M S A) Q E s e s' :
  twp m Q E s → m s = Abort e s' → E e s'.
Proof. unfold twp. intros H Heq. by rewrite Heq in H. Qed.

Lemma twp_terminates {S A} (m : M S A) Q E s :
  twp m Q E s → m s ≠ OutOfFuel.
Proof. unfold twp. intros H Heq. by rewrite Heq in H. Qed.

(** [get_token] strictly advances the cursor, whatever the fuel it was
    given. *)
Lemma get_token_advances fuel l t l' :
  WF l → get_token fuel l = Ok t l' →
  WF l' ∧ source l' = source l ∧ source_len l' = source_len l
  ∧ pos l < pos l'.
Proof.
  intros Hwf Ht.
  set (big := (fuel `max` S (remaining l))%nat).
  assert (get_token big l = Ok t l') as Hbig.
  { rewrite (get_token_refines fuel big); [done|lia|by rewrite Ht]. }
  pose proof (get_token_twp big l Hwf ltac:(lia)) as H.
  apply (twp_Ok _ _ _ _ _ _ H) in Hbig
    as (l1 & -> & (Hwf1 & Hsrc & Hlen & Hpos & _) & _).
  split_and!; simpl; [by apply next_char_WF|done|done|lia].
Qed.

Lemma lexes_source l ts l' :
  WF l → lexes l ts l' →
  WF l' ∧ source l' = source l ∧ source_len l' = source_len l
  ∧ pos l + Z.of_nat (length ts) ≤ pos l'.
Proof.
  intros Hwf. revert l'. induction ts as [|t ts IH] using rev_ind; intros l'.
  - intros [fuel H]. simpl in H. unfold mret, M_ret in H.
    injection H as <-. simpl. split_and!; [done..|lia].
  - intros (l1 & Hts & fuel & Ht)%lexes_unsnoc.
    destruct (IH _ Hts) as (Hwf1 & Hsrc1 & Hlen1 & Hpos1).
    destruct (get_token_advances _ _ _ _ Hwf1 Ht) as (? & ? & ? & ?).
    rewrite length_app. simpl.
    split_and!; [done|congruence|congruence|lia].
Qed.

(** Of two runs of the lexer from the same state, the one that gets
    further returns the tokens of the other and more. *)
Lemma lexes_extends l ts1 ts2 l1 l2 :
  WF l → lexes l ts1 l1 → lexes l ts2 l2 → pos l1 < pos l2 →
  ∃ ts, ts2 = ts1 ++ ts ∧ ts ≠ [].
Proof.
  intros Hwf H1 H2 Hpos.
  destruct (decide (length ts2 ≤ length ts1)%nat) as [Hle|Hgt].
  - exfalso. rewrite <-(take_drop (length ts2) ts1) in H1.
    apply lexes_app_inv in H1 as (l3 & Ha & Hb).
    destruct (lexes_agree _ _ _ _ _ H2 Ha) as [_ <-].
    { rewrite length_take. lia. }
    destruct (lexes_source _ _ _ Hwf H2) as (Hwf2 & _).
    destruct (lexes_source _ _ _ Hwf2 Hb) as (_ & _ & _ & Hle').
    lia.
  - exists (drop (length ts1) ts2).
    pose proof (take_drop (length ts1) ts2) as Heq.
    rewrite <-Heq in H2. apply lexes_app_inv in H2 as (l3 & Ha & _).
    destruct (lexes_agree _ _ _ _ _ H1 Ha) as [Hts _].
    { rewrite length_take. lia. }
    split; [by rewrite <-Hts in Heq|].
    intros Hnil%(f_equal length). rewrite length_drop in Hnil.
    simpl in Hnil. lia.
Qed.

Lemma Good_source L0 p :
  WF L0 → Good L0 p →
  source (lex p) = source L0 ∧ source_len (lex p) = source_len L0.
Proof.
  intros Hwf [_ (cs & [Hlex _] & _)].
  by destruct (lexes_source _ _ _ Hwf Hlex) as (_ & ? & ? & _).
Qed.

(** A statement leaves the lexer further on than it found it. *)
Lemma statement_advances L0 fuel p p' :
  WF L0 → Good L0 p → statement fuel p = Ok () p' →
  Good L0 p' ∧ pos (lex p) < pos (lex p').
Proof.
  intros Hwf HG Hst.
  set (big := (fuel `max` S (measure p))%nat).
  assert (statement big p = Ok () p') as Hbig.
  { rewrite (statement_refines fuel big); [done|lia|by rewrite Hst]. }
  pose proof (statement_twp L0 big p HG ltac:(lia)) as H.
  apply (twp_Ok _ _ _ _ _ _ H) in Hbig as [HG' Hlt].
  split; [done|].
  destruct (Good_source _ _ Hwf HG) as [_ Hl].
  destruct (Good_source _ _ Hwf HG') as [_ Hl'].
  unfold measure in Hlt. lia.
Qed.

(** A statement consumes the tokens it starts at, up to a newline. *)
Lemma statement_consumes L0 fuel p p' cs :
  WF L0 → Good L0 p → window L0 cs p → statement fuel p = Ok () p' →
  ∃ ts t, window L0 (cs ++ ts ++ [t]) p' ∧ kind t = NEWLINE.
Proof.
  intros Hwf HG [Hlex _] Hst.
  destruct (statement_advances _ _ _ _ Hwf HG Hst) as [_ Hpos].
  set (big := (fuel `max` S (measure p))%nat).
  assert (statement big p = Ok () p') as Hbig.
  { rewrite (statement_refines fuel big); [done|lia|by rewrite Hst]. }
  pose proof (statement_finished_twp L0 big p HG ltac:(lia)) as H.
  apply (twp_Ok _ _ _ _ _ _ H) in Hbig as [_ (cs' & t & Hw' & Hk)].
  exists (drop (length cs) cs'), t. split; [|done].
  destruct (lexes_extends _ _ _ _ _ Hwf Hlex (proj1 Hw') Hpos)
    as (d & Heq & Hd).
  assert (length cs ≤ length cs')%nat as Hlen.
  { apply (f_equal length) in Heq. rewrite !length_app in Heq.
    simpl in Heq. destruct d; [done|]. simpl in Heq. lia. }
  apply (f_equal (take (length cs))) in Heq.
  rewrite <-!app_assoc, take_app_le, take_app_length in Heq by done.
  assert (cs ++ drop (length cs) cs' = cs') as Hcs.
  { rewrite <-Heq at 1. apply take_drop. }
  by rewrite app_assoc, Hcs.
Qed.

Lemma parse_phase_refines fuel1 fuel2 input :
  (fuel1 ≤ fuel2)%nat → parse_phase fuel1 input ≠ Timeout →
  parse_phase fuel2 input = parse_phase fuel1 input.
Proof.
  intros Hle. unfold parse_phase.
  pose proof (Parser_init_refines fuel1 fuel2 (Emitter_init "out.c") Hle
                (Lexer_init input)) as Hinit.
  destruct (Parser_init fuel1 _ _) as [p l| |]; [| |done].
  - rewrite Hinit by done.
    pose proof (program_parse_refines fuel1 fuel2 Hle p) as Hprog.
    destruct (program_parse fuel1 p); [| |done]; by rewrite Hprog.
  - by rewrite Hinit.
Qed.

Lemma parse_phase_enough fuel input :
  (enough_fuel input ≤ fuel)%nat →
  match parse_phase fuel input with
  | Success p => Good (Lexer_init input) p ∧ kind (current_token p) = EOF
  | Failure e => ∀ l, e ≠ SemUndeclaredLabel l
  | Timeout => False
  end.
Proof.
  intros Hfuel. unfold parse_phase, enough_fuel in *.
  pose proof (Lexer_init_WF input) as Hwf.
  assert (source_len (Lexer_init input) = Z.of_nat (S (String.length input)))
    as Hlen.
  { unfold Lexer_init, len. simpl. by rewrite length_append_LF. }
  assert (pos (Lexer_init input) = 0) as Hpos by done.
  assert (remaining (Lexer_init input) < fuel)%nat as Hrem
    by (unfold remaining; lia).
  pose proof (Parser_init_twp fuel (Emitter_init "out.c") _ Hwf Hrem) as Hi.
  unfold twp in Hi.
  destruct (Parser_init fuel _ _) as [p l|e l|]; [| |done].
  2:{ intros x ->. done. }
  destruct Hi as (Hl & Hok & Hw & Hp & Hsl & He & Hsym & _).
  assert (measure p < fuel)%nat as Hm by (unfold measure; rewrite Hl; lia).
  pose proof (program_parse_twp (Lexer_init input) fuel p Hok Hw Hsym
                ltac:(by rewrite He) Hm) as Hp'.
  unfold twp in Hp'. by destruct (program_parse fuel p).
Qed.

(** The same, for whatever fuel the parse phase came through with. *)
Lemma parse_phase_sound fuel input :
  match parse_phase fuel input with
  | Success p => Good (Lexer_init input) p ∧ kind (current_token p) = EOF
  | Failure e => ∀ l, e ≠ SemUndeclaredLabel l
  | Timeout => True
  end.
Proof.
  set (big := (fuel `max` enough_fuel input)%nat).
  pose proof (parse_phase_enough big input ltac:(lia)) as H.
  pose proof (parse_phase_refines fuel big input ltac:(lia)) as R.
  destruct (parse_phase fuel input); [| |done]; by rewrite R in H.
Qed.

Lemma compile_parse_phase order fuel input :
  compile order fuel input
  = match parse_phase fuel input with
    | Success p =>
        match program_check_labels order p with
        | Ok _ p' => Success p'
        | Abort e _ => Failure e
        | OutOfFuel => Timeout
        end
    | Failure e => Failure e
    | Timeout => Timeout
    end.
Proof.
  unfold compile, parse_phase, program.
  destruct (Parser_init fuel _ _) as [p l| |]; [|done..].
  unfold mbind at 1. unfold M_bind.
  by destruct (program_parse fuel p) as [[] p'| |].
Qed.

(** The label loop, decided. *)
Lemma program_check_labels_cases order p :
  set_order_ok order →
  (labels_gotoed p ⊆ labels_declared p
   ∧ program_check_labels order p = Ok () p)
  ∨ (∃ l, l ∈ labels_gotoed p ∧ (l ∉ labels_declared p)
          ∧ program_check_labels order p = Abort (SemUndeclaredLabel l) p).
Proof.
  intros Hord.
  destruct (decide (labels_gotoed p ⊆ labels_declared p)) as [Hsub|Hsub].
  - left. split; [done|]. by apply program_check_labels_Ok.
  - right. by apply program_check_labels_Abort.
Qed.

Lemma Good_start L0 p :
  cursor_ok p → window L0 [] p → symbols p = ∅ →
  header (emitter p) = prologue → Good L0 p.
Proof.
  intros Hok Hw Hsym Hhdr. split; [done|]. exists [].
  split_and!; [done|apply settled_nil|]. by split.
Qed.

Lemma advanced_Ok L0 (m : M Parser ()) p p' :
  twp m (advanced L0 p) no_label_error p → m p = Ok () p' → Good L0 p'.
Proof. intros H Heq. by destruct (twp_Ok _ _ _ _ _ _ H Heq). Qed.

Lemma emit_Good L0 c p : Good L0 p → Good L0 (set_emitter (Emitter.emit c (emitter p)) p).
Proof. apply same_view_Good. by repeat split. Qed.

Lemma emit_line_Good L0 c p :
  Good L0 p → Good L0 (set_emitter (Emitter.emit_line c (emitter p)) p).
Proof. apply same_view_Good. by repeat split. Qed.

(** The parser as [program] has it when it calls its first statement. *)
Lemma Good_first_statement fuel input p l :
  (enough_fuel input ≤ fuel)%nat →
  Parser_init fuel (Emitter_init "out.c") (Lexer_init input) = Ok p l →
  Good (Lexer_init input)
    (set_emitter
       (Emitter.header_line "int main(void){"
          (Emitter.header_line "#include <stdio.h>" (emitter p))) p).
Proof.
  intros Hfuel Hinit. unfold enough_fuel in Hfuel.
  assert (remaining (Lexer_init input) < fuel)%nat as Hrem.
  { unfold remaining, Lexer_init, len. simpl. rewrite length_append_LF. lia. }
  pose proof (Parser_init_twp fuel (Emitter_init "out.c") _
                (Lexer_init_WF input) Hrem) as Hi.
  apply (twp_Ok _ _ _ _ _ _ Hi) in Hinit
    as (Hl & [Hwf Hpk Hcur] & Hw & _ & _ & He & Hsym & _).
  apply Good_start; [by split|done|done|]. simpl. by rewrite He.
Qed.

(** * Properties of the compiler *)

(** ** Token texts *)

(** C1 (the code departs from it): a token's text is the exact lexeme it
    was scanned from.  The lexemes [>=], [<=] and [!=] yield two-character
    texts, but the branch for [==] builds its token from the first
    character alone: the EQEQ token has the text [=], and that is what
    the comparison rule emits between its operands. *)
Theorem eqeq_token_text_is_one_character :
  returned (get_token 4 (Lexer_init "==")) = Some (mkToken "=" EQEQ)
  ∧ returned (get_token 4 (Lexer_init ">=")) = Some (mkToken ">=" GTEQ)
  ∧ returned (get_token 4 (Lexer_init "<=")) = Some (mkToken "<=" LTEQ)
  ∧ returned (get_token 4 (Lexer_init "!=")) = Some (mkToken "!=" NOTEQ)
  ∧ main elements 40 (lines ["LET a = 1"; "IF a == 1 THEN"; "PRINT a"; "ENDIF"])
    = Success (lines
        ["#include <stdio.h>"; "int main(void){"; "float a;"; "a = 1;";
         "if(a=1){";
         "printf(" +:+ q +:+ "%.2f\n" +:+ q +:+ ", (float)(a));";
         "}"; "return 0;"; "}"]).
Proof. split_and!; vm_compute; reflexivity. Qed.

(** ** String literals *)

Lemma str1_inj c1 c2 : str1 c1 = str1 c2 → c1 = c2.
Proof. by intros [= ->]. Qed.

Lemma illegal_in_string_chars c :
  str1 c ∈ illegal_in_string ↔ c ∈ [CR; TAB; LF; PERCENT].
Proof.
  unfold illegal_in_string. rewrite !elem_of_cons, !elem_of_nil.
  split.
  - intros [H|[H|[H|[H|[H|[]]]]]]; try apply str1_inj in H; try discriminate H;
      tauto.
  - intros [->|[->|[->|[->|[]]]]]; tauto.
Qed.

(** C5 (the code departs from it): inside a string literal a carriage
    return, a tab, a newline, the two-character comment marker and a
    percent sign are illegal.  The scan compares one character at a time
    with the tuple of illegal strings, so the two-character entry never
    matches: exactly the four single characters are rejected, and a
    literal containing [//] is lexed and compiled. *)
Theorem double_slash_in_string_is_accepted :
  returned (get_token 8 (Lexer_init (q +:+ "a//b" +:+ q)))
  = Some (mkToken "a//b" STRING)
  ∧ (∀ c : ascii, str1 c ∈ illegal_in_string ↔ c ∈ [CR; TAB; LF; PERCENT])
  ∧ main elements 20 ("PRINT " +:+ q +:+ "a//b" +:+ q)
    = Success (lines
        ["#include <stdio.h>"; "int main(void){";
         "printf(" +:+ q +:+ "a//b\n" +:+ q +:+ ");"; "return 0;"; "}"]).
Proof.
  split_and!; [vm_compute; reflexivity| |vm_compute; reflexivity].
  apply illegal_in_string_chars.
Qed.

Lemma twp_while_false {S} fuel (cond : S → bool) body
    (Q : () → S → Prop) E s :
  cond s = false → Q () s → twp (while fuel cond body) Q E s.
Proof. intros Hc HQ. unfold twp. destruct fuel; simpl; by rewrite Hc. Qed.

Lemma twp_never {S A} (m : M S A) (Q : A → S → Prop) E s :
  twp m (λ _ _, False) E s → twp m Q E s.
Proof. intros H. eapply twp_conseq; [exact H|by intros ?? []|done]. Qed.

Ltac absurd_test :=
  match goal with
  | H : bool_decide _ = _ |- _ => by vm_compute in H
  end.

Lemma char_at_ext l s i :
  source s = source l → source_len s = source_len l →
  char_at s i = char_at l i.
Proof. unfold char_at. by intros -> ->. Qed.

(** C6 (as amended): a string literal with no closing quote before the
    end of the input makes [get_token] abort with the illegal-character
    error.  The scan stops inside the source, at a character its test
    rejects, and no carriage return, tab, newline or percent sign lies
    between the opening quote and that character: the abort comes no
    later than the first of these, hence at the latest at the newline
    appended to the source.  The scan never reaches the end-of-input
    character. *)
Theorem unterminated_string_aborts_at_illegal_character fuel l :
  WF l → char l = QUOTE →
  (∀ i, pos l < i < source_len l → index (source l) i ≠ QUOTE) →
  (remaining l < fuel)%nat →
  ∃ l', get_token fuel l = Abort LexIllegalString l'
        ∧ source l' = source l
        ∧ pos l < pos l' < source_len l
        ∧ char l' = char_at l (pos l')
        ∧ str1 (char l') ∈ illegal_in_string
        ∧ (∀ i, pos l < i < pos l' → char_at l i ∉ [CR; TAB; LF; PERCENT])
        ∧ char l' ≠ NUL.
Proof.
  intros Hwf Hq Hnoq Hfuel.
  assert (twp (get_token fuel) (λ _ _, False)
            (λ e l', e = LexIllegalString ∧ source l' = source l
               ∧ pos l < pos l' < source_len l
               ∧ char l' = char_at l (pos l')
               ∧ str1 (char l') ∈ illegal_in_string
               ∧ ∀ i, pos l < i < pos l' →
                      char_at l i ∉ [CR; TAB; LF; PERCENT]) l) as H.
  { unfold get_token. twp_step. unfold skip_whitespace.
    apply twp_while_false; [by rewrite Hq|].
    twp_step. unfold skip_comment. twp_step. twp_step.
    rewrite Hq. twp_step; [absurd_test|]. twp_step.
    twp_step. twp_step.
    apply twp_never.
    rewrite Hq.
    do 8 (twp_step; [absurd_test|]).
    twp_step; [|absurd_test].
    do 5 twp_step.
    assert (pos l + 1 < source_len l) as Hlt.
    { apply WF_char_not_LF; [done|by apply WF_char_not_NUL; rewrite ?Hq|
                             by rewrite Hq]. }
    apply (twp_while_then
             (λ s, WF s ∧ source s = source l ∧ source_len s = source_len l
                   ∧ pos l < pos s < source_len l
                   ∧ ∀ i, pos l < i < pos s →
                          char_at l i ∉ [CR; TAB; LF; PERCENT]) remaining).
    - split_and!; simpl; [by apply next_char_WF|done|done|lia|lia|].
      intros i Hi. lia.
    - unfold remaining in *. simpl. lia.
    - intros s (Hwfs & Hsrc & Hlen & Hpos & Hbefore) _.
      assert (char s = char_at l (pos s)) as Hcs
        by (rewrite (wf_char _ Hwfs); by apply char_at_ext).
      repeat twp_step.
      + match goal with H : bool_decide _ = true |- _ =>
          apply bool_decide_eq_true in H end.
        done.
      + match goal with H : bool_decide _ = false |- _ =>
          pose proof (not_illegal_not_LF _ H) as Hlf;
          apply bool_decide_eq_false in H; rename H into Hleg end.
        assert (pos s + 1 < source_len s)
          by (apply WF_char_not_LF; [done|lia|done]).
        split_and!; simpl; [by apply next_char_WF|done|done|lia|lia| |].
        * intros i Hi.
          destruct (decide (i = pos s)) as [->|Hne]; [|apply Hbefore; lia].
          rewrite <-Hcs. by rewrite <-illegal_in_string_chars.
        * apply remaining_next. lia.
    - intros s (Hwfs & Hsrc & Hlen & Hpos & _) Hc. exfalso.
      apply bool_decide_eq_false in Hc. apply dec_stable in Hc.
      rewrite (wf_char _ Hwfs) in Hc. unfold char_at in Hc.
      rewrite bool_decide_eq_false_2 in Hc by lia.
      rewrite Hsrc in Hc. by apply (Hnoq (pos s)); [lia|]. }
  unfold twp in H. destruct (get_token fuel l) as [t l'|e l'|]; [done| |done].
  destruct H as (-> & Hsrc & [Hp1 Hp2] & Hc & Hill & Hbefore).
  exists l'. split_and!; [done..|].
  intros Heq. rewrite Heq in Hill.
  apply illegal_in_string_chars in Hill.
  repeat (apply elem_of_cons in Hill as [Hill|Hill]; [discriminate Hill|]).
  by apply elem_of_nil in Hill.
Qed.

(** The hypotheses hold of an opening quote followed by [a%c]: the scan
    stops at the percent sign, before the appended newline. *)
Lemma unterminated_string_witness :
  ∃ l', get_token 6 (Lexer_init (q +:+ "a%c")) = Abort LexIllegalString l'
        ∧ source l' = source (Lexer_init (q +:+ "a%c"))
        ∧ pos (Lexer_init (q +:+ "a%c")) < pos l'
          < source_len (Lexer_init (q +:+ "a%c"))
        ∧ char l' = char_at (Lexer_init (q +:+ "a%c")) (pos l')
        ∧ str1 (char l') ∈ illegal_in_string
        ∧ (∀ i, pos (Lexer_init (q +:+ "a%c")) < i < pos l' →
                char_at (Lexer_init (q +:+ "a%c")) i
                ∉ [CR; TAB; LF; PERCENT])
        ∧ char l' ≠ NUL.
Proof.
  apply unterminated_string_aborts_at_illegal_character.
  - apply Lexer_init_WF.
  - reflexivity.
  - intros i Hi. change (source_len _) with 5 in Hi.
    change (pos _) with 0 in Hi.
    assert (i = 1 ∨ i = 2 ∨ i = 3 ∨ i = 4) as [->|[->|[->| ->]]] by lia;
      vm_compute; discriminate.
  - vm_compute. lia.
Defined.

(** C6 as stated fails: after an opening quote and [abc] the scan stops
    at offset 4, at the appended newline, with the illegal-character
    error; the end of the input (offset 5) is not reached and no error
    for an unterminated string exists. *)
Lemma unterminated_string_stops_at_newline :
  aborted (get_token 6 (Lexer_init (q +:+ "abc")))
  = Some (LexIllegalString,
          {| source := q +:+ "abc" +:+ str1 LF; source_len := 5;
             char := LF; pos := 4; pos_history := [4; 3; 2; 1; 0] |}).
Proof. vm_compute. reflexivity. Qed.

(** ** The cursor *)

Lemma get_token_in_range fuel l :
  WF l → InRange l →
  match get_token fuel l with
  | Ok t l' =>
      WF l' ∧ (∃ l1, l' = next_char_state l1 ∧ WF l1 ∧ InRange l1)
      ∧ (kind t ≠ EOF → InRange l')
  | Abort e l' => WF l' ∧ InRange l'
  | OutOfFuel => True
  end.
Proof.
  intros Hwf Hin.
  set (big := (fuel `max` S (remaining l))%nat).
  pose proof (get_token_refines fuel big ltac:(lia) l) as R.
  pose proof (get_token_twp big l Hwf ltac:(lia)) as H. unfold twp in H.
  destruct (get_token fuel l) as [t l'|e l'|]; [| |done];
    rewrite R in H by done.
  - destruct H as (l1 & -> & (Hwf1 & _ & _ & _ & _ & Hin1) & Hlt).
    split_and!; [by apply next_char_WF|by eauto|].
    intros Hne. apply next_char_InRange; auto.
  - destruct H as [(Hwf1 & _ & _ & _ & _ & Hin1) _]. auto.
Qed.

(** C8 (as amended): after construction and after every character
    advance made while the tokens before the end-of-input token are
    produced, the offset is a valid index or the source length.  A
    further [get_token] call keeps that for all its advances but its
    last, and for the last as well unless it returns the end-of-input
    token: that advance starts in range and ends at most one past the
    source length. *)
Theorem offset_in_range_before_eof input fuel n ts l :
  get_tokens fuel n (Lexer_init input) = Ok ts l →
  Forall (λ t, kind t ≠ EOF) ts →
  WF l ∧ InRange l
  ∧ match get_token fuel l with
    | Ok t l' =>
        (∃ l1, l' = next_char_state l1 ∧ WF l1 ∧ InRange l1)
        ∧ (kind t ≠ EOF → InRange l')
    | Abort e l' => InRange l'
    | OutOfFuel => True
    end.
Proof.
  intros Hts Hall.
  assert (WF l ∧ InRange l) as [Hwf Hin].
  { pose proof (Lexer_init_WF input) as Hwf0.
    pose proof (Lexer_init_InRange input) as Hin0.
    revert Hts Hall Hwf0 Hin0. generalize (Lexer_init input) as l0.
    revert ts. induction n as [|n IH]; intros ts l0; simpl.
    - unfold mret, M_ret. by intros [= _ <-].
    - unfold mbind, M_bind. intros Hts Hall Hwf0 Hin0.
      pose proof (get_token_in_range fuel l0 Hwf0 Hin0) as H0.
      destruct (get_token fuel l0) as [t l1| |]; [|done..].
      destruct (get_tokens fuel n l1) as [ts1 l2| |] eqn:Hts1; [|done..].
      unfold mret, M_ret in Hts. injection Hts as <- <-.
      apply Forall_cons in Hall as [Ht Hall].
      destruct H0 as (Hwf1 & _ & Hin1). by apply (IH ts1 l1); auto. }
  split_and!; [done..|].
  pose proof (get_token_in_range fuel l Hwf Hin) as H.
  destruct (get_token fuel l); [|tauto..]. tauto.
Qed.

(** The hypotheses hold after the first token of [A]. *)
Lemma offset_in_range_witness :
  ∃ ts l,
    get_tokens 3 1 (Lexer_init "A") = Ok ts l
    ∧ Forall (λ t, kind t ≠ EOF) ts
    ∧ WF l ∧ InRange l
    ∧ match get_token 3 l with
      | Ok t l' =>
          (∃ l1, l' = next_char_state l1 ∧ WF l1 ∧ InRange l1)
          ∧ (kind t ≠ EOF → InRange l')
      | Abort e l' => InRange l'
      | OutOfFuel => True
      end.
Proof.
  eexists _, _. split; [vm_compute; reflexivity|].
  split; [by repeat constructor|].
  eapply (offset_in_range_before_eof "A" 3 1); [vm_compute; reflexivity|].
  by repeat constructor.
Defined.

(** C8 as stated fails at the end-of-input token: on the empty input the
    second [get_token] call returns it and leaves the offset at 2, past
    the source length 1. *)
Lemma offset_past_length_after_eof :
  get_tokens 1 2 (Lexer_init EmptyString)
  = Ok [mkToken (str1 LF) NEWLINE; mkToken (str1 NUL) EOF]
       {| source := str1 LF; source_len := 1; char := NUL; pos := 2;
          pos_history := [2; 1; 0] |}.
Proof. vm_compute. reflexivity. Qed.

(** ** Termination *)

Lemma program_check_labels_terminates order p :
  program_check_labels order p ≠ OutOfFuel.
Proof.
  unfold program_check_labels. unfold mbind at 1. unfold M_bind, get.
  rewrite for_each_labels. by destruct (list_find _ _) as [[]|].
Qed.

(** C10: compilation terminates.  With fuel for two more iterations than
    the input has characters no loop of a compilation runs out of it;
    every [get_token] call strictly advances the cursor; every statement
    that returns has consumed at least one token, the last of them a
    newline, and leaves the lexer further on than it found it. *)
Theorem compilation_terminates :
  (∀ order fuel input,
     (enough_fuel input ≤ fuel)%nat → compile order fuel input ≠ Timeout)
  ∧ (∀ fuel l t l',
       WF l → get_token fuel l = Ok t l' → pos l < pos l')
  ∧ (∀ input fuel p p' cs,
       Good (Lexer_init input) p → window (Lexer_init input) cs p →
       statement fuel p = Ok () p' →
       pos (lex p) < pos (lex p')
       ∧ ∃ ts t, window (Lexer_init input) (cs ++ ts ++ [t]) p'
                 ∧ kind t = NEWLINE).
Proof.
  split_and!.
  - intros order fuel input Hfuel. rewrite compile_parse_phase.
    pose proof (parse_phase_enough fuel input Hfuel) as H.
    destruct (parse_phase fuel input) as [p| |]; [|done..].
    pose proof (program_check_labels_terminates order p).
    by destruct (program_check_labels order p).
  - intros fuel l t l' Hwf Ht.
    by destruct (get_token_advances _ _ _ _ Hwf Ht) as (_ & _ & _ & ?).
  - intros input fuel p p' cs HG Hw Hst. split.
    + by destruct (statement_advances _ _ _ _ (Lexer_init_WF input) HG Hst).
    + by eapply statement_consumes; [apply Lexer_init_WF|..].
Qed.

(** Fuel 9 is enough for [PRINT 1]: the compilation returns, and its one
    statement consumes the tokens up to the newline. *)
Lemma compilation_terminates_witness :
  (enough_fuel "PRINT 1" ≤ 9)%nat
  ∧ compile elements 9 "PRINT 1" ≠ Timeout
  ∧ ∃ p0 l p p',
      Parser_init 9 (Emitter_init "out.c") (Lexer_init "PRINT 1") = Ok p0 l
      ∧ p = set_emitter
              (Emitter.header_line "int main(void){"
                 (Emitter.header_line "#include <stdio.h>" (emitter p0))) p0
      ∧ statement 9 p = Ok () p'
      ∧ pos (lex p) < pos (lex p')
      ∧ ∃ ts t, window (Lexer_init "PRINT 1") ([] ++ ts ++ [t]) p'
                ∧ kind t = NEWLINE.
Proof.
  split; [vm_compute; lia|].
  split; [apply (proj1 compilation_terminates); vm_compute; lia|].
  eexists _, _, _, _. split; [vm_compute; reflexivity|].
  split; [reflexivity|].
  split; [vm_compute; reflexivity|].
  eapply (proj2 (proj2 compilation_terminates) "PRINT 1" 9%nat).
  - eapply (Good_first_statement 9%nat);
      [vm_compute; lia|vm_compute; reflexivity].
  - split; [|constructor]. exists 9%nat. vm_compute. reflexivity.
  - vm_compute. reflexivity.
Defined.

(** ** Labels *)

Lemma program_check_labels_state order p a p' :
  program_check_labels order p = Ok a p' → p' = p.
Proof.
  unfold program_check_labels. unfold mbind at 1. unfold M_bind, get.
  rewrite for_each_labels. destruct (list_find _ _) as [[]|]; [done|].
  by intros [= _ <-].
Qed.

Lemma program_check_labels_Ok_inv order p a p' :
  set_order_ok order → program_check_labels order p = Ok a p' →
  p' = p ∧ labels_gotoed p ⊆ labels_declared p.
Proof.
  intros Hord H. split; [by eapply program_check_labels_state|].
  destruct (program_check_labels_cases order p Hord)
    as [[Hsub _]|(l & _ & _ & Heq)]; [done|].
  by rewrite Heq in H.
Qed.

Lemma bind_Ok_inv {S A B} (m : M S A) (k : A → M S B) s b s' :
  (m ≫= k) s = Ok b s' → ∃ a s1, m s = Ok a s1 ∧ k a s1 = Ok b s'.
Proof.
  unfold mbind, M_bind. destruct (m s) as [a s1| |]; [|done..]. eauto.
Qed.



(** The iteration order of [elements] is one a run can have. *)
Lemma set_order_ok_elements : set_order_ok elements.
Proof. by intros s. Defined.

Lemma set_order_ok_reverse : set_order_ok (λ s, reverse (elements s)).
Proof. intros s. apply reverse_Permutation. Defined.


Example goto_before_label_compiles :
  main elements 40
    (lines ["GOTO x"; "LABEL x"; "PRINT " +:+ q +:+ "done" +:+ q])
  = Success (lines
      ["#include <stdio.h>"; "int main(void){"; "goto x;"; "x:";
       "printf(" +:+ q +:+ "done\n" +:+ q +:+ ");"; "return 0;"; "}"]).
Proof. vm_compute. reflexivity. Qed.

Example unused_label_compiles :
  main elements 40 "LABEL y"
  = Success (lines
      ["#include <stdio.h>"; "int main(void){"; "y:"; "return 0;"; "}"]).
Proof. vm_compute. reflexivity. Qed.

Example goto_without_label_fails :
  main elements 40 "GOTO y" = Failure (SemUndeclaredLabel "y")
  ∧ main (λ s, reverse (elements s)) 40 (lines ["PRINT 1"; "GOTO y"])
    = Failure (SemUndeclaredLabel "y").
Proof. split; by vm_compute. Qed.

(** ** Determinism *)

(** C9: two runs on the same source text, whatever the order in which
    each iterates over its sets and whatever fuel each has, produce the
    same output when the first succeeds and the second does not run out
    of fuel. *)
Theorem compile_deterministic order1 order2 fuel1 fuel2 input out :
  set_order_ok order1 → set_order_ok order2 →
  main order1 fuel1 input = Success out →
  main order2 fuel2 input ≠ Timeout →
  main order2 fuel2 input = Success out.
Proof.
  intros Hord1 Hord2 H1 H2. unfold main in *.
  rewrite compile_parse_phase in *.
  destruct (parse_phase fuel1 input) as [p1| |] eqn:Hp1; [|done..].
  destruct (program_check_labels order1 p1) as [[] p1'| |] eqn:Hc1; [|done..].
  apply program_check_labels_Ok_inv in Hc1 as [-> Hsub]; [|done].
  injection H1 as <-.
  assert (parse_phase fuel2 input = Success p1) as ->.
  { set (big := (fuel1 `max` fuel2)%nat).
    rewrite <-(parse_phase_refines fuel2 big) by
      (first [lia | by destruct (parse_phase fuel2 input)]).
    rewrite (parse_phase_refines fuel1 big); [done|lia|by rewrite Hp1]. }
  by rewrite program_check_labels_Ok.
Qed.

(** Two runs on [LET a = 3 / PRINT a]: different iteration orders,
    different fuel. *)
Lemma compile_deterministic_witness :
  main (λ s, reverse (elements s)) 30 (lines ["LET a = 3"; "PRINT a"])
  = Success (lines
      ["#include <stdio.h>"; "int main(void){"; "float a;"; "a = 3;";
       "printf(" +:+ q +:+ "%.2f\n" +:+ q +:+ ", (float)(a));";
       "return 0;"; "}"]).
Proof.
  apply (compile_deterministic elements _ 20 30).
  - apply set_order_ok_elements.
  - apply set_order_ok_reverse.
  - vm_compute. reflexivity.
  - vm_compute. discriminate.
Defined.

(** ** The symbol table *)

Lemma unseen_spec seen xs :
  NoDup (unseen seen xs) ∧ ∀ x, x ∈ unseen seen xs ↔ x ∈ xs ∧ x ∉ seen.
Proof.
  revert seen. induction xs as [|y xs IH]; intros seen; simpl.
  - split; [constructor|]. intros x. rewrite elem_of_nil. tauto.
  - case_bool_decide as Hy.
    + destruct (IH seen) as [Hnd Hin]. split; [done|].
      intros x. rewrite Hin, elem_of_cons. split.
      * intros [H1 H2]. auto.
      * intros [[->|H1] H2]; [done|auto].
    + destruct (IH ({[y]} ∪ seen)) as [Hnd Hin]. split.
      * constructor; [|done]. rewrite Hin.
        rewrite not_elem_of_union, not_elem_of_singleton. tauto.
      * intros x. rewrite !elem_of_cons, Hin.
        rewrite not_elem_of_union, not_elem_of_singleton.
        destruct (decide (x = y)) as [->|Hne]; tauto.
Qed.

Lemma first_occurrences_spec xs :
  NoDup (first_occurrences xs)
  ∧ ∀ x, x ∈ first_occurrences xs ↔ x ∈ xs.
Proof.
  destruct (unseen_spec ∅ xs) as [Hnd Hin]. split; [done|].
  intros x. rewrite Hin. split; [tauto|].
  intros H. split; [done|]. apply not_elem_of_empty.
Qed.

(** The lexer state determines how many tokens led to it. *)
Lemma lexes_unique l ts1 ts2 l' :
  WF l → lexes l ts1 l' → lexes l ts2 l' → ts1 = ts2.
Proof.
  intros Hwf.
  assert (∀ ts1 ts2, (length ts1 ≤ length ts2)%nat →
            lexes l ts1 l' → lexes l ts2 l' → ts1 = ts2) as Hle.
  { clear ts1 ts2. intros ts1 ts2 Hlen H1 H2.
    rewrite <-(take_drop (length ts1) ts2) in H2.
    apply lexes_app_inv in H2 as (l1 & Ha & Hb).
    destruct (lexes_agree _ _ _ _ _ H1 Ha) as [Heq <-].
    { rewrite length_take. lia. }
    destruct (lexes_source _ _ _ Hwf H1) as (Hwf' & _).
    destruct (lexes_source _ _ _ Hwf' Hb) as (_ & _ & _ & Hpos).
    assert (drop (length ts1) ts2 = []) as Hnil
      by (apply nil_length_inv; lia).
    rewrite <-(take_drop (length ts1) ts2), Hnil, app_nil_r. done. }
  intros H1 H2.
  destruct (decide (length ts1 ≤ length ts2)%nat); [by apply Hle|].
  symmetry. apply Hle; [lia|done..].
Qed.

Lemma window_unique L0 cs1 cs2 p :
  WF L0 → window L0 cs1 p → window L0 cs2 p → cs1 = cs2.
Proof.
  intros Hwf [H1 _] [H2 _].
  pose proof (lexes_unique _ _ _ _ Hwf H1 H2) as Heq.
  by apply app_inv_tail in Heq.
Qed.

(** A source text has one token sequence. *)
Lemma program_tokens_unique input toks1 toks2 :
  program_tokens input toks1 → program_tokens input toks2 → toks1 = toks2.
Proof.
  assert (∀ toks1 toks2, (length toks1 ≤ length toks2)%nat →
            program_tokens input toks1 → program_tokens input toks2 →
            toks1 = toks2) as Hle.
  { clear toks1 toks2.
    intros toks1 toks2 Hlen (e1 & l1 & H1 & Hk1 & Hall1)
           (e2 & l2 & H2 & Hk2 & Hall2).
    destruct (decide (length toks1 = length toks2)) as [Heq|Hne].
    - destruct (lexes_agree _ _ _ _ _ H1 H2) as [Happ _].
      { rewrite !length_app. simpl. lia. }
      by apply app_inj_tail in Happ as [? _].
    - exfalso.
      rewrite <-(take_drop (S (length toks1)) toks2), <-app_assoc in H2.
      apply lexes_app_inv in H2 as (l3 & Ha & _).
      destruct (lexes_agree _ _ _ _ _ H1 Ha) as [Happ _].
      { rewrite length_app, length_take. change (length [e1]) with 1%nat. lia. }
      assert (e1 ∈ toks2) as Hin.
      { apply (subseteq_take (S (length toks1))).
        rewrite <-Happ. apply elem_of_app. right. by apply list_elem_of_singleton. }
      rewrite Forall_forall in Hall2. by apply (Hall2 e1). }
  intros H1 H2.
  destruct (decide (length toks1 ≤ length toks2)%nat); [by apply Hle|].
  symmetry. apply Hle; [lia|done..].
Qed.

(** C4: when compilation succeeds, the symbol table is the set of the
    identifiers that follow a LET or INPUT keyword in the token sequence
    of the program, and the header is the two scaffolding lines followed
    by one declaration line for each of them, in the order of their first
    occurrences. *)
Theorem symbols_are_the_let_input_targets order fuel input p :
  compile order fuel input = Success p →
  ∃ toks,
    program_tokens input toks
    ∧ symbols p = list_to_set (let_input_targets toks)
    ∧ header (emitter p)
      = prologue
        +:+ declaration_lines (first_occurrences (let_input_targets toks))
    ∧ NoDup (first_occurrences (let_input_targets toks))
    ∧ ∀ x, x ∈ first_occurrences (let_input_targets toks) ↔ x ∈ symbols p.
Proof.
  rewrite compile_parse_phase. intros H.
  pose proof (parse_phase_sound fuel input) as Hsound.
  destruct (parse_phase fuel input) as [p1| |]; [|done..].
  destruct (program_check_labels order p1) as [[] p1'| |] eqn:Hc; [|done..].
  apply program_check_labels_state in Hc as ->. injection H as <-.
  destruct Hsound as [[_ (cs & [Hlex Hall] & _ & Hsym & Hhdr)] Heof].
  exists cs.
  destruct (first_occurrences_spec (let_input_targets cs)) as [Hnd Hin].
  split_and!; [|done..|].
  - replace (cs ++ [current_token p1; peek_token p1])
      with ((cs ++ [current_token p1]) ++ [peek_token p1]) in Hlex
      by (by rewrite <-app_assoc).
    apply lexes_unsnoc in Hlex as (l & Hlex & _).
    by exists (current_token p1), l.
  - intros x. by rewrite Hin, Hsym, elem_of_list_to_set.
Qed.

(** [a] is declared by a LET and twice more by INPUT; [b] once. *)
Lemma symbols_witness :
  ∃ p toks,
    compile elements 40 (lines ["LET a = 1"; "INPUT a"; "INPUT b"; "INPUT a"])
    = Success p
    ∧ program_tokens (lines ["LET a = 1"; "INPUT a"; "INPUT b"; "INPUT a"])
        toks
    ∧ let_input_targets toks = ["a"; "a"; "b"; "a"]
    ∧ symbols p = list_to_set (let_input_targets toks)
    ∧ header (emitter p)
      = lines ["#include <stdio.h>"; "int main(void){"; "float a;";
               "float b;"].
Proof.
  eexists _,
    [mkToken "LET" LET; mkToken "a" IDENT; mkToken "=" EQ;
     mkToken "1" NUMBER; mkToken (str1 LF) NEWLINE;
     mkToken "INPUT" INPUT; mkToken "a" IDENT; mkToken (str1 LF) NEWLINE;
     mkToken "INPUT" INPUT; mkToken "b" IDENT; mkToken (str1 LF) NEWLINE;
     mkToken "INPUT" INPUT; mkToken "a" IDENT; mkToken (str1 LF) NEWLINE;
     mkToken (str1 LF) NEWLINE].
  split; [vm_compute; reflexivity|].
  match goal with |- program_tokens ?input ?ts ∧ _ =>
    assert (program_tokens input ts) as Hconcrete
  end.
  { eexists _, _. split_and!.
    - exists 40%nat. vm_compute. reflexivity.
    - reflexivity.
    - by repeat constructor. }
  match goal with
  | |- _ ∧ _ ∧ symbols ?P = _ ∧ _ =>
      destruct (symbols_are_the_let_input_targets (elements : SetOrder) 40
                  (lines ["LET a = 1"; "INPUT a"; "INPUT b"; "INPUT a"]) P)
        as (toks & Htoks & Hsym & Hhdr & _); [vm_compute; reflexivity|]
  end.
  rewrite (program_tokens_unique _ _ _ Htoks Hconcrete) in Hsym, Hhdr.
  split_and!; [done|reflexivity|exact Hsym|].
  rewrite Hhdr. vm_compute. reflexivity.
Defined.

(** ** References to variables *)

Lemma primary_undeclared fuel p :
  kind (current_token p) = IDENT → text (current_token p) ∉ symbols p →
  primary fuel p = Abort (SemUndeclaredVariable (text (current_token p))) p.
Proof.
  intros Hk Hx. unfold primary, mbind, M_bind, get, check_token.
  rewrite Hk. simpl. by rewrite bool_decide_eq_true_2.
Qed.

Lemma unary_undeclared fuel p :
  kind (current_token p) = IDENT → text (current_token p) ∉ symbols p →
  unary fuel p = Abort (SemUndeclaredVariable (text (current_token p))) p.
Proof.
  intros Hk Hx. unfold unary, mbind, M_bind, get, check_token.
  rewrite Hk. simpl. by apply primary_undeclared.
Qed.

Lemma term_undeclared fuel p :
  kind (current_token p) = IDENT → text (current_token p) ∉ symbols p →
  term fuel p = Abort (SemUndeclaredVariable (text (current_token p))) p.
Proof.
  intros Hk Hx. unfold term. unfold mbind at 1. unfold M_bind.
  by rewrite unary_undeclared.
Qed.

Lemma expression_undeclared fuel p :
  kind (current_token p) = IDENT → text (current_token p) ∉ symbols p →
  expression fuel p
  = Abort (SemUndeclaredVariable (text (current_token p))) p.
Proof.
  intros Hk Hx. unfold expression. unfold mbind at 1. unfold M_bind.
  by rewrite term_undeclared.
Qed.

Lemma comparison_undeclared fuel p :
  kind (current_token p) = IDENT → text (current_token p) ∉ symbols p →
  comparison fuel p
  = Abort (SemUndeclaredVariable (text (current_token p))) p.
Proof.
  intros Hk Hx. unfold comparison. unfold mbind at 1. unfold M_bind.
  by rewrite expression_undeclared.
Qed.

(** C3: wherever an expression is about to be parsed, an identifier that
    is not the target of a LET or INPUT among the tokens consumed so far
    makes every expression rule abort at once, in the state it was called
    in, with the error for a variable referenced before assignment.
    Nothing but the tokens that precede the identifier in the source
    enters. *)
Theorem undeclared_identifier_is_rejected input fuel p cs :
  Good (Lexer_init input) p → window (Lexer_init input) cs p →
  kind (current_token p) = IDENT →
  text (current_token p) ∉ let_input_targets cs →
  (text (current_token p) ∉ symbols p)
  ∧ primary fuel p
    = Abort (SemUndeclaredVariable (text (current_token p))) p
  ∧ unary fuel p = Abort (SemUndeclaredVariable (text (current_token p))) p
  ∧ term fuel p = Abort (SemUndeclaredVariable (text (current_token p))) p
  ∧ expression fuel p
    = Abort (SemUndeclaredVariable (text (current_token p))) p
  ∧ comparison fuel p
    = Abort (SemUndeclaredVariable (text (current_token p))) p
  ∧ error_class (SemUndeclaredVariable (text (current_token p)))
    = SemanticError.
Proof.
  intros HG Hw Hk Hx.
  assert (text (current_token p) ∉ symbols p) as Hsym.
  { destruct HG as [_ (cs0 & Hw0 & _ & Hsym & _)].
    rewrite (window_unique _ _ _ _ (Lexer_init_WF input) Hw Hw0) in Hx.
    by rewrite Hsym, elem_of_list_to_set. }
  split_and!; [done| | | | | |done].
  - by apply primary_undeclared.
  - by apply unary_undeclared.
  - by apply term_undeclared.
  - by apply expression_undeclared.
  - by apply comparison_undeclared.
Qed.

Ltac run_side :=
  vm_compute;
  first [ done | lia
        | let H := fresh in intros [H|H]; discriminate H ].

Ltac run_rule H :=
  lazymatch goal with
  | HG : Good ?L0 ?p |- _ =>
      let HG' := fresh "HG" in
      eassert (Good L0 _) as HG';
      [ eapply (advanced_Ok L0 _ p);
        [ eapply H; [exact HG|run_side..]
        | vm_compute; reflexivity ]
      | clear HG; rename HG' into HG ]
  end.

(** The parser inside the block of [IF 0 > 1 THEN], about to parse the
    operand of [PRINT a]. *)
Lemma undeclared_identifier_witness :
  ∃ p cs,
    Good (Lexer_init (lines ["IF 0 > 1 THEN"; "PRINT a"; "ENDIF"])) p
    ∧ window (Lexer_init (lines ["IF 0 > 1 THEN"; "PRINT a"; "ENDIF"])) cs p
    ∧ (kind <$> cs) = [IF; NUMBER; GT; NUMBER; THEN; NEWLINE; PRINT]
    ∧ current_token p = mkToken "a" IDENT
    ∧ (text (current_token p) ∉ symbols p)
    ∧ expression 40 p = Abort (SemUndeclaredVariable "a") p.
Proof.
  set (src := lines ["IF 0 > 1 THEN"; "PRINT a"; "ENDIF"]).
  destruct (Parser_init 40 (Emitter_init "out.c") (Lexer_init src))
    as [p0 l0| |] eqn:Hinit; [|by vm_compute in Hinit..].
  pose proof (Good_first_statement 40 src p0 l0 ltac:(vm_compute; lia) Hinit)
    as HG.
  vm_compute in Hinit. injection Hinit as <- <-.
  run_rule consume_twp.
  apply (emit_Good _ "if(") in HG.
  run_rule comparison_twp.
  run_rule (match_twp (Lexer_init src) 40 THEN).
  run_rule nl_twp.
  apply (emit_line_Good _ "){") in HG.
  run_rule consume_twp.
  eexists _,
    [mkToken "IF" IF; mkToken "0" NUMBER; mkToken ">" GT; mkToken "1" NUMBER;
     mkToken "THEN" THEN; mkToken (str1 LF) NEWLINE; mkToken "PRINT" PRINT].
  split; [exact HG|].
  assert (∀ A B C D : Prop, A → (A → B ∧ C ∧ D) → A ∧ B ∧ C ∧ D) as Hcut
    by tauto.
  apply Hcut.
  - split; [|by repeat constructor]. exists 40%nat. vm_compute. reflexivity.
  - intros Hw. split; [reflexivity|]. split; [reflexivity|].
    destruct (undeclared_identifier_is_rejected src 40 _ _ HG Hw)
      as (Hsym & _ & _ & _ & Hexpr & _);
      [reflexivity|apply not_elem_of_nil|].
    split; [exact Hsym|exact Hexpr].
Defined.

Example undeclared_variable_examples :
  main elements 40 "PRINT a" = Failure (SemUndeclaredVariable "a")
  ∧ main elements 40 (lines ["IF 0 > 1 THEN"; "PRINT a"; "ENDIF"])
    = Failure (SemUndeclaredVariable "a")
  ∧ main elements 40
      (lines ["GOTO init"; "LABEL use"; "PRINT a"; "GOTO done";
              "LABEL init"; "LET a = 1"; "GOTO use"; "LABEL done"])
    = Failure (SemUndeclaredVariable "a").
Proof. split_and!; by vm_compute. Qed.

(** ** LET *)

Lemma while_false_eq {S} fuel (cond : S → bool) body s :
  cond s = false → while fuel cond body s = Ok () s.
Proof. intros Hc. destruct fuel; simpl; by rewrite Hc. Qed.

(** C7: a LET statement declares its target before it parses its
    expression.  For every identifier [x], from every parser state, the
    statement [LET x = x] followed by a newline is accepted, whether or
    not [x] was in the symbol table: the statement adds [x] to it, emits
    the declaration unless [x] was there, and emits the assignment. *)
Theorem let_target_is_declared_before_its_expression
    fuel rec p x l1 l2 l3 l4 l5 t4 t5 :
  kind (current_token p) = LET →
  peek_token p = mkToken x IDENT →
  get_token fuel (lex p) = Ok (mkToken "=" EQ) l1 →
  get_token fuel l1 = Ok (mkToken x IDENT) l2 →
  get_token fuel l2 = Ok (mkToken (str1 LF) NEWLINE) l3 →
  get_token fuel l3 = Ok t4 l4 →
  kind t4 ≠ NEWLINE →
  get_token fuel l4 = Ok t5 l5 →
  ∃ p',
    statement_body fuel rec p = Ok () p'
    ∧ symbols p' = {[x]} ∪ symbols p
    ∧ header (emitter p')
      = (if bool_decide (x ∈ symbols p) then header (emitter p)
         else header (emitter p) +:+ declaration_line x)
    ∧ code (emitter p')
      = ((code (emitter p) +:+ (x +:+ " = ")) +:+ x) +:+ (";" +:+ str1 LF)
    ∧ current_token p' = t4 ∧ peek_token p' = t5 ∧ lex p' = l5.
Proof.
  intros Hk Hpk H1 H2 H3 H4 Hk4 H5.
  destruct p as [lx em [ctext ckind] pk syms ld lg]. simpl in *. subst.
  unfold statement_body, mbind, M_bind, get, check_token. simpl.
  unfold next_token, mbind, M_bind, modify, on_lex. simpl. rewrite H1. simpl.
  unfold declare, mbind, M_bind, get, when, modify, header_line. simpl.
  assert (∀ s : Parser,
            current_token s = mkToken x IDENT →
            peek_token s = mkToken "=" EQ → lex s = l1 → x ∈ symbols s →
            ∃ p', match
                    match
                      match_ fuel IDENT
                        (set_emitter
                           (Emitter.emit (x +:+ " = ") (emitter s)) s)
                    with
                    | Ok _ s0 =>
                        match match_ fuel EQ s0 with
                        | Ok _ s1 =>
                            match expression fuel s1 with
                            | Ok _ s2 => emit_line ";" s2
                            | Abort e s2 => Abort e s2
                            | OutOfFuel => OutOfFuel
                            end
                        | Abort e s1 => Abort e s1
                        | OutOfFuel => OutOfFuel
                        end
                    | Abort e s0 => Abort e s0
                    | OutOfFuel => OutOfFuel
                    end
                  with
                  | Ok _ s' => nl fuel s'
                  | Abort e s' => Abort e s'
                  | OutOfFuel => OutOfFuel
                  end = Ok () p'
                  ∧ symbols p' = symbols s
                  ∧ header (emitter p') = header (emitter s)
                  ∧ code (emitter p')
                    = ((code (emitter s) +:+ (x +:+ " = ")) +:+ x)
                      +:+ (";" +:+ str1 LF)
                  ∧ current_token p' = t4 ∧ peek_token p' = t5
                  ∧ lex p' = l5) as Hrest.
  { intros [lx' em' cur' pk' syms' ld' lg']. simpl. intros -> -> -> Hin.
    unfold match_, next_token, mbind, M_bind, get, when, modify, on_lex,
      check_token. simpl. rewrite H2. simpl. rewrite H3. simpl.
    unfold expression, term, unary, primary, emit_current, next_token,
      mbind, M_bind, get, gets, when, modify, on_lex, check_token, emit.
    simpl. rewrite bool_decide_eq_false_2 by (intros Hn; by apply Hn).
    simpl. rewrite H4. simpl.
    rewrite !while_false_eq by done. simpl.
    unfold nl, match_, next_token, mbind, M_bind, get, when, modify, on_lex,
      check_token, emit_line. simpl. rewrite H5. simpl.
    rewrite while_false_eq.
    - eexists. split; [reflexivity|]. simpl. by split_and!.
    - simpl. unfold check_token. simpl. by apply bool_decide_eq_false_2. }
  case_bool_decide as Hnew.
  - simpl.
    destruct (Hrest
      (set_emitter
         (Emitter.header_line ("float " +:+ x +:+ ";") em)
         (mkParser l1 em (mkToken x IDENT) (mkToken "=" EQ)
                   ({[x]} ∪ syms) ld lg)))
      as (p' & Hp' & Hs & Hh & Hc & Hrem); [done|done|done| |].
    { simpl. apply elem_of_union_l. by apply elem_of_singleton. }
    exists p'. rewrite bool_decide_eq_false_2 by done.
    destruct Hrem as (? & ? & ?).
    split_and!; [exact Hp'|by rewrite Hs|by rewrite Hh|by rewrite Hc|done..].
  - unfold mret, M_ret.
    destruct (Hrest
      (mkParser l1 em (mkToken x IDENT) (mkToken "=" EQ) syms ld lg))
      as (p' & Hp' & Hs & Hh & Hc & Hrem); [done..|].
    exists p'. rewrite bool_decide_eq_true_2 by done.
    destruct Hrem as (? & ? & ?).
    split_and!; [exact Hp'| |by rewrite Hh|by rewrite Hc|done..].
    rewrite Hs. simpl. apply set_eq. intros y.
    rewrite elem_of_union, elem_of_singleton. split; [tauto|].
    intros [->|]; done.
Qed.

(** [LET a = a] as the first statement of a program: [a] is not in the
    symbol table when the statement starts. *)
Lemma let_target_witness :
  ∃ p,
    returned (Parser_init 10 (Emitter_init "out.c") (Lexer_init "LET a = a"))
    = Some p
    ∧ symbols p = ∅
    ∧ ∃ p',
        statement_body 10 (statement 10) p = Ok () p'
        ∧ symbols p' = {["a"]} ∪ symbols p
        ∧ header (emitter p') = lines ["float a;"]
        ∧ code (emitter p') = lines ["a = a;"].
Proof.
  eexists _. split; [vm_compute; reflexivity|]. split; [reflexivity|].
  match goal with
  | |- ∃ p', statement_body _ _ ?P = _ ∧ _ =>
      edestruct (let_target_is_declared_before_its_expression
                   10 (statement 10) P "a")
        as (p' & Hst & Hsym & Hhdr & Hcode & _)
  end.
  - reflexivity.
  - reflexivity.
  - vm_compute. reflexivity.
  - vm_compute. reflexivity.
  - vm_compute. reflexivity.
  - vm_compute. reflexivity.
  - vm_compute. discriminate.
  - vm_compute. reflexivity.
  - exists p'. split_and!; [exact Hst|exact Hsym| |].
    + rewrite Hhdr. vm_compute. reflexivity.
    + rewrite Hcode. vm_compute. reflexivity.
Defined.

Example let_a_equals_a_compiles :
  main elements 10 "LET a = a"
  = Success (lines
      ["#include <stdio.h>"; "int main(void){"; "float a;"; "a = a;";
       "return 0;"; "}"]).
Proof. vm_compute. reflexivity. Qed.

(** * Further properties of the code *)

(** * Partial correctness *)

Section wp_rules.
Context {S : Type}.
Implicit Types (s : S) (E : Error → S → Prop).

Lemma wp_ret {A} (a : A) (Q : A → S → Prop) E s :
  Q a s → wp (mret a) Q E s.
Proof. done. Qed.

Lemma wp_bind {A B} (m : M S A) (f : A → M S B) (Q : B → S → Prop) E s :
  wp m (λ a s', wp (f a) Q E s') E s → wp (m ≫= f) Q E s.
Proof. unfold wp, mbind, M_bind. by destruct (m s). Qed.

Lemma wp_conseq {A} (m : M S A) (Q Q' : A → S → Prop) E E' s :
  wp m Q E s →
  (∀ a s', Q a s' → Q' a s') → (∀ e s', E e s' → E' e s') →
  wp m Q' E' s.
Proof. unfold wp. destruct (m s); auto. Qed.

Lemma wp_get (Q : S → S → Prop) E s : Q s s → wp get Q E s.
Proof. done. Qed.

Lemma wp_gets {A} (f : S → A) (Q : A → S → Prop) E s :
  Q (f s) s → wp (gets f) Q E s.
Proof. done. Qed.

Lemma wp_modify (f : S → S) (Q : () → S → Prop) E s :
  Q () (f s) → wp (modify f) Q E s.
Proof. done. Qed.

Lemma wp_abort {A} e (Q : A → S → Prop) E s : E e s → wp (abort e) Q E s.
Proof. done. Qed.

Lemma wp_when (b : bool) (m : M S ()) (Q : () → S → Prop) E s :
  (b = true → wp m Q E s) → (b = false → Q () s) → wp (when b m) Q E s.
Proof. intros H1 H2. destruct b; [by apply H1 | by apply H2]. Qed.

(** A loop whose body keeps [I] ends, if it ends, in a state where [I]
    holds and the test fails. *)
Lemma wp_while (I : S → Prop) fuel cond body (Q : () → S → Prop) E s :
  I s →
  (∀ s0, I s0 → cond s0 = true → wp body (λ _ s', I s') E s0) →
  (∀ s', I s' → cond s' = false → Q () s') →
  wp (while fuel cond body) Q E s.
Proof.
  intros HI Hbody HQ. revert s HI.
  induction fuel as [|fuel IH]; intros s HI; unfold wp; simpl.
  - destruct (cond s) eqn:Hc; [done|by apply HQ].
  - destruct (cond s) eqn:Hc; [|by apply HQ].
    specialize (Hbody s HI Hc). unfold wp in Hbody.
    destruct (body s) as [[] s'| |]; [|done..].
    by apply IH.
Qed.

Lemma wp_Ok {A} (m : M S A) Q E s a s' : wp m Q E s → m s = Ok a s' → Q a s'.
Proof. unfold wp. intros H Heq. by rewrite Heq in H. Qed.

Lemma wp_Abort {A} (m : M S A) Q E s e s' :
  wp m Q E s → m s = Abort e s' → E e s'.
Proof. unfold wp. intros H Heq. by rewrite Heq in H. Qed.
End wp_rules.

Lemma wp_on_lex {A} (m : M Lexer A) (Q : A → Parser → Prop) E p :
  wp m (λ a l, Q a (set_lex l p)) (λ e l, E e (set_lex l p)) (lex p) →
  wp (on_lex m) Q E p.
Proof. unfold wp, on_lex. by destruct (m (lex p)). Qed.

Ltac wp_step :=
  lazymatch goal with
  | |- wp (mbind _ _) _ _ _ => apply wp_bind
  | |- wp (mret _) _ _ _ => apply wp_ret
  | |- wp get _ _ _ => apply wp_get
  | |- wp (gets _) _ _ _ => apply wp_gets
  | |- wp (modify _) _ _ _ => apply wp_modify
  | |- wp next_char _ _ _ => apply wp_modify
  | |- wp (abort _) _ _ _ => apply wp_abort
  | |- wp (when _ _) _ _ _ => apply wp_when; intros ?
  | |- wp (on_lex _) _ _ _ => apply wp_on_lex
  | |- wp (if ?b then _ else _) _ _ _ => destruct b eqn:?
  end; cbv beta.

Ltac wp_use H :=
  eapply wp_conseq; [eapply H| |].

(** * Slices of the source *)

Lemma substring_one n (s : string) :
  (n < String.length s)%nat →
  String.substring n 1 s = str1 (default NUL (String.get n s)).
Proof.
  revert n. induction s as [|c s IH]; intros n Hn; simpl in *; [lia|].
  destruct n as [|n]; simpl.
  - by destruct s.
  - apply IH. lia.
Qed.

Lemma substring_two n (s : string) :
  (S n < String.length s)%nat →
  String.substring n 2 s
  = str1 (default NUL (String.get n s))
    +:+ str1 (default NUL (String.get (S n) s)).
Proof.
  revert n. induction s as [|c s IH]; intros n Hn; simpl in *; [lia|].
  destruct n as [|n]; simpl.
  - destruct s as [|c' s]; simpl in *; [lia|]. by destruct s.
  - apply IH. lia.
Qed.

Lemma slice_one (s : string) a :
  0 ≤ a < len s → slice s a (a + 1) = str1 (index s a).
Proof.
  intros Ha. unfold slice, index, len in *.
  replace (Z.to_nat (a + 1 - a)) with 1%nat by lia.
  apply substring_one. lia.
Qed.

Lemma slice_two (s : string) a :
  0 ≤ a → a + 1 < len s →
  slice s a (a + 2) = str1 (index s a) +:+ str1 (index s (a + 1)).
Proof.
  intros Ha Hb. unfold slice, index, len in *.
  replace (Z.to_nat (a + 2 - a)) with 2%nat by lia.
  replace (Z.to_nat (a + 1)) with (S (Z.to_nat a)) by lia.
  apply substring_two. lia.
Qed.

Lemma char_at_index l i :
  i < source_len l → char_at l i = index (source l) i.
Proof. intros H. unfold char_at. by rewrite bool_decide_eq_false_2 by lia. Qed.

Lemma char_at_not_NUL l i : char_at l i ≠ NUL → i < source_len l.
Proof. unfold char_at. case_bool_decide; [done|lia]. Qed.

Lemma char_at_same l l' i :
  source l' = source l → source_len l' = source_len l →
  char_at l' i = char_at l i.
Proof. intros Hs Hl. unfold char_at. by rewrite Hs, Hl. Qed.

Lemma peek_char_at l : peek l = char_at l (pos l + 1).
Proof. done. Qed.

(** * What the lexer returns *)

Lemma WF_char l : WF l → char l = char_at l (pos l).
Proof. apply wf_char. Qed.

Lemma skip_whitespace_wp fuel l :
  WF l →
  wp (skip_whitespace fuel)
    (λ _ s, WF s ∧ source s = source l ∧ source_len s = source_len l
            ∧ pos l ≤ pos s
            ∧ (∀ i, pos l ≤ i < pos s → blank (char_at l i) = true)
            ∧ blank (char s) = false)
    (λ _ _, False) l.
Proof.
  intros Hwf. unfold skip_whitespace.
  apply (wp_while
           (λ s, WF s ∧ source s = source l ∧ source_len s = source_len l
                 ∧ pos l ≤ pos s
                 ∧ ∀ i, pos l ≤ i < pos s → blank (char_at l i) = true)).
  - split_and!; [done|done|done|lia|]. intros i Hi. lia.
  - intros s (Hwfs & Hsrc & Hlen & Hpos & Hbl) Hc. wp_step.
    split_and!; simpl; [by apply next_char_WF|done|done|lia|].
    intros i Hi. destruct (decide (i = pos s)) as [->|]; [|apply Hbl; lia].
    rewrite <-(char_at_same l s) by done. by rewrite <-WF_char.
  - intros s (Hwfs & Hsrc & Hlen & Hpos & Hbl) Hc. by split_and!.
Qed.

Lemma skip_comment_wp fuel l l1 :
  WF l1 → source l1 = source l → source_len l1 = source_len l →
  wp (skip_comment fuel)
    (λ _ s, WF s ∧ source s = source l ∧ source_len s = source_len l
            ∧ pos l1 ≤ pos s
            ∧ (if bool_decide (char l1 = HASH)
               then char s = LF ∧ ∀ i, pos l1 ≤ i < pos s → char_at l i ≠ LF
               else s = l1))
    (λ _ _, False) l1.
Proof.
  intros Hwf Hsrc Hlen. unfold skip_comment. do 2 wp_step.
  destruct (bool_decide (char l1 = HASH)) eqn:Hh; simpl.
  - apply (wp_while
             (λ s, WF s ∧ source s = source l ∧ source_len s = source_len l
                   ∧ pos l1 ≤ pos s
                   ∧ ∀ i, pos l1 ≤ i < pos s → char_at l i ≠ LF)).
    + split_and!; [done|done|done|lia|]. intros i Hi. lia.
    + intros s (Hwfs & Hsrc' & Hlen' & Hpos & Hno) Hc. wp_step.
      split_and!; simpl; [by apply next_char_WF|done|done|lia|].
      intros i Hi. destruct (decide (i = pos s)) as [->|]; [|apply Hno; lia].
      rewrite <-(char_at_same l s) by done. rewrite <-WF_char by done.
      by apply bool_decide_eq_true in Hc.
    + intros s (Hwfs & Hsrc' & Hlen' & Hpos & Hno) Hc.
      split_and!; [done|done|done|done| |done].
      apply bool_decide_eq_false in Hc. by apply dec_stable in Hc.
  - wp_step. split_and!; [done|done|done|lia|done].
Qed.

Lemma width_shape l a b t k :
  kind t = k → width k = Some (b - a) → token_shape l a b t.
Proof.
  intros Hk Hw. unfold token_shape. rewrite Hk.
  destruct k; try discriminate Hw; exact Hw.
Qed.

(** A token of one character. *)
Lemma one_char_found l l2 k :
  WF l2 → source l2 = source l → source_len l2 = source_len l →
  width k = Some 1 → spelling k = Some (str1 (char l2)) →
  starts k (char l2) →
  token_found l (pos l2) (mkToken (str1 (char l2)) k) l2.
Proof.
  intros Hwf Hsrc Hlen Hw Hsp Hst.
  split_and!; [done|done|done|lia| | | |]; simpl.
  - by rewrite <-(char_at_same l l2), <-WF_char.
  - destruct (decide (k = EOF)) as [->|Hk].
    + by injection Hsp as <-.
    + assert (char l2 ≠ NUL) as Hc.
      { intros Heq. rewrite Heq in Hsp.
        destruct k; try discriminate Hw; try discriminate Hsp; done. }
      pose proof (WF_char_not_NUL _ Hwf Hc) as Hlt.
      pose proof (wf_pos _ Hwf). pose proof (wf_len _ Hwf) as Hl.
      assert (lexeme (source l) k (pos l2) (pos l2 + 1)
              = slice (source l) (pos l2) (pos l2 + 1)) as ->
        by (destruct k; try discriminate Hw; done).
      rewrite <-Hsrc, slice_one by lia.
      by rewrite <-char_at_index, <-WF_char by done.
  - intros s Hs. by simplify_eq.
  - apply (width_shape _ _ _ _ k); [done|]. rewrite Hw. f_equal. lia.
Qed.

Lemma two_char_operator_wp l l2 k c E :
  WF l2 → source l2 = source l → source_len l2 = source_len l →
  char l2 = c → peek l2 = EQUALS →
  width k = Some 2 → spelling k = Some (str1 c +:+ str1 EQUALS) →
  starts k c →
  wp (two_char_operator k) (token_found l (pos l2)) E l2.
Proof.
  intros Hwf Hsrc Hlen Hc Hp Hw Hsp Hst. unfold two_char_operator.
  repeat wp_step.
  assert (pos l2 + 1 < source_len l2) as Hlt
    by (apply WF_peek_not_NUL; [done|by rewrite Hp]).
  pose proof (wf_pos _ Hwf). pose proof (wf_len _ Hwf) as Hl.
  change (char (next_char_state l2)) with (peek l2). rewrite Hp, Hc.
  split_and!; simpl; [by apply next_char_WF|done|done|lia| | | |].
  - by rewrite <-(char_at_same l l2), <-WF_char, Hc.
  - assert (lexeme (source l) k (pos l2) (pos l2 + 1 + 1)
            = slice (source l) (pos l2) (pos l2 + 2)) as ->.
    { replace (pos l2 + 1 + 1) with (pos l2 + 2) by lia.
      destruct k; try discriminate Hw; done. }
    rewrite <-Hsrc, slice_two by lia.
    rewrite <-!char_at_index by lia.
    by rewrite <-WF_char, <-peek_char_at, Hc, Hp by done.
  - intros s Hs. by simplify_eq.
  - apply (width_shape _ _ _ _ k); [done|]. rewrite Hw. f_equal. lia.
Qed.

(** The loops that advance while the next character passes [test]. *)
Lemma peek_loop_wp fuel (test : ascii → bool) l a l2
    (Q : () → Lexer → Prop) E :
  WF l2 → source l2 = source l → source_len l2 = source_len l →
  a ≤ pos l2 →
  (∀ i, a < i ≤ pos l2 → test (char_at l i) = true) →
  (∀ s, WF s → source s = source l → source_len s = source_len l →
        pos l2 ≤ pos s →
        (∀ i, a < i ≤ pos s → test (char_at l i) = true) →
        test (peek s) = false → Q () s) →
  wp (while fuel (λ s, test (peek s)) next_char) Q E l2.
Proof.
  intros Hwf Hsrc Hlen Ha Hin HQ.
  apply (wp_while
           (λ s, WF s ∧ source s = source l ∧ source_len s = source_len l
                 ∧ pos l2 ≤ pos s
                 ∧ ∀ i, a < i ≤ pos s → test (char_at l i) = true)).
  - split_and!; [done|done|done|lia|done].
  - intros s (Hwfs & Hsrc' & Hlen' & Hpos & Hall) Hc. wp_step.
    split_and!; simpl; [by apply next_char_WF|done|done|lia|].
    intros i Hi. destruct (decide (i = pos s + 1)) as [->|]; [|apply Hall; lia].
    rewrite <-(char_at_same l s) by done. by rewrite <-peek_char_at.
  - intros s (Hwfs & Hsrc' & Hlen' & Hpos & Hall) Hc. by apply HQ.
Qed.

Lemma is_keyword_Some txt k :
  is_keyword txt = Some k → k ∈ keyword_kinds ∧ TokenType.name k = txt.
Proof.
  unfold is_keyword. intros [_ H]%find_some.
  rewrite !andb_true_iff in H. destruct H as [[Hn Hlo] Hhi].
  apply bool_decide_eq_true in Hn. split; [|done].
  destruct k; try (by vm_compute in Hlo); try (by vm_compute in Hhi);
    unfold keyword_kinds; set_solver.
Qed.

Lemma keyword_shape l a b t :
  is_keyword (text t) = Some (kind t) → word l a b → token_shape l a b t.
Proof.
  intros Hk Hw. destruct (is_keyword_Some _ _ Hk) as [Hin _].
  unfold token_shape.
  destruct (kind t) eqn:Hkind;
    try (exfalso; revert Hin; unfold keyword_kinds;
         rewrite !elem_of_cons, elem_of_nil; intros Hin;
         repeat destruct Hin as [Hin|Hin]; by try discriminate Hin);
    simpl; by split.
Qed.

Ltac one_char H :=
  wp_step; apply one_char_found;
    [done|done|done|done|by rewrite H|by rewrite H].

Lemma get_token_wp fuel l :
  WF l → wp (get_token fuel) (token_ok l) (error_ok l) l.
Proof.
  intros Hwf. unfold get_token.
  wp_step. wp_use skip_whitespace_wp; [done| |done].
  intros [] l1 (Hwf1 & Hsrc1 & Hlen1 & Hpos1 & Hbl1 & Hnb1). simpl.
  wp_step. wp_use (skip_comment_wp fuel l l1); [done..| |done].
  intros [] l2 (Hwf2 & Hsrc2 & Hlen2 & Hpos2 & Hcom). simpl.
  assert (skipped l (pos l2)) as Hsk.
  { exists (pos l1). rewrite <-(char_at_same l l1), <-WF_char by done.
    split_and!; [lia|lia|done|done|].
    destruct (bool_decide (char l1 = HASH)).
    - destruct Hcom as [Hc Hno]. split; [|done].
      by rewrite <-(char_at_same l l2), <-WF_char.
    - by rewrite Hcom. }
  assert (blank (char l2) = false ∧ char l2 ≠ HASH) as [Hnb2 Hnh2].
  { destruct (bool_decide (char l1 = HASH)) eqn:Hh.
    - destruct Hcom as [-> _]. done.
    - rewrite Hcom. split; [done|]. by apply bool_decide_eq_false in Hh. }
  do 3 wp_step.
  eapply (wp_conseq _ (token_found l (pos l2)) _ (token_refused l (pos l2))).
  2:{ intros t l3 (Hwf3 & Hsrc3 & Hlen3 & Hpos3 & Hst & Htxt & Hsp & Hsh).
      repeat wp_step.
      split_and!; simpl; [by apply next_char_WF|done|done|].
      exists (pos l2). split_and!; [done|lia|done..]. }
  2:{ intros e l3 Hr. by exists (pos l2). }
  pose proof (wf_pos _ Hwf2) as Hp2. pose proof (wf_len _ Hwf2) as Hl2.
  pose proof (WF_char _ Hwf2) as Hc2.
  (* + - * / *)
  do 4 (wp_step;
    [ match goal with H : bool_decide _ = true |- _ =>
        apply bool_decide_eq_true in H; one_char H
      end | ]).
  (* = and == *)
  wp_step.
  { match goal with H : bool_decide _ = true |- _ =>
      apply bool_decide_eq_true in H; rename H into Hc end.
    do 3 wp_step.
    - match goal with H : bool_decide _ = true |- _ =>
        apply bool_decide_eq_true in H; rename H into Hp end.
      repeat wp_step.
      assert (pos l2 + 1 < source_len l2) as Hlt
        by (apply WF_peek_not_NUL; [done|by rewrite Hp]).
      split_and!; simpl; [by apply next_char_WF|done|done|lia| | | |].
      + by rewrite <-(char_at_same l l2), <-WF_char.
      + replace (pos l2 + 1 + 1 - 1) with (pos l2 + 1) by lia.
        rewrite <-Hsrc2, slice_one by lia.
        by rewrite <-char_at_index, <-WF_char by first [done|lia].
      + intros s [= <-]. by rewrite Hc.
      + apply (width_shape _ _ _ _ EQEQ); [done|]. simpl. f_equal. lia.
    - one_char Hc. }
  (* > >= < <= *)
  do 2 (wp_step;
    [ match goal with H : bool_decide _ = true |- _ =>
        apply bool_decide_eq_true in H; rename H into Hc end;
      do 3 wp_step;
      [ match goal with H : bool_decide _ = true |- _ =>
          apply bool_decide_eq_true in H; rename H into Hp end;
        by eapply two_char_operator_wp
      | one_char Hc ]
    | ]).
  (* ! and != *)
  wp_step.
  { match goal with H : bool_decide _ = true |- _ =>
      apply bool_decide_eq_true in H; rename H into Hc end.
    do 3 wp_step.
    - match goal with H : bool_decide _ = true |- _ =>
        apply bool_decide_eq_true in H; rename H into Hp end.
      by eapply two_char_operator_wp.
    - wp_step. split_and!; [done|done|done|lia|done|done|done|].
      match goal with H : bool_decide _ = false |- _ =>
        by apply bool_decide_eq_false in H end. }
  (* string literal *)
  wp_step.
  { match goal with H : bool_decide _ = true |- _ =>
      apply bool_decide_eq_true in H; rename H into Hc end.
    do 5 wp_step. simpl.
    assert (char_at l (pos l2) = QUOTE) as Hq
      by (by rewrite <-(char_at_same l l2), <-WF_char).
    apply (wp_while
             (λ s, WF s ∧ source s = source l ∧ source_len s = source_len l
                   ∧ pos l2 < pos s
                   ∧ ∀ i, pos l2 < i < pos s → char_at l i ∉ string_stop)).
    - split_and!; simpl; [by apply next_char_WF|done|done|lia|].
      intros i Hi. lia.
    - intros s (Hwfs & Hsrc' & Hlen' & Hpos & Hall) Hnq.
      apply bool_decide_eq_true in Hnq.
      do 4 wp_step.
      + wp_step.
        match goal with H : bool_decide _ = true |- _ =>
          apply bool_decide_eq_true, illegal_in_string_chars in H end.
        split_and!; [done|done|done|lia|done|lia|done|done].
      + wp_step.
        match goal with H : bool_decide _ = false |- _ =>
          apply bool_decide_eq_false in H; rename H into Hleg end.
        rewrite illegal_in_string_chars in Hleg.
        split_and!; simpl; [by apply next_char_WF|done|done|lia|].
        intros i Hi.
        destruct (decide (i = pos s)) as [->|]; [|apply Hall; lia].
        rewrite <-(char_at_same l s) by done. rewrite <-WF_char by done.
        unfold string_stop. rewrite elem_of_cons. intros [Heq|Hin]; [done|].
        done.
    - intros s (Hwfs & Hsrc' & Hlen' & Hpos & Hall) Hnq.
      apply bool_decide_eq_false in Hnq. apply dec_stable in Hnq.
      repeat wp_step.
      split_and!; simpl; [done|done|done|lia|done| |done|].
      + replace (pos s + 1 - 1) with (pos s) by lia. by rewrite Hsrc'.
      + unfold token_shape, quoted. simpl.
        replace (pos s + 1 - 1) with (pos s) by lia.
        split_and!; [done|lia| |done].
        by rewrite <-(char_at_same l s), <-WF_char. }
  (* number *)
  wp_step.
  { match goal with H : isdigit _ = true |- _ => rename H into Hd end.
    do 3 wp_step.
    assert (isdigit (char_at l (pos l2)) = true) as Hd0
      by (by rewrite <-(char_at_same l l2), <-WF_char).
    apply (peek_loop_wp _ isdigit l (pos l2)); [done|done|done|lia| |].
    { intros i Hi. lia. }
    intros s Hwfs Hsrc' Hlen' Hpos Hall Hend.
    assert (digits l (pos l2) (pos s + 1)) as Hdig.
    { intros i Hi. destruct (decide (i = pos l2)) as [->|]; [done|].
      apply Hall. lia. }
    do 4 wp_step.
    - match goal with H : bool_decide _ = true |- _ =>
        apply bool_decide_eq_true in H; rename H into Hdot end.
      do 6 wp_step.
      + wp_step. simpl.
        split_and!; simpl;
          [by apply next_char_WF|done|done|lia|done|lia|done|done|].
        match goal with H : negb _ = true |- _ =>
          by apply negb_true_iff in H end.
      + match goal with H : negb _ = false |- _ =>
          apply negb_false_iff in H; rename H into Hfrac end.
        simpl in Hfrac.
        apply (peek_loop_wp _ isdigit l (pos s + 1)); simpl;
          [by apply next_char_WF|done|done|lia| |].
        { intros i Hi. lia. }
        intros s' Hwfs' Hsrc'' Hlen'' Hpos' Hall' Hend'. simpl in Hpos'.
        assert (pos s + 1 < pos s') as Hmore.
        { destruct (decide (pos s' = pos s + 1)) as [Heq|]; [|lia].
          exfalso. rewrite peek_char_at, Heq in Hend'.
          rewrite peek_char_at in Hfrac. simpl in Hfrac.
          rewrite (char_at_same l (next_char_state s)) in Hfrac by done.
          rewrite (char_at_same l s') in Hend' by done.
          congruence. }
        repeat wp_step.
        split_and!; simpl; [done|done|done|lia|done|by rewrite Hsrc''|done|].
        unfold token_shape, numeral. simpl. exists (pos s + 1).
        split_and!; [lia|lia|done| |].
        * right. split_and!; [|lia|].
          -- by rewrite <-(char_at_same l s), <-peek_char_at.
          -- intros i Hi. apply Hall'. lia.
        * by rewrite <-(char_at_same l s'), <-peek_char_at.
    - repeat wp_step.
      split_and!; simpl; [done|done|done|lia|done|by rewrite Hsrc'|done|].
      unfold token_shape, numeral. simpl. exists (pos s + 1).
      split_and!; [lia|lia|done|by left|].
      by rewrite <-(char_at_same l s), <-peek_char_at. }
  (* identifier or keyword *)
  wp_step.
  { match goal with H : isalpha _ = true |- _ => rename H into Ha end.
    do 3 wp_step.
    assert (isalpha (char_at l (pos l2)) = true) as Ha0
      by (by rewrite <-(char_at_same l l2), <-WF_char).
    apply (peek_loop_wp _ isalnum l (pos l2)); [done|done|done|lia| |].
    { intros i Hi. lia. }
    intros s Hwfs Hsrc' Hlen' Hpos Hall Hend.
    assert (word l (pos l2) (pos s + 1)) as Hword.
    { split_and!; [done| |].
      - intros i Hi. apply Hall. lia.
      - by rewrite <-(char_at_same l s), <-peek_char_at. }
    do 2 wp_step. cbv zeta.
    destruct (is_keyword _) as [k|] eqn:Hkw; wp_step.
    - destruct (is_keyword_Some _ _ Hkw) as [Hin Hname].
      split_and!; simpl; [done|done|done|lia| | | |].
      + revert Hin. unfold keyword_kinds.
        rewrite !elem_of_cons, elem_of_nil. intros Hin.
        repeat destruct Hin as [->|Hin]; done.
      + rewrite Hsrc'.
        revert Hin. unfold keyword_kinds.
        rewrite !elem_of_cons, elem_of_nil. intros Hin.
        repeat destruct Hin as [->|Hin]; done.
      + intros s0 Hs0. rewrite <-Hname.
        revert Hin Hs0. unfold keyword_kinds.
        rewrite !elem_of_cons, elem_of_nil. intros Hin.
        repeat destruct Hin as [->|Hin]; try done; by intros [= <-].
      + by apply keyword_shape.
    - split_and!; simpl; [done|done|done|lia|done|by rewrite Hsrc'|done|].
      by split. }
  (* newline *)
  wp_step.
  { match goal with H : bool_decide _ = true |- _ =>
      apply bool_decide_eq_true in H; one_char H
    end. }
  (* end of input *)
  wp_step.
  { match goal with H : bool_decide _ = true |- _ =>
      apply bool_decide_eq_true in H; one_char H
    end. }
  (* anything else *)
  wp_step. split_and!; [done|done|done|lia|done|done|].
  split_and!; [|done|done].
  unfold blank in Hnb2. apply bool_decide_eq_false in Hnb2.
  repeat match goal with H : bool_decide _ = false |- _ =>
    apply bool_decide_eq_false in H end.
  rewrite !elem_of_cons, elem_of_nil in *. tauto.
Qed.

Lemma get_token_token_ok fuel l t l' :
  WF l → get_token fuel l = Ok t l' → token_ok l t l'.
Proof. intros Hwf. apply wp_Ok with (E := error_ok l), get_token_wp, Hwf. Qed.

Lemma get_token_error_ok fuel l e l' :
  WF l → get_token fuel l = Abort e l' → error_ok l e l'.
Proof.
  intros Hwf. apply wp_Abort with (Q := token_ok l), get_token_wp, Hwf.
Qed.

(** X1: every token carries the text it was scanned from: the characters
    from its first offset to the offset the lexer is left at; between
    the quotes for a string, the first of the two characters for [==],
    the NUL character at the end of the input. *)
Theorem token_text_is_its_lexeme fuel l t l' :
  WF l → get_token fuel l = Ok t l' →
  ∃ a, skipped l a ∧ a < pos l' ∧ source l' = source l
       ∧ text t = lexeme (source l) (kind t) a (pos l').
Proof.
  intros Hwf Ht.
  destruct (get_token_token_ok _ _ _ _ Hwf Ht)
    as (_ & Hsrc & _ & a & Hsk & Hlt & _ & Htxt & _).
  by exists a.
Qed.

(** The keyword of [  LET x], found after two blanks. *)
Lemma token_text_is_its_lexeme_witness :
  WF (Lexer_init "  LET x")
  ∧ get_token 4 (Lexer_init "  LET x")
    = Ok (mkToken "LET" LET)
         (mkLexer ("  LET x" +:+ str1 LF) 8 " " 5 [5; 4; 3; 2; 1; 0])
  ∧ ∃ a, skipped (Lexer_init "  LET x") a ∧ a < 5
         ∧ "  LET x" +:+ str1 LF = source (Lexer_init "  LET x")
         ∧ "LET" = lexeme (source (Lexer_init "  LET x")) LET a 5.
Proof.
  assert (WF (Lexer_init "  LET x")) as Hwf by apply Lexer_init_WF.
  assert (get_token 4 (Lexer_init "  LET x")
          = Ok (mkToken "LET" LET)
               (mkLexer ("  LET x" +:+ str1 LF) 8 " " 5 [5; 4; 3; 2; 1; 0]))
    as Ht by (vm_compute; reflexivity).
  split; [exact Hwf|]. split; [exact Ht|].
  exact (token_text_is_its_lexeme _ _ _ _ Hwf Ht).
Defined.

(** X2: the kind of an operator, newline, end-of-input or keyword token
    fixes its text. *)
Theorem token_text_by_kind fuel l t l' s :
  WF l → get_token fuel l = Ok t l' → spelling (kind t) = Some s →
  text t = s.
Proof.
  intros Hwf Ht Hs.
  destruct (get_token_token_ok _ _ _ _ Hwf Ht)
    as (_ & _ & _ & a & _ & _ & _ & _ & Hsp & _).
  by apply Hsp.
Qed.

Lemma token_text_by_kind_witness :
  WF (Lexer_init "<= 1")
  ∧ get_token 4 (Lexer_init "<= 1")
    = Ok (mkToken "<=" LTEQ)
         (mkLexer ("<= 1" +:+ str1 LF) 5 " " 2 [2; 1; 0])
  ∧ spelling LTEQ = Some "<="
  ∧ text (mkToken "<=" LTEQ) = "<=".
Proof.
  assert (WF (Lexer_init "<= 1")) as Hwf by apply Lexer_init_WF.
  assert (get_token 4 (Lexer_init "<= 1")
          = Ok (mkToken "<=" LTEQ)
               (mkLexer ("<= 1" +:+ str1 LF) 5 " " 2 [2; 1; 0]))
    as Ht by (vm_compute; reflexivity).
  split; [exact Hwf|]. split; [exact Ht|]. split; [reflexivity|].
  exact (token_text_by_kind _ _ _ _ "<=" Hwf Ht eq_refl).
Defined.

(** X3: the first character of a token fits its kind, and the kinds of
    fixed width take that many characters. *)
Theorem token_kind_fits_first_character fuel l t l' :
  WF l → get_token fuel l = Ok t l' →
  ∃ a, skipped l a ∧ starts (kind t) (char_at l a)
       ∧ ∀ w, width (kind t) = Some w → pos l' = a + w.
Proof.
  intros Hwf Ht.
  destruct (get_token_token_ok _ _ _ _ Hwf Ht)
    as (_ & _ & _ & a & Hsk & _ & Hst & _ & _ & Hsh).
  exists a. split_and!; [done..|]. intros w Hw.
  unfold token_shape in Hsh.
  destruct (kind t); try discriminate Hw;
    (case_bool_decide as Hin;
     [ exfalso; unfold keyword_kinds in Hin;
       rewrite !elem_of_cons, elem_of_nil in Hin; naive_solver
     | rewrite Hw in Hsh; injection Hsh as Hsh; lia ]).
Qed.

Lemma token_kind_fits_first_character_witness :
  WF (Lexer_init "<= 1")
  ∧ get_token 4 (Lexer_init "<= 1")
    = Ok (mkToken "<=" LTEQ)
         (mkLexer ("<= 1" +:+ str1 LF) 5 " " 2 [2; 1; 0])
  ∧ ∃ a, skipped (Lexer_init "<= 1") a
         ∧ starts LTEQ (char_at (Lexer_init "<= 1") a)
         ∧ ∀ w, width LTEQ = Some w → 2 = a + w.
Proof.
  assert (WF (Lexer_init "<= 1")) as Hwf by apply Lexer_init_WF.
  assert (get_token 4 (Lexer_init "<= 1")
          = Ok (mkToken "<=" LTEQ)
               (mkLexer ("<= 1" +:+ str1 LF) 5 " " 2 [2; 1; 0]))
    as Ht by (vm_compute; reflexivity).
  split; [exact Hwf|]. split; [exact Ht|].
  exact (token_kind_fits_first_character _ _ _ _ Hwf Ht).
Defined.

(** X4: an identifier or keyword token covers a letter and the longest run
    of letters and digits after it; it is a keyword token exactly when
    that text is the name of a keyword. *)
Theorem word_token_is_maximal fuel l t l' :
  WF l → get_token fuel l = Ok t l' →
  kind t = IDENT ∨ kind t ∈ keyword_kinds →
  ∃ a, skipped l a ∧ word l a (pos l')
       ∧ text t = slice (source l) a (pos l')
       ∧ is_keyword (text t)
         = (if bool_decide (kind t = IDENT) then None else Some (kind t)).
Proof.
  intros Hwf Ht Hk.
  destruct (get_token_token_ok _ _ _ _ Hwf Ht)
    as (_ & _ & _ & a & Hsk & _ & _ & Htxt & _ & Hsh).
  exists a. unfold token_shape in Hsh. unfold keyword_kinds in Hk.
  rewrite !elem_of_cons, elem_of_nil in Hk.
  destruct (kind t) eqn:Hkind;
    try (exfalso; repeat destruct Hk as [Hk|Hk]; by try discriminate Hk);
    simpl in Hsh; destruct Hsh as [Hw Hkw]; by split_and!.
Qed.

Lemma word_token_is_maximal_witness :
  WF (Lexer_init "LETTER=1")
  ∧ get_token 7 (Lexer_init "LETTER=1")
    = Ok (mkToken "LETTER" IDENT)
         (mkLexer ("LETTER=1" +:+ str1 LF) 9 "=" 6 [6; 5; 4; 3; 2; 1; 0])
  ∧ (IDENT = IDENT ∨ IDENT ∈ keyword_kinds)
  ∧ ∃ a, skipped (Lexer_init "LETTER=1") a
         ∧ word (Lexer_init "LETTER=1") a 6
         ∧ "LETTER" = slice (source (Lexer_init "LETTER=1")) a 6
         ∧ is_keyword "LETTER" = None.
Proof.
  assert (WF (Lexer_init "LETTER=1")) as Hwf by apply Lexer_init_WF.
  assert (get_token 7 (Lexer_init "LETTER=1")
          = Ok (mkToken "LETTER" IDENT)
               (mkLexer ("LETTER=1" +:+ str1 LF) 9 "=" 6
                        [6; 5; 4; 3; 2; 1; 0]))
    as Ht by (vm_compute; reflexivity).
  split; [exact Hwf|]. split; [exact Ht|]. split; [by left|].
  exact (word_token_is_maximal _ _ _ _ Hwf Ht (or_introl eq_refl)).
Defined.

(** X5: a number token covers digits, then possibly a dot followed by at
    least one digit, and no digit follows it. *)
Theorem number_token_is_a_numeral fuel l t l' :
  WF l → get_token fuel l = Ok t l' → kind t = NUMBER →
  ∃ a, skipped l a ∧ numeral l a (pos l')
       ∧ text t = slice (source l) a (pos l').
Proof.
  intros Hwf Ht Hk.
  destruct (get_token_token_ok _ _ _ _ Hwf Ht)
    as (_ & _ & _ & a & Hsk & _ & _ & Htxt & _ & Hsh).
  exists a. unfold token_shape in Hsh. rewrite Hk in *. by split_and!.
Qed.

Lemma number_token_is_a_numeral_witness :
  WF (Lexer_init "3.14.15")
  ∧ get_token 7 (Lexer_init "3.14.15")
    = Ok (mkToken "3.14" NUMBER)
         (mkLexer ("3.14.15" +:+ str1 LF) 8 "." 4 [4; 3; 2; 1; 0])
  ∧ NUMBER = NUMBER
  ∧ ∃ a, skipped (Lexer_init "3.14.15") a
         ∧ numeral (Lexer_init "3.14.15") a 4
         ∧ "3.14" = slice (source (Lexer_init "3.14.15")) a 4.
Proof.
  assert (WF (Lexer_init "3.14.15")) as Hwf by apply Lexer_init_WF.
  assert (get_token 7 (Lexer_init "3.14.15")
          = Ok (mkToken "3.14" NUMBER)
               (mkLexer ("3.14.15" +:+ str1 LF) 8 "." 4 [4; 3; 2; 1; 0]))
    as Ht by (vm_compute; reflexivity).
  split; [exact Hwf|]. split; [exact Ht|]. split; [reflexivity|].
  exact (number_token_is_a_numeral _ _ _ _ Hwf Ht eq_refl).
Defined.

(** X6: a string token covers an opening quote, the next quote, and between
    them its text, which holds no quote, carriage return, tab, newline
    or percent sign. *)
Theorem string_token_is_quoted fuel l t l' :
  WF l → get_token fuel l = Ok t l' → kind t = STRING →
  ∃ a, skipped l a ∧ quoted l a (pos l')
       ∧ text t = slice (source l) (a + 1) (pos l' - 1).
Proof.
  intros Hwf Ht Hk.
  destruct (get_token_token_ok _ _ _ _ Hwf Ht)
    as (_ & _ & _ & a & Hsk & _ & _ & Htxt & _ & Hsh).
  exists a. unfold token_shape in Hsh. rewrite Hk in *. by split_and!.
Qed.

Lemma string_token_is_quoted_witness :
  WF (Lexer_init (q +:+ "a b" +:+ q))
  ∧ get_token 7 (Lexer_init (q +:+ "a b" +:+ q))
    = Ok (mkToken "a b" STRING)
         (mkLexer (q +:+ "a b" +:+ q +:+ str1 LF) 6 LF 5
                  [5; 4; 3; 2; 1; 0])
  ∧ STRING = STRING
  ∧ ∃ a, skipped (Lexer_init (q +:+ "a b" +:+ q)) a
         ∧ quoted (Lexer_init (q +:+ "a b" +:+ q)) a 5
         ∧ "a b" = slice (source (Lexer_init (q +:+ "a b" +:+ q)))
                     (a + 1) (5 - 1).
Proof.
  assert (WF (Lexer_init (q +:+ "a b" +:+ q))) as Hwf by apply Lexer_init_WF.
  assert (get_token 7 (Lexer_init (q +:+ "a b" +:+ q))
          = Ok (mkToken "a b" STRING)
               (mkLexer (q +:+ "a b" +:+ q +:+ str1 LF) 6 LF 5
                        [5; 4; 3; 2; 1; 0]))
    as Ht by (vm_compute; reflexivity).
  split; [exact Hwf|]. split; [exact Ht|]. split; [reflexivity|].
  exact (string_token_is_quoted _ _ _ _ Hwf Ht eq_refl).
Defined.

(** X7: [get_token] aborts in four ways only, each on the character the
    lexer is left at: a character no token starts with; an exclamation
    mark not followed by an equals sign; the dot of a number not
    followed by a digit, whose offset the error carries; a carriage
    return, tab, newline or percent sign before the closing quote of a
    string. *)
Theorem lexer_aborts_on_the_offending_character fuel l e l' :
  WF l → get_token fuel l = Abort e l' →
  ∃ a, skipped l a ∧ token_refused l a e l'.
Proof. intros Hwf He. exact (get_token_error_ok _ _ _ _ Hwf He). Qed.

Lemma lexer_aborts_on_the_offending_character_witness :
  WF (Lexer_init "12.x")
  ∧ get_token 7 (Lexer_init "12.x")
    = Abort (LexIllegalNumber 2)
            (mkLexer ("12.x" +:+ str1 LF) 5 "." 2 [2; 1; 0])
  ∧ ∃ a, skipped (Lexer_init "12.x") a
         ∧ token_refused (Lexer_init "12.x") a (LexIllegalNumber 2)
             (mkLexer ("12.x" +:+ str1 LF) 5 "." 2 [2; 1; 0]).
Proof.
  assert (WF (Lexer_init "12.x")) as Hwf by apply Lexer_init_WF.
  assert (get_token 7 (Lexer_init "12.x")
          = Abort (LexIllegalNumber 2)
                  (mkLexer ("12.x" +:+ str1 LF) 5 "." 2 [2; 1; 0]))
    as He by (vm_compute; reflexivity).
  split; [exact Hwf|]. split; [exact He|].
  exact (lexer_aborts_on_the_offending_character _ _ _ _ Hwf He).
Defined.

(** ** Blanks, comments and the end of the input *)

Lemma skipped_at_hash l a :
  WF l → char l = HASH → skipped l a →
  char_at l a = LF ∧ ∀ i, pos l ≤ i < a → char_at l i ≠ LF.
Proof.
  intros Hwf Hc (a0 & [H1 H2] & Hbl & Hnb & Hif).
  assert (char_at l (pos l) = HASH) as Hh by (by rewrite <-WF_char).
  assert (a0 = pos l) as ->.
  { destruct (decide (a0 = pos l)) as [|Hne]; [done|]. exfalso.
    specialize (Hbl (pos l) ltac:(lia)). by rewrite Hh in Hbl. }
  rewrite Hh in Hif. by rewrite bool_decide_eq_true_2 in Hif.
Qed.

(** X8: a comment is lexed as the newline that ends it: whatever follows
    the [#] on its line yields no token and no error. *)
Theorem comment_is_lexed_as_its_newline fuel l :
  WF l → char l = HASH → (remaining l < fuel)%nat →
  ∃ l', get_token fuel l = Ok (mkToken (str1 LF) NEWLINE) l'
        ∧ char_at l (pos l' - 1) = LF
        ∧ ∀ i, pos l ≤ i < pos l' - 1 → char_at l i ≠ LF.
Proof.
  intros Hwf Hc Hfuel.
  pose proof (get_token_twp fuel l Hwf Hfuel) as Ht.
  pose proof (get_token_wp fuel l Hwf) as Hw. unfold twp, wp in *.
  destruct (get_token fuel l) as [t l'|e l'|]; [| |done].
  - clear Ht. destruct Hw as (_ & _ & _ & a & Hsk & _ & Hst & _ & Hsp & Hsh).
    destruct (skipped_at_hash _ _ Hwf Hc Hsk) as [Hlf Hno].
    rewrite Hlf in Hst.
    assert (kind t = NEWLINE) as Hk
      by (destruct (kind t); try done; by vm_compute in Hst).
    unfold token_shape in Hsh.
    rewrite Hk in Hsp, Hsh. specialize (Hsp _ eq_refl).
    simpl in Hsh. injection Hsh as Hb.
    exists l'. replace (pos l' - 1) with a by lia.
    split_and!; [|done|done].
    destruct t as [txt k]. simpl in *. by subst.
  - exfalso. clear Ht. destruct Hw as (a & Hsk & Hr).
    destruct (skipped_at_hash _ _ Hwf Hc Hsk) as [Hlf Hno].
    destruct Hr as (Hwf' & Hsrc & Hlen & Hle & He).
    assert (pos l' = a → char l' = LF) as Hat.
    { intros Heq. rewrite WF_char, (char_at_same l l'), Heq by done. done. }
    destruct e; try done.
    + destruct He as (Hp & Hch & _). by rewrite Hat in Hch.
    + destruct He as (Hq & _). by rewrite Hlf in Hq.
    + destruct He as (_ & Hlt & Hd & _). specialize (Hd a ltac:(lia)).
      by rewrite Hlf in Hd.
    + destruct He as (Hp & Hch & Hun & _). rewrite Hat in Hch by done.
      subst c. apply Hun. rewrite !elem_of_cons. tauto.
Qed.

Lemma comment_is_lexed_as_its_newline_witness :
  WF (Lexer_init "# 1.x !")
  ∧ char (Lexer_init "# 1.x !") = HASH
  ∧ (remaining (Lexer_init "# 1.x !") < 9)%nat
  ∧ ∃ l', get_token 9 (Lexer_init "# 1.x !")
          = Ok (mkToken (str1 LF) NEWLINE) l'
          ∧ char_at (Lexer_init "# 1.x !") (pos l' - 1) = LF
          ∧ ∀ i, pos (Lexer_init "# 1.x !") ≤ i < pos l' - 1 →
                 char_at (Lexer_init "# 1.x !") i ≠ LF.
Proof.
  assert (WF (Lexer_init "# 1.x !")) as Hwf by apply Lexer_init_WF.
  assert (char (Lexer_init "# 1.x !") = HASH) as Hc by reflexivity.
  assert (remaining (Lexer_init "# 1.x !") < 9)%nat as Hf
    by (vm_compute; lia).
  split; [exact Hwf|]. split; [exact Hc|]. split; [exact Hf|].
  exact (comment_is_lexed_as_its_newline _ _ Hwf Hc Hf).
Defined.

Lemma while_true_eq fuel (cond : Lexer → bool) l :
  cond l = true →
  while (S fuel) cond next_char l = while fuel cond next_char (next_char_state l).
Proof. intros Hc. simpl. by rewrite Hc. Qed.

Lemma bind_same_outcome {S A B} (m1 m2 : M S A) (f : A → M S B) s1 s2 :
  m1 s1 = m2 s2 → (m1 ≫= f) s1 = (m2 ≫= f) s2.
Proof. unfold mbind, M_bind. by intros ->. Qed.

Lemma bind_not_OutOfFuel {S A B} (m : M S A) (f : A → M S B) s :
  (m ≫= f) s ≠ OutOfFuel → m s ≠ OutOfFuel.
Proof. unfold mbind, M_bind. by destruct (m s). Qed.

Lemma skip_whitespace_refines fuel1 fuel2 :
  (fuel1 ≤ fuel2)%nat →
  refines (skip_whitespace fuel1) (skip_whitespace fuel2).
Proof. intros Hle. unfold skip_whitespace. refines_solve. Qed.

Lemma get_token_blank fuel l :
  blank (char l) = true →
  get_token fuel (next_char_state l) ≠ OutOfFuel →
  get_token (S fuel) l = get_token fuel (next_char_state l).
Proof.
  intros Hb Hne.
  transitivity (get_token (S fuel) (next_char_state l)).
  - unfold get_token. apply bind_same_outcome.
    unfold skip_whitespace at 1. rewrite while_true_eq by done.
    symmetry. apply (skip_whitespace_refines fuel (S fuel)); [lia|].
    by apply bind_not_OutOfFuel in Hne.
  - apply get_token_refines; [lia|done].
Qed.

(** X9: a blank before a token changes nothing: [get_token] returns what it
    returns when called one character further on. *)
Theorem leading_blank_is_skipped fuel1 fuel2 l :
  blank (char l) = true →
  get_token fuel1 l ≠ OutOfFuel →
  get_token fuel2 (next_char_state l) ≠ OutOfFuel →
  get_token fuel1 l = get_token fuel2 (next_char_state l).
Proof.
  intros Hb H1 H2. set (big := (fuel1 `max` fuel2)%nat).
  rewrite <-(get_token_refines fuel1 (S big)) by (done || lia).
  rewrite <-(get_token_refines fuel2 big (ltac:(lia)) _ H2) in H2 |- *.
  by apply get_token_blank.
Qed.

Lemma leading_blank_is_skipped_witness :
  blank (char (Lexer_init " GOTO")) = true
  ∧ get_token 5 (Lexer_init " GOTO") ≠ OutOfFuel
  ∧ get_token 4 (next_char_state (Lexer_init " GOTO")) ≠ OutOfFuel
  ∧ get_token 5 (Lexer_init " GOTO")
    = get_token 4 (next_char_state (Lexer_init " GOTO")).
Proof.
  assert (blank (char (Lexer_init " GOTO")) = true) as Hb by reflexivity.
  assert (get_token 5 (Lexer_init " GOTO") ≠ OutOfFuel) as H1
    by (vm_compute; discriminate).
  assert (get_token 4 (next_char_state (Lexer_init " GOTO")) ≠ OutOfFuel)
    as H2 by (vm_compute; discriminate).
  split; [exact Hb|]. split; [exact H1|]. split; [exact H2|].
  exact (leading_blank_is_skipped _ _ _ Hb H1 H2).
Defined.

Ltac absurd_char :=
  match goal with
  | H : bool_decide _ = true |- _ => by vm_compute in H
  | H : isdigit _ = true |- _ => by vm_compute in H
  | H : isalpha _ = true |- _ => by vm_compute in H
  end.

Lemma get_token_at_end fuel l :
  WF l → source_len l ≤ pos l →
  get_token fuel l = Ok (mkToken (str1 NUL) EOF) (next_char_state l).
Proof.
  intros Hwf Hend.
  assert (char l = NUL) as Hc.
  { rewrite WF_char by done. unfold char_at.
    by rewrite bool_decide_eq_true_2 by lia. }
  assert (twp (get_token fuel)
            (λ t l', t = mkToken (str1 NUL) EOF ∧ l' = next_char_state l)
            (λ _ _, False) l) as H.
  { unfold get_token. twp_step. unfold skip_whitespace.
    apply twp_while_false; [by rewrite Hc|].
    twp_step. unfold skip_comment. do 3 twp_step.
    { match goal with H : bool_decide _ = true |- _ =>
        rewrite Hc in H; by vm_compute in H end. }
    do 3 twp_step. rewrite Hc.
    do 12 (twp_step; [absurd_char|]).
    twp_step; [|absurd_test]. by repeat twp_step. }
  unfold twp in H. destruct (get_token fuel l) as [t l'| |]; [|done..].
  by destruct H as [-> ->].
Qed.

(** X10: at or past the end of the source [get_token] returns the
    end-of-input token, however often it is called; each call moves the
    offset one further. *)
Theorem end_of_input_is_sticky fuel n l :
  WF l → source_len l ≤ pos l →
  get_tokens fuel n l
  = Ok (replicate n (mkToken (str1 NUL) EOF)) (Nat.iter n next_char_state l).
Proof.
  revert l. induction n as [|n IH]; intros l Hwf Hend; [done|].
  change (get_tokens fuel (S n))
    with (t ← get_token fuel; ts ← get_tokens fuel n; mret (t :: ts)).
  unfold mbind, M_bind. rewrite get_token_at_end by done.
  rewrite IH; [|by apply next_char_WF|simpl; lia].
  unfold mret, M_ret. f_equal. by rewrite Nat.iter_succ_r.
Qed.

Lemma end_of_input_is_sticky_witness :
  WF (mkLexer (str1 LF) 1 NUL 1 [1; 0])
  ∧ source_len (mkLexer (str1 LF) 1 NUL 1 [1; 0])
    ≤ pos (mkLexer (str1 LF) 1 NUL 1 [1; 0])
  ∧ get_tokens 0 3 (mkLexer (str1 LF) 1 NUL 1 [1; 0])
    = Ok (replicate 3 (mkToken (str1 NUL) EOF))
         (Nat.iter 3 next_char_state (mkLexer (str1 LF) 1 NUL 1 [1; 0])).
Proof.
  assert (WF (mkLexer (str1 LF) 1 NUL 1 [1; 0])) as Hwf
    by (by split).
  assert (source_len (mkLexer (str1 LF) 1 NUL 1 [1; 0])
          ≤ pos (mkLexer (str1 LF) 1 NUL 1 [1; 0])) as Hend
    by (simpl; lia).
  split; [exact Hwf|]. split; [exact Hend|].
  exact (end_of_input_is_sticky 0 3 _ Hwf Hend).
Defined.

(** X11: a character no token starts with makes [get_token] abort at once,
    with the lexer left as it was. *)
Theorem unknown_character_is_refused fuel l :
  unknown (char l) → get_token fuel l = Abort (LexUnknownToken (char l)) l.
Proof.
  intros (Hno & Hd & Ha).
  assert (∀ c, c ∈ [PLUS_SIGN; MINUS_SIGN; STAR; SLASH_SIGN; EQUALS;
                    GREATER; LESS; BANG; QUOTE; LF; NUL; SPACE; TAB; CR;
                    HASH] → bool_decide (char l = c) = false) as Hne.
  { intros c Hin. apply bool_decide_eq_false_2. by intros <-. }
  assert (blank (char l) = false) as Hb.
  { apply bool_decide_eq_false_2. intros Hin. apply Hno.
    rewrite !elem_of_cons in *. tauto. }
  assert (twp (get_token fuel) (λ _ _, False)
            (λ e l', e = LexUnknownToken (char l) ∧ l' = l) l) as H.
  { unfold get_token. twp_step. unfold skip_whitespace.
    apply twp_while_false; [done|].
    twp_step. unfold skip_comment. do 3 twp_step.
    { match goal with H : bool_decide _ = true |- _ =>
        rewrite Hne in H by (rewrite !elem_of_cons; tauto); done end. }
    do 3 twp_step.
    repeat (twp_step;
      [ match goal with H : bool_decide _ = true |- _ =>
          rewrite Hne in H by (rewrite !elem_of_cons; tauto); done end
      | ]).
    twp_step; [congruence|]. twp_step; [congruence|].
    repeat (twp_step;
      [ match goal with H : bool_decide _ = true |- _ =>
          rewrite Hne in H by (rewrite !elem_of_cons; tauto); done end
      | ]).
    twp_step. done. }
  unfold twp in H. destruct (get_token fuel l) as [| e l' |]; [done| |done].
  by destruct H as [-> ->].
Qed.

(** An opening parenthesis: the language has none. *)
Lemma unknown_character_is_refused_witness :
  unknown (char (Lexer_init "(1)"))
  ∧ get_token 0 (Lexer_init "(1)")
    = Abort (LexUnknownToken (char (Lexer_init "(1)"))) (Lexer_init "(1)").
Proof.
  assert (unknown (char (Lexer_init "(1)"))) as Hu.
  { split_and!; [|reflexivity..].
    rewrite !elem_of_cons, elem_of_nil. intros H.
    repeat destruct H as [H|H]; discriminate H || done. }
  split; [exact Hu|]. exact (unknown_character_is_refused 0 _ Hu).
Defined.

(** X12: [is_keyword] answers with a kind exactly on the eleven keyword
    names, spelled in upper case; the names of the other kinds are no
    keywords. *)
Theorem is_keyword_iff txt k :
  is_keyword txt = Some k ↔ k ∈ keyword_kinds ∧ txt = TokenType.name k.
Proof.
  split.
  - intros [Hin Hname]%is_keyword_Some. by split.
  - intros [Hin ->]. unfold keyword_kinds in Hin.
    rewrite !elem_of_cons, elem_of_nil in Hin.
    repeat destruct Hin as [->|Hin]; done.
Qed.

(** * What the parser accepts *)

Lemma lexes_app l a l1 b l2 :
  lexes l a l1 → lexes l1 b l2 → lexes l (a ++ b) l2.
Proof.
  intros Ha. revert l2. induction b as [|t b IH] using rev_ind; intros l2.
  - intros [fuel H]. simpl in H. unfold mret, M_ret in H.
    injection H as <-. by rewrite app_nil_r.
  - intros (l3 & Hb & fuel & Ht)%lexes_unsnoc.
    rewrite app_assoc. eapply lexes_snoc; [by apply IH|done].
Qed.

Lemma consumed_refl p : consumed p [] p.
Proof. exists []. split; [apply lexes_nil|done]. Qed.

Lemma consumed_trans p ts1 p1 ts2 p2 :
  consumed p ts1 p1 → consumed p1 ts2 p2 → consumed p (ts1 ++ ts2) p2.
Proof.
  intros (m1 & H1 & E1) (m2 & H2 & E2). exists (m1 ++ m2).
  split; [by eapply lexes_app|].
  rewrite app_assoc, E1, <-!app_assoc. by rewrite <-E2.
Qed.

Lemma same_tables_refl p : same_tables p p.
Proof. by repeat split. Qed.

Lemma same_tables_trans p p1 p2 :
  same_tables p p1 → same_tables p1 p2 → same_tables p p2.
Proof.
  intros (?&?&?&?) (?&?&?&?). unfold same_tables.
  split_and!; congruence.
Qed.

Lemma texts_app ts1 ts2 : texts (ts1 ++ ts2) = texts ts1 +:+ texts ts2.
Proof.
  induction ts1 as [|t ts1 IH]; [done|].
  change (text t +:+ texts (ts1 ++ ts2)
          = (text t +:+ texts ts1) +:+ texts ts2).
  by rewrite IH, append_assoc.
Qed.

Lemma texts_one t : texts [t] = text t.
Proof. apply append_nil_r. Qed.

Lemma emitted_verbatim_refl p : emitted_verbatim p [] p.
Proof.
  split_and!; try done.
  - symmetry. apply append_nil_r.
  - by intros t Hin%elem_of_nil.
Qed.

Lemma emitted_verbatim_trans p ts1 p1 ts2 p2 :
  emitted_verbatim p ts1 p1 → emitted_verbatim p1 ts2 p2 →
  emitted_verbatim p (ts1 ++ ts2) p2.
Proof.
  intros (Hc1 & Hh1 & Ho1 & Hs1 & Hd1 & Hg1 & Hi1)
         (Hc2 & Hh2 & Ho2 & Hs2 & Hd2 & Hg2 & Hi2).
  split_and!; try congruence.
  - by rewrite Hc2, Hc1, texts_app, append_assoc.
  - intros t [Hin|Hin]%elem_of_app Hk; [by apply Hi1|].
    rewrite <-Hs1. by apply Hi2.
Qed.

Lemma next_token_wp fuel p :
  wp (next_token fuel)
    (λ _ p', consumed p [current_token p] p' ∧ same_tables p p')
    any_error p.
Proof.
  unfold next_token. do 4 wp_step. simpl. unfold wp.
  destruct (get_token fuel (lex p)) as [t l'| |] eqn:Ht; [|done..].
  simpl. split; [|done]. exists [t]. split; [|done]. simpl.
  apply (lexes_snoc (lex p) [] (lex p) fuel t l'); [apply lexes_nil|done].
Qed.

Lemma match_wp fuel k p :
  wp (match_ fuel k)
    (λ _ p', kind (current_token p) = k
             ∧ consumed p [current_token p] p' ∧ same_tables p p')
    any_error p.
Proof.
  unfold match_. do 4 wp_step; [by wp_step|].
  match goal with H : negb _ = false |- _ =>
    apply negb_false_iff, check_token_true in H; rename H into Hk end.
  wp_use next_token_wp; [|done]. by intros [] p' [??].
Qed.

Lemma newlines_one t : kind t = NEWLINE → newlines [t].
Proof. intros Hk. split; [done|]. by constructor. Qed.

Lemma newlines_snoc nls t :
  newlines nls → kind t = NEWLINE → newlines (nls ++ [t]).
Proof.
  intros [Hne Hall] Hk. split; [by destruct nls|].
  apply Forall_app. split; [done|]. by constructor.
Qed.

Lemma nl_wp fuel p :
  wp (nl fuel)
    (λ _ p', ∃ nls, consumed p nls p' ∧ newlines nls ∧ same_tables p p')
    any_error p.
Proof.
  unfold nl. wp_step. wp_use match_wp; [|done].
  intros [] p1 (Hk & Hc & Hs). simpl.
  apply (wp_while
           (λ s, ∃ nls, consumed p nls s ∧ newlines nls ∧ same_tables p s)).
  - exists [current_token p]. split_and!; [done| |done].
    by apply newlines_one.
  - intros s (nls & Hcs & Hnl & Hss) Hks%check_token_true.
    wp_use next_token_wp; [|done]. intros [] s' [Hc' Hs'].
    exists (nls ++ [current_token s]). split_and!.
    + by eapply consumed_trans.
    + by apply newlines_snoc.
    + by eapply same_tables_trans.
  - by intros s H _.
Qed.

(** [emit(self.current_token.text)] followed by [next_token()]. *)
Lemma copy_token_wp fuel p (m : M Parser ()) :
  (m = (emit (text (current_token p));; next_token fuel)
   ∨ m = emit_current fuel) →
  (kind (current_token p) = IDENT → text (current_token p) ∈ symbols p) →
  wp m
    (λ _ p', consumed p [current_token p] p'
             ∧ emitted_verbatim p [current_token p] p')
    any_error p.
Proof.
  intros Hm Hid.
  assert (wp (emit (text (current_token p));; next_token fuel)
            (λ _ p', consumed p [current_token p] p'
                     ∧ emitted_verbatim p [current_token p] p')
            any_error p) as H.
  { unfold emit. do 2 wp_step. wp_use next_token_wp; [|done].
    intros [] p' [Hc (He & Hs & Hd & Hg)]. simpl in *.
    split; [done|]. unfold emitted_verbatim. rewrite texts_one.
    split_and!; try (by rewrite ?He).
    intros t ->%list_elem_of_singleton. done. }
  destruct Hm as [-> | ->]; [done|].
  unfold emit_current. by do 2 wp_step.
Qed.

Lemma primary_wp fuel p :
  wp (primary fuel) (λ _, copied primary_of p) any_error p.
Proof.
  unfold primary. do 3 wp_step.
  - match goal with H : check_token _ _ = true |- _ =>
      apply check_token_true in H; rename H into Hk end.
    wp_use (copy_token_wp fuel p); [by left|by rewrite Hk| |done].
    intros [] p' [Hc He]. exists [current_token p].
    split_and!; [done|by apply primary_number|done].
  - wp_step; [|by wp_step].
    match goal with H : check_token _ _ = true |- _ =>
      apply check_token_true in H; rename H into Hk end.
    do 2 wp_step; [by wp_step|].
    match goal with H : bool_decide _ = false |- _ =>
      apply bool_decide_eq_false in H; apply dec_stable in H;
      rename H into Hin end.
    wp_use (copy_token_wp fuel p); [by left|done| |done].
    intros [] p' [Hc He]. exists [current_token p].
    split_and!; [done|by apply primary_ident|done].
Qed.

Lemma copied_after G p ts p1 p2 (G' : list Token → Prop) :
  consumed p ts p1 → emitted_verbatim p ts p1 → copied G p1 p2 →
  (∀ us, G us → G' (ts ++ us)) → copied G' p p2.
Proof.
  intros Hc He (us & Hc' & HG & He') HG'. exists (ts ++ us).
  split_and!; [by eapply consumed_trans|by apply HG'|
               by eapply emitted_verbatim_trans].
Qed.

Lemma operator_not_IDENT p (ks : list TokenType) :
  kind (current_token p) ∈ ks → IDENT ∉ ks →
  kind (current_token p) = IDENT → text (current_token p) ∈ symbols p.
Proof. intros Hin Hno Hk. rewrite Hk in Hin. done. Qed.

Lemma check_either k1 k2 p :
  check_token k1 p || check_token k2 p = true →
  kind (current_token p) ∈ [k1; k2].
Proof.
  intros [H|H]%orb_true_iff; apply check_token_true in H; rewrite H;
    set_solver.
Qed.

Lemma unary_wp fuel p :
  wp (unary fuel) (λ _, copied unary_of p) any_error p.
Proof.
  unfold unary. do 4 wp_step.
  - match goal with H : _ || _ = true |- _ =>
      apply check_either in H; rename H into Hk end.
    wp_use (copy_token_wp fuel p); [by right| | |done].
    { apply (operator_not_IDENT _ _ Hk). set_solver. }
    intros [] p1 [Hc He].
    wp_use primary_wp; [|done]. intros [] p2 Hp.
    eapply copied_after; [done..|]. intros us Hus.
    by apply unary_signed.
  - wp_use primary_wp; [|done]. intros [] p2 (ts & Hc & HG & He).
    exists ts. split_and!; [done|by apply unary_plain|done].
Qed.

(** The loops [while operator: emit; next_token; operand]. *)
Lemma operator_loop_wp fuel (ks : list TokenType) (test : Parser → bool) (operand : M Parser ())
    (G1 G : list Token → Prop) p p1 :
  IDENT ∉ ks →
  (∀ s, test s = true → kind (current_token s) ∈ ks) →
  (∀ s, wp operand (λ _, copied G1 s) any_error s) →
  (∀ ts op us, G ts → kind op ∈ ks → G1 us → G (ts ++ op :: us)) →
  copied G p p1 →
  wp (while fuel test (emit_current fuel;; operand))
    (λ _ p', copied G p p') any_error p1.
Proof.
  intros Hno Htest Hop Hmore Hp1.
  apply (wp_while (copied G p)); [done| |done].
  intros s (ts & Hc & HG & He) Hk%Htest. wp_step.
  wp_use (copy_token_wp fuel s); [by right| | |done].
  { by apply (operator_not_IDENT _ ks). }
  intros [] s1 [Hc1 He1].
  wp_use Hop; [|done]. intros [] s2 (us & Hc2 & HG2 & He2).
  exists (ts ++ current_token s :: us).
  split_and!; [|by apply Hmore|].
  - change (current_token s :: us) with ([current_token s] ++ us).
    eapply consumed_trans; [done|]. by eapply consumed_trans.
  - change (current_token s :: us) with ([current_token s] ++ us).
    eapply emitted_verbatim_trans; [done|].
    by eapply emitted_verbatim_trans.
Qed.

Lemma term_wp fuel p :
  wp (term fuel) (λ _, copied term_of p) any_error p.
Proof.
  unfold term. wp_step. wp_use unary_wp; [|done].
  intros [] p1 (ts & Hc & HG & He).
  apply (operator_loop_wp fuel [ASTERISK; SLASH] _ _ unary_of).
  - set_solver.
  - intros s. apply check_either.
  - intros s. apply unary_wp.
  - intros ts' op us. apply term_more.
  - exists ts. split_and!; [done|by apply term_first|done].
Qed.

Lemma expression_wp fuel p :
  wp (expression fuel) (λ _, copied expression_of p) any_error p.
Proof.
  unfold expression. wp_step. wp_use term_wp; [|done].
  intros [] p1 (ts & Hc & HG & He).
  apply (operator_loop_wp fuel [PLUS; MINUS] _ _ term_of).
  - set_solver.
  - intros s. apply check_either.
  - intros s. apply term_wp.
  - intros ts' op us. apply expression_more.
  - exists ts. split_and!; [done|by apply expression_first|done].
Qed.

Lemma is_comparison_op_true p :
  is_comparison_op p = true → kind (current_token p) ∈ comparison_kinds.
Proof.
  unfold is_comparison_op. intros (k & Hin & Hk)%existsb_exists.
  apply check_token_true in Hk. rewrite Hk.
  by apply list_elem_of_In.
Qed.

Lemma comparison_wp fuel p :
  wp (comparison fuel) (λ _, copied comparison_of p) any_error p.
Proof.
  unfold comparison. wp_step. wp_use expression_wp; [|done].
  intros [] p1 (ts & Hc & HG & He). do 4 wp_step; [|by wp_step].
  match goal with H : is_comparison_op _ = true |- _ =>
    apply is_comparison_op_true in H; rename H into Hk end.
  wp_step.
  wp_use (copy_token_wp fuel p1); [by right| | |done].
  { apply (operator_not_IDENT _ _ Hk). unfold comparison_kinds. set_solver. }
  intros [] p2 [Hc2 He2].
  wp_use expression_wp; [|done]. intros [] p3 (us & Hc3 & HG3 & He3).
  apply (operator_loop_wp fuel comparison_kinds _ _ expression_of).
  - unfold comparison_kinds. set_solver.
  - apply is_comparison_op_true.
  - intros s. apply expression_wp.
  - intros ts' op us'. apply comparison_more.
  - exists (ts ++ current_token p1 :: us).
    split_and!; [|by apply comparison_first|].
    + change (current_token p1 :: us) with ([current_token p1] ++ us).
      eapply consumed_trans; [done|]. by eapply consumed_trans.
    + change (current_token p1 :: us) with ([current_token p1] ++ us).
      eapply emitted_verbatim_trans; [done|].
      by eapply emitted_verbatim_trans.
Qed.

(** ** Statements *)

Lemma append_nil_l (s : string) : EmptyString +:+ s = s.
Proof. done. Qed.

Lemma effects_refl p : effects p p EmptyString [] [].
Proof.
  split_and!; try done.
  - symmetry. apply append_nil_r.
  - exists EmptyString. symmetry. apply append_nil_r.
  - set_solver.
  - set_solver.
  - constructor.
  - set_solver.
Qed.

Lemma effects_trans p p1 p2 c1 c2 ls1 ls2 gs1 gs2 :
  effects p p1 c1 ls1 gs1 → effects p1 p2 c2 ls2 gs2 →
  effects p p2 (c1 +:+ c2) (ls1 ++ ls2) (gs1 ++ gs2).
Proof.
  intros (Hc1 & [h1 Hh1] & Ho1 & Hs1 & Hd1 & Hg1 & Hn1 & Hf1)
         (Hc2 & [h2 Hh2] & Ho2 & Hs2 & Hd2 & Hg2 & Hn2 & Hf2).
  split_and!.
  - by rewrite Hc2, Hc1, append_assoc.
  - exists (h1 +:+ h2). by rewrite Hh2, Hh1, append_assoc.
  - congruence.
  - set_solver.
  - rewrite Hd2, Hd1, list_to_set_app_L. set_solver.
  - rewrite Hg2, Hg1, list_to_set_app_L. set_solver.
  - apply NoDup_app. split_and!; [done| |done].
    intros x Hx1 Hx2. apply (Hf2 x Hx2). rewrite Hd1.
    apply elem_of_union_r. by apply elem_of_list_to_set.
  - intros x [Hx|Hx]%elem_of_app; [by apply Hf1|].
    intros Hin. apply (Hf2 x Hx). rewrite Hd1. by apply elem_of_union_l.
Qed.

Lemma reached_refl p : reached p [] EmptyString [] [] p.
Proof. split; [apply consumed_refl|apply effects_refl]. Qed.

Lemma reached_trans p p1 p2 ts1 ts2 c1 c2 ls1 ls2 gs1 gs2 :
  reached p ts1 c1 ls1 gs1 p1 → reached p1 ts2 c2 ls2 gs2 p2 →
  reached p (ts1 ++ ts2) (c1 +:+ c2) (ls1 ++ ls2) (gs1 ++ gs2) p2.
Proof.
  intros [Hc1 He1] [Hc2 He2].
  split; [by eapply consumed_trans|by eapply effects_trans].
Qed.

Lemma reached_eq p p' ts ts' c c' ls ls' gs gs' :
  reached p ts c ls gs p' → ts = ts' → c = c' → ls = ls' → gs = gs' →
  reached p ts' c' ls' gs' p'.
Proof. by intros H <- <- <- <-. Qed.

Lemma same_tables_effects p p' :
  same_tables p p' → effects p p' EmptyString [] [].
Proof.
  intros (He & Hs & Hd & Hg). unfold effects. rewrite He, Hs, Hd, Hg.
  exact (effects_refl p).
Qed.

Lemma emitted_verbatim_effects p ts p' :
  emitted_verbatim p ts p' → effects p p' (texts ts) [] [].
Proof.
  intros (Hc & Hh & Ho & Hs & Hd & Hg & _).
  split_and!; try done.
  - exists EmptyString. by rewrite Hh, append_nil_r.
  - by rewrite Hs.
  - by rewrite Hd, list_to_set_nil, (right_id_L ∅ (∪)).
  - by rewrite Hg, list_to_set_nil, (right_id_L ∅ (∪)).
  - constructor.
  - set_solver.
Qed.

Lemma consumed_view p p' :
  lex p' = lex p → current_token p' = current_token p →
  peek_token p' = peek_token p → consumed p [] p'.
Proof.
  intros Hl Hc Hk. exists []. rewrite Hl, Hc, Hk.
  split; [apply lexes_nil|done].
Qed.

(** The steps of a statement, from the state they are taken in. *)
Lemma emit_reached c p :
  reached p [] c [] [] (set_emitter (Emitter.emit c (emitter p)) p).
Proof.
  split; [by apply consumed_view|].
  destruct (effects_refl p) as (_&_&_&?&?&?&?&?).
  split_and!; try done. exists EmptyString. symmetry. apply append_nil_r.
Qed.

Lemma emit_line_reached c p :
  reached p [] (line c) [] []
    (set_emitter (Emitter.emit_line c (emitter p)) p).
Proof.
  split; [by apply consumed_view|].
  destruct (effects_refl p) as (_&_&_&?&?&?&?&?).
  split_and!; try done. exists EmptyString. symmetry. apply append_nil_r.
Qed.

Lemma header_line_reached c p :
  reached p [] EmptyString [] []
    (set_emitter (Emitter.header_line c (emitter p)) p).
Proof.
  split; [by apply consumed_view|].
  destruct (effects_refl p) as (_&_&_&?&?&?&?&?).
  split_and!; try done.
  - symmetry. apply append_nil_r.
  - by exists (c +:+ str1 LF).
Qed.

Lemma next_token_reached fuel p :
  wp (next_token fuel)
    (λ _ p', reached p [current_token p] EmptyString [] [] p')
    any_error p.
Proof.
  wp_use next_token_wp; [|done]. intros [] p' [Hc Hs].
  split; [done|by apply same_tables_effects].
Qed.

Lemma match_reached fuel k p :
  wp (match_ fuel k)
    (λ _ p', kind (current_token p) = k
             ∧ reached p [current_token p] EmptyString [] [] p')
    any_error p.
Proof.
  wp_use match_wp; [|done]. intros [] p' (Hk & Hc & Hs).
  split; [done|]. split; [done|by apply same_tables_effects].
Qed.

Lemma nl_reached fuel p :
  wp (nl fuel)
    (λ _ p', ∃ nls, newlines nls ∧ reached p nls EmptyString [] [] p')
    any_error p.
Proof.
  wp_use nl_wp; [|done]. intros [] p' (nls & Hc & Hn & Hs).
  exists nls. split; [done|]. split; [done|by apply same_tables_effects].
Qed.

Lemma copied_reached (rule : M Parser ()) G p :
  wp rule (λ _, copied G p) any_error p →
  wp rule
    (λ _ p', ∃ ts, G ts ∧ reached p ts (texts ts) [] [] p') any_error p.
Proof.
  intros H. eapply wp_conseq; [exact H| |done].
  intros [] p' (ts & Hc & HG & He). exists ts.
  split; [done|]. split; [done|by apply emitted_verbatim_effects].
Qed.

Lemma expression_reached fuel p :
  wp (expression fuel)
    (λ _ p', ∃ ts, expression_of ts ∧ reached p ts (texts ts) [] [] p')
    any_error p.
Proof. apply copied_reached, expression_wp. Qed.

Lemma comparison_reached fuel p :
  wp (comparison fuel)
    (λ _ p', ∃ ts, comparison_of ts ∧ reached p ts (texts ts) [] [] p')
    any_error p.
Proof. apply copied_reached, comparison_wp. Qed.

Lemma declare_reached name p :
  wp (declare name)
    (λ _ p', reached p [] EmptyString [] [] p'
             ∧ current_token p' = current_token p)
    any_error p.
Proof.
  unfold declare. do 3 wp_step; [|by split; [apply reached_refl|]].
  unfold header_line. do 3 wp_step. split; [|done].
  split; [by apply consumed_view|].
  destruct (effects_refl p) as (Hc&_&Ho&_&Hd&Hg&Hn&Hf).
  split_and!; try done.
  - by eexists.
  - simpl. set_solver.
Qed.

Lemma block_wp fuel closer (rec : M Parser ()) p :
  (∀ s, wp rec (λ _, parsed statement_of s) any_error s) →
  wp (while fuel (λ p, negb (check_token closer p)) rec)
    (λ _ p', kind (current_token p') = closer ∧ parsed block_of p p')
    any_error p.
Proof.
  intros Hrec. apply (wp_while (parsed block_of p)).
  - exists [], EmptyString, [], []. split; [constructor|apply reached_refl].
  - intros s (ts & c & ls & gs & HG & Hr) _.
    wp_use Hrec; [|done]. intros [] s' (ts' & c' & ls' & gs' & HG' & Hr').
    exists (ts ++ ts'), (c +:+ c'), (ls ++ ls'), (gs ++ gs').
    split; [by constructor|by eapply reached_trans].
  - intros s Hs Hc%negb_false_iff%check_token_true. done.
Qed.

Ltac reach H :=
  lazymatch type of H with
  | reached ?s _ _ _ _ _ =>
      lazymatch goal with
      | Hr : reached _ _ _ _ _ s |- _ =>
          let Hr' := fresh "Hr" in
          pose proof (reached_trans _ _ _ _ _ _ _ _ _ _ _ Hr H) as Hr';
          clear Hr; rename Hr' into Hr
      end
  end.

Ltac string_norm :=
  unfold line; repeat rewrite append_assoc;
  repeat rewrite append_nil_l; repeat rewrite append_nil_r.

Lemma statement_of_eq ts ts' c c' ls ls' gs gs' :
  statement_of ts c ls gs → ts = ts' → c = c' → ls = ls' → gs = gs' →
  statement_of ts' c' ls' gs'.
Proof. by intros H <- <- <- <-. Qed.

Ltac emitted :=
  lazymatch goal with
  | |- _ (set_emitter (Emitter.emit_line ?c (emitter ?s)) ?s) =>
      let H := fresh in
      pose proof (emit_line_reached c s) as H; reach H; clear H
  | |- _ (set_emitter (Emitter.emit ?c (emitter ?s)) ?s) =>
      let H := fresh in
      pose proof (emit_reached c s) as H; reach H; clear H
  | |- _ (set_emitter (Emitter.header_line ?c (emitter ?s)) ?s) =>
      let H := fresh in
      pose proof (header_line_reached c s) as H; reach H; clear H
  end.

Ltac emit_step :=
  unfold emit, emit_line, header_line;
  lazymatch goal with
  | |- wp (mbind _ _) _ _ _ => wp_step
  | |- _ => idtac
  end;
  wp_step; emitted.

Ltac kind_of H :=
  apply check_token_true in H.

Ltac lists_norm := rewrite <-?app_assoc; simpl; rewrite ?app_nil_r.

Lemma statement_body_wp fuel rec p :
  (∀ s, wp rec (λ _, parsed statement_of s) any_error s) →
  wp (statement_body fuel rec) (λ _, parsed statement_of p) any_error p.
Proof.
  intros Hrec. unfold statement_body. do 3 wp_step.
  eapply (wp_conseq _ (branch_done p) _ any_error); [| |done].
  2:{ intros [] s (ts & c & ls & gs & Hr & HG).
      wp_use nl_reached; [|done]. intros [] s' (nls & Hn & Hr').
      exists (ts ++ nls), c, ls, gs. split; [by apply HG|].
      eapply reached_eq; [by eapply reached_trans|done|..].
      - apply append_nil_r.
      - apply app_nil_r.
      - apply app_nil_r. }
  (* PRINT *)
  wp_step.
  { match goal with H : check_token _ _ = true |- _ =>
      kind_of H; rename H into Hk end.
    wp_step. wp_use next_token_reached; [|done]. intros [] p1 Hr.
    do 3 wp_step.
    - match goal with H : check_token _ _ = true |- _ =>
        kind_of H; rename H into Hk1 end.
      emit_step.
      wp_use next_token_reached; [|done]. intros [] p2 Hr2. reach Hr2.
      eexists _, _, _, _. split; [exact Hr|]. intros nls Hn.
      eapply statement_of_eq;
        [by apply (print_string (current_token p) (current_token p1) nls)
        | | |done|done].
      + by lists_norm.
      + by string_norm.
    - emit_step.
      wp_step. wp_use expression_reached; [|done].
      intros [] p2 (es & Hes & Hr2). reach Hr2. emit_step.
      eexists _, _, _, _. split; [exact Hr|]. intros nls Hn.
      eapply statement_of_eq;
        [by apply (print_expression (current_token p) es nls)
        | | |done|done].
      + by lists_norm.
      + by string_norm. }
  (* IF *)
  wp_step.
  { match goal with H : check_token _ _ = true |- _ =>
      kind_of H; rename H into Hk end.
    wp_step. wp_use next_token_reached; [|done]. intros [] p1 Hr.
    emit_step.
    wp_step. wp_use comparison_reached; [|done].
    intros [] p2 (cs & Hcs & Hr2). reach Hr2.
    wp_step. wp_use match_reached; [|done]. intros [] p3 [Hth Hr3].
    reach Hr3.
    wp_step. wp_use nl_reached; [|done]. intros [] p4 (nls1 & Hn1 & Hr4).
    reach Hr4. emit_step.
    wp_step. wp_use (block_wp fuel ENDIF rec); [done| |done].
    intros [] p5 (Hen & body & c & ls & gs & Hbody & Hr5). reach Hr5.
    wp_step. wp_use match_reached; [|done]. intros [] p6 [_ Hr6].
    reach Hr6. emit_step.
    eexists _, _, _, _. split; [exact Hr|]. intros nls2 Hn2.
    eapply statement_of_eq;
      [by apply (if_block (current_token p) cs (current_token p2) nls1
                   body c ls gs (current_token p5) nls2)
      | | | |].
    + by lists_norm.
    + by string_norm.
    + by lists_norm.
    + by lists_norm. }
  (* WHILE *)
  wp_step.
  { match goal with H : check_token _ _ = true |- _ =>
      kind_of H; rename H into Hk end.
    wp_step. wp_use next_token_reached; [|done]. intros [] p1 Hr.
    emit_step.
    wp_step. wp_use comparison_reached; [|done].
    intros [] p2 (cs & Hcs & Hr2). reach Hr2.
    wp_step. wp_use match_reached; [|done]. intros [] p3 [Hth Hr3].
    reach Hr3.
    wp_step. wp_use nl_reached; [|done]. intros [] p4 (nls1 & Hn1 & Hr4).
    reach Hr4. emit_step.
    wp_step. wp_use (block_wp fuel ENDWHILE rec); [done| |done].
    intros [] p5 (Hen & body & c & ls & gs & Hbody & Hr5). reach Hr5.
    wp_step. wp_use match_reached; [|done]. intros [] p6 [_ Hr6].
    reach Hr6. emit_step.
    eexists _, _, _, _. split; [exact Hr|]. intros nls2 Hn2.
    eapply statement_of_eq;
      [by apply (while_block (current_token p) cs (current_token p2) nls1
                   body c ls gs (current_token p5) nls2)
      | | | |].
    + by lists_norm.
    + by string_norm.
    + by lists_norm.
    + by lists_norm. }
  (* LABEL *)
  wp_step.
  { match goal with H : check_token _ _ = true |- _ =>
      kind_of H; rename H into Hk end.
    wp_step. wp_use next_token_reached; [|done]. intros [] p1 Hr.
    do 4 wp_step; [by wp_step|].
    match goal with H : bool_decide _ = false |- _ =>
      apply bool_decide_eq_false in H; rename H into Hnew end.
    do 2 wp_step.
    assert (reached p1 [] EmptyString [text (current_token p1)] []
              (set_labels_declared
                 ({[text (current_token p1)]} ∪ labels_declared p1) p1))
      as Hl.
    { split; [by apply consumed_view|].
      destruct (effects_refl p1) as (Hc&Hh&Ho&Hs&Hd&Hg&Hn&Hf).
      split_and!; try done.
      - simpl. set_solver.
      - apply NoDup_singleton.
      - by intros x ->%list_elem_of_singleton. }
    reach Hl. emit_step.
    wp_use match_reached; [|done]. intros [] p2 [Hx Hr2]. reach Hr2.
    eexists _, _, _, _. split; [exact Hr|]. intros nls Hn.
    eapply statement_of_eq;
      [by apply (label_statement (current_token p) (current_token p1) nls)
      | | | |].
    + by lists_norm.
    + by string_norm.
    + by lists_norm.
    + by lists_norm. }
  (* GOTO *)
  wp_step.
  { match goal with H : check_token _ _ = true |- _ =>
      kind_of H; rename H into Hk end.
    wp_step. wp_use next_token_reached; [|done]. intros [] p1 Hr.
    do 4 wp_step.
    assert (reached p1 [] EmptyString [] [text (current_token p1)]
              (set_labels_gotoed
                 ({[text (current_token p1)]} ∪ labels_gotoed p1) p1))
      as Hl.
    { split; [by apply consumed_view|].
      destruct (effects_refl p1) as (Hc&Hh&Ho&Hs&Hd&Hg&Hn&Hf).
      split_and!; try done. simpl. set_solver. }
    reach Hl. emit_step.
    wp_use match_reached; [|done]. intros [] p2 [Hx Hr2]. reach Hr2.
    eexists _, _, _, _. split; [exact Hr|]. intros nls Hn.
    eapply statement_of_eq;
      [by apply (goto_statement (current_token p) (current_token p1) nls)
      | | | |].
    + by lists_norm.
    + by string_norm.
    + by lists_norm.
    + by lists_norm. }
  (* LET *)
  wp_step.
  { match goal with H : check_token _ _ = true |- _ =>
      kind_of H; rename H into Hk end.
    wp_step. wp_use next_token_reached; [|done]. intros [] p1 Hr.
    do 3 wp_step. wp_use declare_reached; [|done].
    intros [] p2 [Hr2 Hcur]. reach Hr2. emit_step.
    wp_step. wp_use match_reached; [|done]. intros [] p3 [Hx Hr3].
    reach Hr3.
    wp_step. wp_use match_reached; [|done]. intros [] p4 [Heq Hr4].
    reach Hr4.
    wp_step. wp_use expression_reached; [|done].
    intros [] p5 (es & Hes & Hr5). reach Hr5. emit_step.
    eexists _, _, _, _. split; [exact Hr|]. intros nls Hn.
    simpl in Hx. rewrite Hcur in *.
    eapply statement_of_eq;
      [by apply (let_statement (current_token p) (current_token p1)
                   (current_token p3) es nls)
      | | | |].
    + lists_norm. by rewrite Hcur.
    + by string_norm.
    + by lists_norm.
    + by lists_norm. }
  (* INPUT *)
  wp_step.
  { match goal with H : check_token _ _ = true |- _ =>
      kind_of H; rename H into Hk end.
    wp_step. wp_use next_token_reached; [|done]. intros [] p1 Hr.
    do 3 wp_step. wp_use declare_reached; [|done].
    intros [] p2 [Hr2 Hcur]. reach Hr2.
    do 4 emit_step.
    wp_step. emit_step.
    wp_use match_reached; [|done]. intros [] p3 [Hx Hr3]. reach Hr3.
    eexists _, _, _, _. split; [exact Hr|]. intros nls Hn.
    simpl in Hx. rewrite Hcur in *.
    eapply statement_of_eq;
      [by apply (input_statement (current_token p) (current_token p1) nls)
      | | | |].
    + lists_norm. by rewrite Hcur.
    + by string_norm.
    + by lists_norm.
    + by lists_norm. }
  by wp_step.
Qed.

Lemma statement_wp fuel p :
  wp (statement fuel) (λ _, parsed statement_of p) any_error p.
Proof.
  revert p. induction fuel as [|fuel IH]; intros p; [done|].
  simpl. by apply statement_body_wp.
Qed.

Lemma program_parse_wp fuel p :
  wp (program_parse fuel)
    (λ _ p', kind (current_token p') = EOF
             ∧ ∃ ts c ls gs,
                 program_of ts c ls gs
                 ∧ reached p ts (c +:+ line "return 0;" +:+ line "}")
                     ls gs p')
    any_error p.
Proof.
  unfold program_parse. pose proof (reached_refl p) as Hr.
  do 2 emit_step. wp_step.
  apply (wp_while
           (λ s, ∃ nls, Forall (λ t, kind t = NEWLINE) nls
                        ∧ reached p nls EmptyString [] [] s)).
  - exists []. split; [constructor|].
    eapply reached_eq; [exact Hr|done..].
  - intros s (nls & Hn & Hs) Hk%check_token_true.
    wp_use next_token_reached; [|done]. intros [] s' Hs'. reach Hs'.
    exists (nls ++ [current_token s]). split.
    + apply Forall_app. split; [done|]. by constructor.
    + eapply reached_eq; [exact Hs|done..].
  - intros s (nls & Hn & Hs) _. clear Hr.
    wp_step. wp_use (block_wp fuel EOF (statement fuel)); [| |done].
    { intros s0. apply statement_wp. }
    intros [] s1 (Heof & body & c & ls & gs & Hbody & Hr1). reach Hr1.
    emit_step. unfold emit_line. apply wp_modify.
    match goal with
    | H : reached _ _ _ _ _ ?s |- _ =>
        let H' := fresh in
        pose proof (emit_line_reached "}" s) as H'; reach H'; clear H'
    end.
    split; [done|].
    exists (nls ++ body), c, ls, gs. split; [by exists nls, body|].
    eapply reached_eq; [exact Hs| | | |].
    + by lists_norm.
    + by string_norm.
    + by lists_norm.
    + by lists_norm.
Qed.

Lemma Parser_init_Ok fuel e l p l' :
  Parser_init fuel e l = Ok p l' →
  lexes l [current_token p; peek_token p] (lex p)
  ∧ emitter p = e ∧ symbols p = ∅
  ∧ labels_declared p = ∅ ∧ labels_gotoed p = ∅.
Proof.
  unfold Parser_init. intros H.
  apply bind_Ok_inv in H as (t1 & l1 & H1 & H).
  apply bind_Ok_inv in H as (t2 & l2 & H2 & H).
  apply bind_Ok_inv in H as (l3 & l4 & H3 & H).
  injection H3 as <- <-. injection H as <- <-. simpl.
  split_and!; try done.
  apply (lexes_snoc l [t1] l1 fuel t2 l2); [|done].
  apply (lexes_snoc l [] l fuel t1 l1); [apply lexes_nil|done].
Qed.

(** The parse phase of a compilation, in terms of the tokens of the
    source text. *)
Lemma parse_phase_translated fuel input p :
  parse_phase fuel input = Success p →
  ∃ toks c ls gs,
    program_tokens input toks ∧ program_of toks c ls gs
    ∧ code (emitter p) = c +:+ line "return 0;" +:+ line "}"
    ∧ header (emitter p)
      = prologue
        +:+ declaration_lines (first_occurrences (let_input_targets toks))
    ∧ labels_declared p = list_to_set ls
    ∧ labels_gotoed p = list_to_set gs
    ∧ NoDup ls.
Proof.
  intros Hparse. pose proof (parse_phase_sound fuel input) as Hsound.
  rewrite Hparse in Hsound.
  destruct Hsound as [[_ (cs & [Hlex Hall] & _ & _ & Hhdr)] Heof].
  unfold parse_phase in Hparse.
  destruct (Parser_init _ _ _) as [p0 l0| |] eqn:Hinit; [|done..].
  destruct (program_parse fuel p0) as [[] p1| |] eqn:Hpp; [|done..].
  injection Hparse as ->.
  apply Parser_init_Ok in Hinit as (Hlex0 & He0 & _ & Hd0 & Hg0).
  pose proof (wp_Ok _ _ _ _ _ _ (program_parse_wp fuel p0) Hpp)
    as (_ & ts & c & ls & gs & Hprog & [(more & Hmore & Heq) Heff]).
  assert (ts = cs) as ->.
  { pose proof (lexes_app _ _ _ _ _ Hlex0 Hmore) as Hlex1.
    rewrite Heq in Hlex1.
    pose proof (lexes_unique _ _ _ _ (Lexer_init_WF input) Hlex1 Hlex).
    by eapply app_inv_tail. }
  destruct Heff as (Hcode & _ & _ & _ & Hd & Hg & Hn & _).
  exists cs, c, ls, gs. split_and!; try done.
  - replace (cs ++ [current_token p; peek_token p])
      with ((cs ++ [current_token p]) ++ [peek_token p]) in Hlex
      by (by rewrite <-app_assoc).
    apply lexes_unsnoc in Hlex as (l & Hlex & _).
    by exists (current_token p), l.
  - by rewrite Hcode, He0.
  - rewrite Hd, Hd0. set_solver.
  - rewrite Hg, Hg0. set_solver.
Qed.

(** X13: an expression that is accepted is terms separated by plus or minus
    signs, a term is unaries separated by asterisks or slashes, a unary
    is a primary with or without a sign before it, a primary is a number
    or an identifier; the texts of its tokens go to the code one after
    the other and nothing else changes; every identifier in it is in the
    symbol table. *)
Theorem expression_is_copied_to_the_code fuel p p' :
  expression fuel p = Ok () p' → copied expression_of p p'.
Proof. intros H. exact (wp_Ok _ _ _ _ _ _ (expression_wp fuel p) H). Qed.

Lemma expression_is_copied_to_the_code_witness :
  ∃ p p',
    returned (Parser_init 9 (Emitter_init "out.c") (Lexer_init "-1 + 2*3"))
    = Some p
    ∧ expression 9 p = Ok () p'
    ∧ copied expression_of p p'
    ∧ code (emitter p') = "-1+2*3".
Proof.
  eexists _, _. split; [vm_compute; reflexivity|].
  split; [vm_compute; reflexivity|].
  split; [|reflexivity].
  apply (expression_is_copied_to_the_code 9). vm_compute. reflexivity.
Defined.

(** X14: a comparison that is accepted is expressions separated by one or
    more comparison operators, copied to the code in the same way. *)
Theorem comparison_is_copied_to_the_code fuel p p' :
  comparison fuel p = Ok () p' → copied comparison_of p p'.
Proof. intros H. exact (wp_Ok _ _ _ _ _ _ (comparison_wp fuel p) H). Qed.

Lemma comparison_is_copied_to_the_code_witness :
  ∃ p p',
    returned (Parser_init 9 (Emitter_init "out.c") (Lexer_init "1 < 2 <= 3"))
    = Some p
    ∧ comparison 9 p = Ok () p'
    ∧ copied comparison_of p p'
    ∧ code (emitter p') = "1<2<=3".
Proof.
  eexists _, _. split; [vm_compute; reflexivity|].
  split; [vm_compute; reflexivity|].
  split; [|reflexivity].
  apply (comparison_is_copied_to_the_code 9). vm_compute. reflexivity.
Defined.

(** X15: a statement that is accepted is one of the eight forms of
    [statement_of], newlines included; it appends the code of its form,
    declares the labels of its LABEL statements, which were not declared
    before, records the targets of its GOTO statements, and leaves what
    was emitted and declared before in place. *)
Theorem statement_is_translated fuel p p' :
  statement fuel p = Ok () p' → parsed statement_of p p'.
Proof. intros H. exact (wp_Ok _ _ _ _ _ _ (statement_wp fuel p) H). Qed.

Lemma statement_is_translated_witness :
  ∃ p p',
    returned (Parser_init 9 (Emitter_init "out.c")
                (Lexer_init (lines ["WHILE 1 > 0 REPEAT"; "GOTO a";
                                    "ENDWHILE"])))
    = Some p
    ∧ statement 9 p = Ok () p'
    ∧ parsed statement_of p p'
    ∧ code (emitter p') = lines ["while(1>0){"; "goto a;"; "}"].
Proof.
  eexists _, _. split; [vm_compute; reflexivity|].
  split; [vm_compute; reflexivity|].
  split; [|reflexivity].
  apply (statement_is_translated 9). vm_compute. reflexivity.
Defined.

(** X16: the output of a compilation that succeeds: the two scaffolding
    lines, one declaration for each LET or INPUT target in the order of
    first occurrence, the code of the statements of the program, and the
    closing lines. *)
Theorem program_is_translated order fuel input out :
  main order fuel input = Success out →
  ∃ toks c ls gs,
    program_tokens input toks ∧ program_of toks c ls gs
    ∧ out = prologue
            +:+ declaration_lines (first_occurrences (let_input_targets toks))
            +:+ c +:+ line "return 0;" +:+ line "}".
Proof.
  unfold main. rewrite compile_parse_phase. intros H.
  destruct (parse_phase fuel input) as [p| |] eqn:Hp; [|done..].
  destruct (program_check_labels order p) as [[] p'| |] eqn:Hc; [|done..].
  apply program_check_labels_state in Hc as ->. injection H as <-.
  destruct (parse_phase_translated _ _ _ Hp)
    as (toks & c & ls & gs & Htoks & Hprog & Hcode & Hhdr & _).
  exists toks, c, ls, gs. split_and!; [done..|].
  unfold Emitter.write_file. by rewrite Hcode, Hhdr, append_assoc.
Qed.

Lemma program_is_translated_witness :
  main elements 30 (lines ["INPUT n"; "PRINT n * 2"])
  = Success (lines ["#include <stdio.h>"; "int main(void){"; "float n;";
                    "if(0 == scanf(" +:+ q +:+ "%f" +:+ q +:+ ", &n)) {";
                    "n = 0;"; "scanf(" +:+ q +:+ "%*s" +:+ q +:+ ");"; "}";
                    "printf(" +:+ q +:+ "%.2f\n" +:+ q +:+ ", (float)(n*2));";
                    "return 0;"; "}"])
  ∧ ∃ toks c ls gs,
      program_tokens (lines ["INPUT n"; "PRINT n * 2"]) toks
      ∧ program_of toks c ls gs
      ∧ lines ["#include <stdio.h>"; "int main(void){"; "float n;";
               "if(0 == scanf(" +:+ q +:+ "%f" +:+ q +:+ ", &n)) {";
               "n = 0;"; "scanf(" +:+ q +:+ "%*s" +:+ q +:+ ");"; "}";
               "printf(" +:+ q +:+ "%.2f\n" +:+ q +:+ ", (float)(n*2));";
               "return 0;"; "}"]
        = prologue
          +:+ declaration_lines (first_occurrences (let_input_targets toks))
          +:+ c +:+ line "return 0;" +:+ line "}".
Proof.
  assert (main elements 30 (lines ["INPUT n"; "PRINT n * 2"])
          = Success (lines ["#include <stdio.h>"; "int main(void){";
                            "float n;";
                            "if(0 == scanf(" +:+ q +:+ "%f" +:+ q
                              +:+ ", &n)) {";
                            "n = 0;";
                            "scanf(" +:+ q +:+ "%*s" +:+ q +:+ ");"; "}";
                            "printf(" +:+ q +:+ "%.2f\n" +:+ q
                              +:+ ", (float)(n*2));";
                            "return 0;"; "}"])) as H
    by (vm_compute; reflexivity).
  split; [exact H|]. exact (program_is_translated _ _ _ _ H).
Defined.

(** X17: labels are declared at most once, and a compilation succeeds only
    if every GOTO of the program has its LABEL somewhere in the program,
    before or after it; the undeclared-label error names a GOTO target
    that no LABEL statement of the program declares. *)
Theorem jumps_need_a_label_anywhere order fuel input :
  set_order_ok order →
  match compile order fuel input with
  | Success p =>
      ∃ toks c ls gs,
        program_tokens input toks ∧ program_of toks c ls gs
        ∧ NoDup ls ∧ ∀ x, x ∈ gs → x ∈ ls
  | Failure (SemUndeclaredLabel x) =>
      ∃ toks c ls gs,
        program_tokens input toks ∧ program_of toks c ls gs
        ∧ x ∈ gs ∧ x ∉ ls
  | _ => True
  end.
Proof.
  intros Hord. rewrite compile_parse_phase.
  pose proof (parse_phase_sound fuel input) as Hsound.
  destruct (parse_phase fuel input) as [p|e|] eqn:Hp; [| |done].
  - destruct (parse_phase_translated _ _ _ Hp)
      as (toks & c & ls & gs & Htoks & Hprog & _ & _ & Hd & Hg & Hn).
    destruct (program_check_labels_cases order p Hord)
      as [[Hsub ->]|(x & Hin & Hnot & ->)].
    + exists toks, c, ls, gs. split_and!; [done..|].
      intros x Hx.
      assert (x ∈ labels_gotoed p) as Hin
        by (rewrite Hg; by apply elem_of_list_to_set).
      apply Hsub in Hin. rewrite Hd in Hin.
      by apply elem_of_list_to_set in Hin.
    + exists toks, c, ls, gs. split_and!; [done..| |].
      * rewrite Hg in Hin. by apply elem_of_list_to_set in Hin.
      * intros Hx. apply Hnot. rewrite Hd. by apply elem_of_list_to_set.
  - destruct e; try done. by destruct (Hsound label).
Qed.

Lemma jumps_need_a_label_anywhere_witness :
  set_order_ok elements
  ∧ match compile elements 30 (lines ["GOTO end"; "LABEL end"]) with
    | Success p =>
        ∃ toks c ls gs,
          program_tokens (lines ["GOTO end"; "LABEL end"]) toks
          ∧ program_of toks c ls gs
          ∧ NoDup ls ∧ ∀ x, x ∈ gs → x ∈ ls
    | Failure (SemUndeclaredLabel x) =>
        ∃ toks c ls gs,
          program_tokens (lines ["GOTO end"; "LABEL end"]) toks
          ∧ program_of toks c ls gs
          ∧ x ∈ gs ∧ x ∉ ls
    | _ => True
    end.
Proof.
  split; [exact set_order_ok_elements|].
  exact (jumps_need_a_label_anywhere elements 30
           (lines ["GOTO end"; "LABEL end"]) set_order_ok_elements).
Defined.

(** X18: a token no statement starts with makes [statement] abort with the
    invalid-statement error, with the parser left as it was: so ends a
    block whose closing keyword is missing. *)
Theorem not_a_statement_is_refused fuel p :
  kind (current_token p) ∉ statement_kinds →
  statement (S fuel) p = Abort (ParseInvalidStatement (current_token p)) p.
Proof.
  intros Hk.
  assert (∀ k, k ∈ statement_kinds → check_token k p = false) as Hno.
  { intros k Hin. apply bool_decide_eq_false_2. by intros ->. }
  assert (twp (statement (S fuel)) (λ _ _, False)
            (λ e s, e = ParseInvalidStatement (current_token p) ∧ s = p) p)
    as H.
  { simpl. unfold statement_body. do 3 twp_step.
    do 7 (twp_step;
      [ match goal with H : check_token _ _ = true |- _ =>
          rewrite Hno in H by (unfold statement_kinds; set_solver); done
        end | ]).
    by twp_step. }
  unfold twp in H.
  destruct (statement (S fuel) p) as [|e s|]; [done| |done].
  by destruct H as [-> ->].
Qed.

Lemma not_a_statement_is_refused_witness :
  ∃ p,
    returned (Parser_init 9 (Emitter_init "out.c") (Lexer_init "ENDIF"))
    = Some p
    ∧ (kind (current_token p) ∉ statement_kinds)
    ∧ statement 1 p = Abort (ParseInvalidStatement (current_token p)) p.
Proof.
  eexists. split; [vm_compute; reflexivity|].
  assert (ENDIF ∉ statement_kinds) as Hk.
  { unfold statement_kinds. rewrite !elem_of_cons, elem_of_nil.
    intros H. repeat destruct H as [H|H]; discriminate H || done. }
  split; [exact Hk|].
  apply (not_a_statement_is_refused 0). exact Hk.
Defined.
